(** * kanji_deck: the reading extraction and ranking pipeline of [main.py]

    A shallow embedding of the scraper's data transformations:

    - [extract_reading_type] (the Reading Extractor),
    - [extract_kanji_usage_data] (the Usage Table Extractor),
    - [filter_and_sort_readings] and [filter_and_sort_reading_type]
      (the Reading Ranker/Filter),
    - [fetch_kanji_data] (the per-character pipeline),
    - [invoke] (the call to the flashcard application).

    Python values are represented as follows.  A [str] is the list of its
    code points.  A [float] is an IEEE binary64 value, [spec_float] with
    precision 53 and maximal exponent 1024.  A [dict] read for its
    iteration order is an association list kept in insertion order; a
    [dict] that is only looked up is a [gmap].  A parsed page is a tree of
    tags and strings, with the queries of the parsing library written over
    it.  A call that can raise returns an [outcome]. *)

From Stdlib Require Import ZArith NArith Ascii String SpecFloat Lia.
From stdpp Require Import base option list sorting gmap.

Set Warnings "-register-all".
Open Scope N_scope.

(** ** Strings *)

Definition pystr := list N.

(** The code points of an ASCII literal. *)
Definition str (s : string) : pystr := N_of_ascii <$> list_ascii_of_string s.

(** [str.isspace] on one code point. *)
Definition is_space (c : N) : bool :=
  (9 <=? c) && (c <=? 13) || (28 <=? c) && (c <=? 32) ||
  (c =? 133) || (c =? 160) || (c =? 5760) ||
  (8192 <=? c) && (c <=? 8202) || (c =? 8232) || (c =? 8233) ||
  (c =? 8239) || (c =? 8287) || (c =? 12288).

(** [drop_while p l] removes the longest prefix of [l] whose elements
    satisfy [p]. *)
Fixpoint drop_while {A} (p : A -> bool) (l : list A) : list A :=
  match l with
  | x :: l' => if p x then drop_while p l' else l
  | [] => []
  end.

(** The truth value of a string: it is not empty. *)
Definition nonempty (s : pystr) : bool :=
  match s with
  | [] => false
  | _ => true
  end.

(** [s.strip(chars)], with the set of characters as a predicate. *)
Definition strip_chars (p : N -> bool) (s : pystr) : pystr :=
  rev (drop_while p (rev (drop_while p s))).

(** [s.strip()] *)
Definition strip (s : pystr) : pystr := strip_chars is_space s.

(** [s.replace(c, "")] for a one-character [c]. *)
Definition remove_char (c : N) (s : pystr) : pystr :=
  filter (fun x => x <> c) s.

(** ["".join(parts)] *)
Definition join_empty (parts : list pystr) : pystr := concat parts.

(** [sep.join(parts)] *)
Fixpoint join (sep : pystr) (parts : list pystr) : pystr :=
  match parts with
  | [] => []
  | [p] => p
  | p :: rest => p ++ sep ++ join sep rest
  end.

(** ** Floats *)

Definition pyfloat := spec_float.

Definition prec : Z := 53.
Definition emax : Z := 1024.

(** [a < b], [a == b], [a >= b] on floats. *)
Definition float_lt (a b : pyfloat) : bool := SFltb a b.
Definition float_eq (a b : pyfloat) : bool := SFeqb a b.
Definition float_ge (a b : pyfloat) : bool := SFleb b a.

Definition float_zero : pyfloat := S754_zero false.

(** [float(n)] for an integer [n]. *)
Definition float_of_Z (n : Z) : pyfloat := binary_normalize prec emax n 0 false.

(** A value that stands for a number: every float except NaN. *)
Definition is_number (a : pyfloat) : bool :=
  match a with S754_nan => false | _ => true end.

(** The float nearest to [(-1)^sign * m * 10^e], ties to even. *)
Definition float_of_decimal (sign : bool) (m : N) (e : Z) : pyfloat :=
  match m with
  | N0 => S754_zero sign
  | Npos p =>
      match e with
      | Zneg k =>
          SFdiv prec emax (S754_finite sign p 0)
                (S754_finite false (10 ^ k)%positive 0)
      | Z0 => binary_round prec emax sign p 0
      | Zpos k => binary_round prec emax sign (p * 10 ^ k)%positive 0
      end
  end.

(** *** [float(s)] for a string [s]

    The literal grammar of [float]: surrounding white space, a sign, then
    [inf], [infinity] or [nan] in any letter case, or decimal digits with
    an optional point and exponent, where single underscores may separate
    digits.  [None] is [ValueError]. *)

(** The white space that [float] strips: that of [str.strip] without the
    four separators U+001C to U+001F. *)
Definition is_float_space (c : N) : bool :=
  is_space c && negb ((28 <=? c) && (c <=? 31)).

(** The code points of the digit zero in the scripts that have decimal
    digits (Unicode 14); the other nine digits follow each of them. *)
Definition decimal_zeros : list N :=
  [48; 1632; 1776; 1984; 2406; 2534; 2662; 2790; 2918; 3046; 3174; 3302;
   3430; 3558; 3664; 3792; 3872; 4160; 4240; 6112; 6160; 6470; 6608; 6784;
   6800; 6992; 7088; 7232; 7248; 42528; 43216; 43264; 43472; 43504; 43600;
   44016; 65296; 66720; 68912; 69734; 69872; 69942; 70096; 70384; 70736;
   70864; 71248; 71360; 71472; 71904; 72016; 72784; 73040; 73120; 92768;
   92864; 93008; 120782; 120792; 120802; 120812; 120822; 123200; 123632;
   125264; 130032].

Definition decimal_value (c : N) : option N :=
  head (omap (fun zero => if (zero <=? c) && (c <=? zero + 9)
                          then Some (c - zero) else None)
             decimal_zeros).

Definition is_digit (c : N) : bool :=
  match decimal_value c with
  | Some _ => true
  | None => false
  end.

Definition digit_value (c : N) : N := default 0 (decimal_value c).

Definition lower (c : N) : N :=
  if (65 <=? c) && (c <=? 90) then c + 32 else c.

(** The digits at the head of [s] once a first digit has been read:
    [("_"? digit)*]. *)
Fixpoint more_digits (s : pystr) : list N * pystr :=
  match s with
  | c :: s' =>
      if is_digit c then
        let '(ds, r) := more_digits s' in (digit_value c :: ds, r)
      else if c =? 95 then
        match s' with
        | d :: s'' =>
            if is_digit d then
              let '(ds, r) := more_digits s'' in (digit_value d :: ds, r)
            else ([], s)
        | [] => ([], s)
        end
      else ([], s)
  | [] => ([], [])
  end.

(** [digitpart]: a digit, then [more_digits]; empty when [s] does not
    start with a digit. *)
Definition digitpart (s : pystr) : list N * pystr :=
  match s with
  | c :: s' =>
      if is_digit c then
        let '(ds, r) := more_digits s' in (digit_value c :: ds, r)
      else ([], s)
  | [] => ([], [])
  end.

Definition digits_value (ds : list N) : N :=
  fold_left (fun acc d => 10 * acc + d) ds 0.

Definition read_sign (s : pystr) : bool * pystr :=
  match s with
  | 43 :: s' => (false, s')
  | 45 :: s' => (true, s')
  | _ => (false, s)
  end.

(** [exponent]: nothing, or [e] or [E], a sign and a [digitpart]. *)
Definition read_exponent (s : pystr) : option Z :=
  match s with
  | [] => Some 0%Z
  | c :: s' =>
      if (c =? 101) || (c =? 69) then
        let '(neg, s'') := read_sign s' in
        match digitpart s'' with
        | (d :: ds, []) =>
            let n := Z.of_N (digits_value (d :: ds)) in
            Some (if neg then (- n)%Z else n)
        | _ => None
        end
      else None
  end.

(** [number exponent?] *)
Definition read_number (sign : bool) (s : pystr) : option pyfloat :=
  let '(ip, r) := digitpart s in
  let '(fp, r') :=
    match r with
    | 46 :: r1 => digitpart r1
    | _ => ([], r)
    end in
  match ip, fp with
  | [], [] => None
  | _, _ =>
      match read_exponent r' with
      | Some x =>
          Some (float_of_decimal sign (digits_value (ip ++ fp))
                  (x - Z.of_nat (length fp)))
      | None => None
      end
  end.

Definition float_of_str (s : pystr) : option pyfloat :=
  let '(sign, body) := read_sign (strip_chars is_float_space s) in
  let word := lower <$> body in
  if decide (word = str "inf" \/ word = str "infinity") then
    Some (S754_infinity sign)
  else if decide (word = str "nan") then Some S754_nan
  else read_number sign body.

(** ** Parsed pages

    The tree that the HTML parser builds.  A string node carries a flag:
    [true] for ordinary text and CDATA, which [.text] collects, [false] for
    comments, declarations and the like, which [.text] leaves out.  The
    attributes of a tag are a dictionary whose values are strings or, for
    [class] and the other multi-valued attributes, lists of strings. *)

Inductive attr_value :=
| AttrStr (s : pystr)
| AttrList (l : list pystr).

Inductive node :=
| NavigableString (shown : bool) (s : pystr)
| Tag (name : pystr) (attrs : gmap pystr attr_value) (contents : list node).

Definition children (n : node) : list node :=
  match n with
  | Tag _ _ cs => cs
  | NavigableString _ _ => []
  end.

Definition is_tag (n : node) : bool :=
  match n with
  | Tag _ _ _ => true
  | NavigableString _ _ => false
  end.

(** Every node below [n] in document order, each with the siblings that
    follow it under its parent. *)
Fixpoint positions (n : node) : list (node * list node) :=
  match n with
  | Tag _ _ cs =>
      (fix forest (l : list node) : list (node * list node) :=
         match l with
         | [] => []
         | c :: l' => (c, l') :: positions c ++ forest l'
         end) cs
  | NavigableString _ _ => []
  end.

Definition descendants (n : node) : list node := (positions n).*1.

(** [n.find_all(...)] and [n.find(...)], the search criteria as a
    predicate on nodes. *)
Definition find_all (p : node -> bool) (n : node) : list node :=
  List.filter p (descendants n).

Definition find (p : node -> bool) (n : node) : option node :=
  head (find_all p n).

(** [n.text] *)
Fixpoint text (n : node) : pystr :=
  match n with
  | NavigableString shown s => if shown then s else []
  | Tag _ _ cs => flat_map text cs
  end.

(** [n.get_text(strip=True)]: every collected string is stripped and the
    empty ones are left out. *)
Fixpoint stripped_strings (n : node) : list pystr :=
  match n with
  | NavigableString shown s =>
      if shown then
        match strip s with
        | [] => []
        | t => [t]
        end
      else []
  | Tag _ _ cs => flat_map stripped_strings cs
  end.

Definition get_text_strip (n : node) : pystr := join_empty (stripped_strings n).

(** [n.string]: a string node is its own string; a tag with exactly one
    child has the string of that child; any other tag has none. *)
Fixpoint string_of (n : node) : option pystr :=
  match n with
  | NavigableString _ s => Some s
  | Tag _ _ [c] => string_of c
  | Tag _ _ _ => None
  end.

(** [n.name] *)
Definition name_of (n : node) : option pystr :=
  match n with
  | Tag name _ _ => Some name
  | NavigableString _ _ => None
  end.

(** How a search by attribute compares the wanted string with the value
    found: a string must be equal; of a list, one item or the items joined
    by spaces must be. *)
Definition attr_matches (wanted : pystr) (found : option attr_value) : bool :=
  match found with
  | None => false
  | Some (AttrStr s) => bool_decide (s = wanted)
  | Some (AttrList l) =>
      bool_decide (wanted ∈ l) || bool_decide (join (str " ") l = wanted)
  end.

(** The criterion [(name)] *)
Definition tag_is (name : string) (n : node) : bool :=
  bool_decide (name_of n = Some (str name)).

(** The criterion [(name, attr=value)] *)
Definition tag_with (name attr value : string) (n : node) : bool :=
  match n with
  | Tag nm attrs _ =>
      bool_decide (nm = str name) && attr_matches (str value) (attrs !! str attr)
  | NavigableString _ _ => false
  end.

(** The criterion [(name, string=s)] *)
Definition tag_with_string (name : string) (s : pystr) (n : node) : bool :=
  tag_is name n && bool_decide (string_of n = Some s).

(** [n.find_next_sibling(name)] where [after] are the siblings after [n]. *)
Definition find_next_sibling (name : string) (after : list node) : option node :=
  head (List.filter (tag_is name) after).

(** *** Selection by a path of child steps

    [select_one] with a selector [c1 > c2 > ... > ck]: each [ci] gives an
    optional id, an optional tag name, class names, and whether the
    element has to be the first element child of its parent. *)

Record compound := {
  sel_id : option pystr;
  sel_tag : option pystr;
  sel_classes : list pystr;
  sel_first_child : bool
}.

(** The words of a class attribute given as one string. *)
Definition is_css_space (c : N) : bool :=
  (c =? 32) || (c =? 9) || (c =? 13) || (c =? 10) || (c =? 12).

Fixpoint words_from (cur : pystr) (s : pystr) : list pystr :=
  match s with
  | [] => match cur with [] => [] | _ => [rev cur] end
  | c :: s' =>
      if is_css_space c then
        match cur with
        | [] => words_from [] s'
        | _ => rev cur :: words_from [] s'
        end
      else words_from (c :: cur) s'
  end.

Definition class_list (attrs : gmap pystr attr_value) : list pystr :=
  match attrs !! str "class" with
  | Some (AttrList l) => l
  | Some (AttrStr s) => words_from [] s
  | None => []
  end.

Definition matches_compound (c : compound) (n : node) (first : bool) : bool :=
  match n with
  | Tag name attrs _ =>
      match sel_tag c with
      | Some t => bool_decide (name = t)
      | None => true
      end
      && match sel_id c, attrs !! str "id" with
         | Some i, Some (AttrStr s) => bool_decide (s = i)
         | Some _, _ => false
         | None, _ => true
         end
      && forallb (fun cl => bool_decide (cl ∈ class_list attrs)) (sel_classes c)
      && (if sel_first_child c then first else true)
  | NavigableString _ _ => false
  end.

(** [path] lists an element and its ancestors, nearest first, each with
    its first-element-child flag; [chain] lists the steps, last first. *)
Fixpoint matches_chain (chain : list compound) (path : list (node * bool)) : bool :=
  match chain, path with
  | [], _ => true
  | c :: chain', (n, first) :: path' =>
      matches_compound c n first && matches_chain chain' path'
  | _ :: _, [] => false
  end.

Fixpoint select_in (chain : list compound) (path : list (node * bool))
    (n : node) : list node :=
  match n with
  | Tag _ _ cs =>
      (fix forest (l : list node) (first : bool) : list node :=
         match l with
         | [] => []
         | c :: l' =>
             (if matches_chain chain ((c, first) :: path) then [c] else [])
             ++ select_in chain ((c, first) :: path) c
             ++ forest l' (first && negb (is_tag c))
         end) cs true
  | NavigableString _ _ => []
  end.

Definition select_one (selector : list compound) (soup : node) : option node :=
  head (select_in (rev selector) [(soup, true)] soup).

Definition step (tag : string) (classes : list string) : compound :=
  {| sel_id := None; sel_tag := Some (str tag);
     sel_classes := str <$> classes; sel_first_child := false |}.

(** [#bodyTag > div > div > div > div:nth-child(1) >
     div.col-xl-8.col-lg-7.col-md-6 > div >
     div.col-lg-9.col-md-9.col-sm-10 > div] *)
Definition readings_div_selector : list compound :=
  [ {| sel_id := Some (str "bodyTag"); sel_tag := None;
       sel_classes := []; sel_first_child := false |};
    step "div" []; step "div" []; step "div" [];
    {| sel_id := None; sel_tag := Some (str "div");
       sel_classes := []; sel_first_child := true |};
    step "div" ["col-xl-8"; "col-lg-7"; "col-md-6"];
    step "div" [];
    step "div" ["col-lg-9"; "col-md-9"; "col-sm-10"];
    step "div" [] ]%string.

(** ** JSON values, exceptions, outcomes *)

(** What [json.load] returns. *)
Inductive json :=
| JNull
| JBool (b : bool)
| JInt (n : Z)
| JFloat (x : pyfloat)
| JStr (s : pystr)
| JArr (items : list json)
| JObj (fields : gmap pystr json).

(** The exceptions: those of the interpreter that the program can meet,
    [Exception(message)] with a literal message, [Exception(value)] with a
    decoded value, and, by class name, whatever the network or the decoder
    raise. *)
Inductive exn :=
| ValueError
| TypeError
| KeyError
| Exception (message : string)
| ExceptionOf (value : json)
| LibraryError (class : string).

Inductive outcome (A : Type) :=
| Returns (a : A)
| Raises (e : exn).

Arguments Returns {A} a.
Arguments Raises {A} e.

Global Instance outcome_bind : MBind outcome := fun A B f x =>
  match x with
  | Returns a => f a
  | Raises e => Raises e
  end.

(** ** Dictionaries in insertion order *)

Section Dict.
Context {V : Type}.

Definition dict := list (pystr * V).

(** [d.get(k)] *)
Fixpoint dict_get (k : pystr) (d : dict) : option V :=
  match d with
  | [] => None
  | (k', v) :: d' => if decide (k' = k) then Some v else dict_get k d'
  end.

(** [d[k] = v]: a key already present keeps its place. *)
Fixpoint dict_set (k : pystr) (v : V) (d : dict) : dict :=
  match d with
  | [] => [(k, v)]
  | (k', v') :: d' =>
      if decide (k' = k) then (k, v) :: d' else (k', v') :: dict_set k v d'
  end.

Definition dict_keys (d : dict) : list pystr := d.*1.

(** No key occurs twice, as in every dictionary of the program. *)
Definition dict_wf (d : dict) : Prop := NoDup (dict_keys d).
End Dict.

Arguments dict V : clear implicits.

(** ** [sorted(items, key=..., reverse=...)]

    The sort compares keys with [<] only.  With [reverse] the list is
    reversed, sorted, and reversed again.

    [list_sort] follows [list.sort] of CPython 3.11
    (Objects/listobject.c) comparison by comparison: natural runs are
    found and extended by binary insertion, and merged, with galloping,
    in the order that the powers of the runs tell.  This matters when a
    key is NaN, which [<] orders with nothing: the result is then whatever
    the comparisons made lead to.

    On keys that are numbers the result is the one the language
    guarantees, the keys ascending and elements with equal keys in their
    original order.  [sort_ascending], insertion from the right, is that
    result; that [list_sort] computes it is proved below
    ([list_sort_numbers]). *)

Section Sorted.
Context {A : Type} (key : A -> pyfloat).

(** *** The stable sort *)

Fixpoint insert_sorted (x : A) (l : list A) : list A :=
  match l with
  | [] => [x]
  | y :: l' =>
      if float_lt (key y) (key x) then y :: insert_sorted x l'
      else x :: l
  end.

Fixpoint sort_ascending (l : list A) : list A :=
  match l with
  | [] => []
  | x :: l' => insert_sorted x (sort_ascending l')
  end.

(** [x] may stand before [y] in ascending order: not [key y < key x]. *)
Definition ascending (x y : A) : Prop := float_lt (key y) (key x) = false.

(** [x] may stand before [y] in descending order: [key x >= key y]. *)
Definition descending (x y : A) : Prop := float_ge (key x) (key y) = true.

(** [ISLT(x, y)] *)
Definition key_lt (x y : A) : bool := float_lt (key x) (key y).

(** The key of [x] is a number. *)
Definition number_key (x : A) : Prop := is_number (key x) = true.

(** The stable merge of two lists: an element of the second list goes
    before one of the first only when it is less. *)
Fixpoint stable_merge (a : list A) : list A -> list A :=
  match a with
  | [] => fun b => b
  | x :: a' =>
      fix merge_with (b : list A) : list A :=
        match b with
        | [] => a
        | y :: b' =>
            if key_lt y x then y :: merge_with b'
            else x :: stable_merge a' b
        end
  end.

(** *** The procedure of [list.sort] *)

(** [a[i] < k] and [k < a[i]] *)
Definition item_lt (a : list A) (i : nat) (k : A) : bool :=
  match a !! i with Some x => key_lt x k | None => false end.

Definition lt_item (k : A) (a : list A) (i : nat) : bool :=
  match a !! i with Some x => key_lt k x | None => false end.

(** [count_run]: the length of the run that starts the slice, and whether
    it descends. *)
Fixpoint run_length (descending : bool) (previous : A) (l : list A) : nat :=
  match l with
  | [] => 0
  | x :: l' =>
      if Bool.eqb (key_lt x previous) descending
      then S (run_length descending x l') else 0
  end%nat.

Definition count_run (l : list A) : nat * bool :=
  match l with
  | x :: y :: l' =>
      let descending := key_lt y x in
      (2 + run_length descending y l', descending)%nat
  | _ => (length l, false)
  end.

(** The bisection that ends [binarysort], [gallop_left] and
    [gallop_right]: [while (lo < hi)], with [right m] telling that the
    place is to the right of [m]. *)
Fixpoint bisect (fuel : nat) (right : nat -> bool) (lo hi : nat) : nat :=
  match fuel with
  | O => hi
  | S fuel' =>
      if (lo <? hi)%nat then
        let m := (lo + (hi - lo) / 2)%nat in
        if right m then bisect fuel' right (S m) hi
        else bisect fuel' right lo m
      else hi
  end.

(** [binarysort]: each element after the run is put where the bisection
    of the elements before it says. *)
Definition binary_insert (a : list A) (pivot : A) : list A :=
  let l := bisect (length a) (fun p => negb (lt_item pivot a p)) 0 (length a) in
  take l a ++ pivot :: drop l a.

Definition binarysort (run rest : list A) : list A :=
  fold_left binary_insert rest run.

(** The offsets 1, 3, 7, ... are tried while they are below [maxofs] and
    [more] holds of them; the last two offsets tried are returned. *)
Fixpoint gallop (fuel : nat) (more : nat -> bool) (maxofs lastofs ofs : nat)
    : nat * nat :=
  match fuel with
  | O => (lastofs, ofs)
  | S fuel' =>
      if (ofs <? maxofs)%nat && more ofs
      then gallop fuel' more maxofs ofs (2 * ofs + 1)%nat
      else (lastofs, ofs)
  end.

(** [gallop_left(key, a, n, hint)] *)
Definition gallop_left (k : A) (a : list A) (hint : nat) : nat :=
  let n := length a in
  let '(lo, hi) :=
    if item_lt a hint k then
      let maxofs := (n - hint)%nat in
      let '(lastofs, ofs) :=
        gallop maxofs (fun ofs => item_lt a (hint + ofs) k) maxofs 0 1 in
      (lastofs + hint + 1, Nat.min ofs maxofs + hint)%nat
    else
      let maxofs := (hint + 1)%nat in
      let '(lastofs, ofs) :=
        gallop maxofs (fun ofs => negb (item_lt a (hint - ofs) k)) maxofs 0 1 in
      (hint + 1 - Nat.min ofs maxofs, hint - lastofs)%nat in
  bisect n (fun m => item_lt a m k) lo hi.

(** [gallop_right(key, a, n, hint)] *)
Definition gallop_right (k : A) (a : list A) (hint : nat) : nat :=
  let n := length a in
  let '(lo, hi) :=
    if lt_item k a hint then
      let maxofs := (hint + 1)%nat in
      let '(lastofs, ofs) :=
        gallop maxofs (fun ofs => lt_item k a (hint - ofs)) maxofs 0 1 in
      (hint + 1 - Nat.min ofs maxofs, hint - lastofs)%nat
    else
      let maxofs := (n - hint)%nat in
      let '(lastofs, ofs) :=
        gallop maxofs (fun ofs => negb (lt_item k a (hint + ofs))) maxofs 0 1 in
      (lastofs + hint + 1, Nat.min ofs maxofs + hint)%nat in
  bisect n (fun m => negb (lt_item k a m)) lo hi.

(** [MIN_GALLOP] *)
Definition MIN_GALLOP : nat := 7.

(** The two ways of a merge: one element at a time, counting how often
    each run has won in a row, or galloping. *)
Inductive mode := OneByOne (acount bcount : nat) | Galloping.

(** [min_gallop -= min_gallop > 1] *)
Definition lower_min_gallop (min_gallop : nat) : nat :=
  if (1 <? min_gallop)%nat then (min_gallop - 1)%nat else min_gallop.

(** The loop of [merge_lo]: [out] is what has been written, [a] the rest
    of the copy of the first run, [b] the rest of the second run.  The
    result is the merged slice and the value left in [ms->min_gallop]. *)
Fixpoint merge_lo_loop (fuel : nat) (m : mode) (min_gallop : nat)
    (out a b : list A) : list A * nat :=
  match fuel, a, b with
  | S fuel', x :: a', y :: b' =>
      match m with
      | OneByOne acount bcount =>
          if key_lt y x then
            if bool_decide (b' = []) then ((out ++ [y]) ++ a, min_gallop)
            else if (min_gallop <=? S bcount)%nat
            then merge_lo_loop fuel' Galloping (S min_gallop) (out ++ [y]) a b'
            else merge_lo_loop fuel' (OneByOne 0 (S bcount)) min_gallop
                   (out ++ [y]) a b'
          else
            if bool_decide (length a' = 1%nat) then ((out ++ [x]) ++ b ++ a', min_gallop)
            else if (min_gallop <=? S acount)%nat
            then merge_lo_loop fuel' Galloping (S min_gallop) (out ++ [x]) a' b
            else merge_lo_loop fuel' (OneByOne (S acount) 0) min_gallop
                   (out ++ [x]) a' b
      | Galloping =>
          let min_gallop := lower_min_gallop min_gallop in
          let acount := gallop_right y a 0 in
          let out := out ++ take acount a in
          let a := drop acount a in
          if negb (acount =? 0)%nat && bool_decide (length a = 1%nat)
          then (out ++ b ++ a, min_gallop)
          else if negb (acount =? 0)%nat && bool_decide (a = [])
          then (out ++ b, min_gallop)
          else
            let out := out ++ [y] in
            if bool_decide (b' = []) then (out ++ a, min_gallop)
            else
              match a with
              | x :: a' =>
                  let bcount := gallop_left x b' 0 in
                  let out := out ++ take bcount b' in
                  let b := drop bcount b' in
                  if negb (bcount =? 0)%nat && bool_decide (b = [])
                  then (out ++ a, min_gallop)
                  else
                    let out := out ++ [x] in
                    if bool_decide (length a' = 1%nat)
                    then (out ++ b ++ a', min_gallop)
                    else if (MIN_GALLOP <=? acount)%nat || (MIN_GALLOP <=? bcount)%nat
                    then merge_lo_loop fuel' Galloping min_gallop out a' b
                    else merge_lo_loop fuel' (OneByOne 0 0) (S min_gallop) out a' b
              | [] => (out ++ a ++ b', min_gallop)
              end
      end
  | _, _, _ => (out ++ a ++ b, min_gallop)
  end.

(** [merge_lo]: the first run is the shorter one and is copied away; the
    slice is filled from the left. *)
Definition merge_lo (a b : list A) (min_gallop : nat) : list A * nat :=
  match b with
  | y :: b' =>
      if bool_decide (b' = []) then ([y] ++ a, min_gallop)
      else if bool_decide (length a = 1%nat) then ([y] ++ b' ++ a, min_gallop)
      else merge_lo_loop (length a + length b') (OneByOne 0 0) min_gallop [y] a b'
  | [] => (a, min_gallop)
  end.

(** A list without its last element, and that element. *)
Definition unsnoc (l : list A) : option (list A * A) :=
  match rev l with
  | x :: r => Some (rev r, x)
  | [] => None
  end.

(** The loop of [merge_hi]: [out] is what has been written, at the right
    end of the slice; [a] is the rest of the first run and [b] the rest of
    the copy of the second run. *)
Fixpoint merge_hi_loop (fuel : nat) (m : mode) (min_gallop : nat)
    (a b out : list A) : list A * nat :=
  match fuel, unsnoc a, unsnoc b with
  | S fuel', Some (a', x), Some (b', y) =>
      match m with
      | OneByOne acount bcount =>
          if key_lt y x then
            if bool_decide (a' = []) then (b ++ x :: out, min_gallop)
            else if (min_gallop <=? S acount)%nat
            then merge_hi_loop fuel' Galloping (S min_gallop) a' b (x :: out)
            else merge_hi_loop fuel' (OneByOne (S acount) 0) min_gallop
                   a' b (x :: out)
          else
            if bool_decide (length b' = 1%nat) then (b' ++ a ++ y :: out, min_gallop)
            else if (min_gallop <=? S bcount)%nat
            then merge_hi_loop fuel' Galloping (S min_gallop) a b' (y :: out)
            else merge_hi_loop fuel' (OneByOne 0 (S bcount)) min_gallop
                   a b' (y :: out)
      | Galloping =>
          let min_gallop := lower_min_gallop min_gallop in
          let k := gallop_right y a (length a - 1) in
          let acount := (length a - k)%nat in
          let out := drop k a ++ out in
          let a := take k a in
          if negb (acount =? 0)%nat && bool_decide (a = [])
          then (b ++ out, min_gallop)
          else
            let out := y :: out in
            if bool_decide (length b' = 1%nat) then (b' ++ a ++ out, min_gallop)
            else
              match unsnoc a with
              | Some (a', x) =>
                  let k := gallop_left x b' (length b' - 1) in
                  let bcount := (length b' - k)%nat in
                  let out := drop k b' ++ out in
                  let b := take k b' in
                  if negb (bcount =? 0)%nat && bool_decide (length b = 1%nat)
                  then (b ++ a ++ out, min_gallop)
                  else if negb (bcount =? 0)%nat && bool_decide (b = [])
                  then (a ++ out, min_gallop)
                  else
                    let out := x :: out in
                    if bool_decide (a' = []) then (b ++ out, min_gallop)
                    else if (MIN_GALLOP <=? acount)%nat || (MIN_GALLOP <=? bcount)%nat
                    then merge_hi_loop fuel' Galloping min_gallop a' b out
                    else merge_hi_loop fuel' (OneByOne 0 0) (S min_gallop) a' b out
              | None => (b' ++ out, min_gallop)
              end
      end
  | _, _, _ => (a ++ b ++ out, min_gallop)
  end.

(** [merge_hi]: the second run is the shorter one and is copied away; the
    slice is filled from the right. *)
Definition merge_hi (a b : list A) (min_gallop : nat) : list A * nat :=
  match unsnoc a with
  | Some (a', x) =>
      if bool_decide (a' = []) then (b ++ [x], min_gallop)
      else if bool_decide (length b = 1%nat) then (b ++ a' ++ [x], min_gallop)
      else merge_hi_loop (length a' + length b) (OneByOne 0 0) min_gallop a' b [x]
  | None => (b, min_gallop)
  end.

(** [merge_at]: two runs that lie side by side become one.  The elements
    of the first run that stay in place, and those of the second, are left
    out of the merge. *)
Definition merge_at (a b : list A) (min_gallop : nat) : list A * nat :=
  match b with
  | y :: _ =>
      let k := gallop_right y a 0 in
      match unsnoc (drop k a) with
      | Some (_, x) =>
          let nb := gallop_left x b (length b - 1) in
          if (nb =? 0)%nat then (a ++ b, min_gallop)
          else
            let a1 := drop k a in
            let b1 := take nb b in
            let '(merged, min_gallop) :=
              if (length a1 <=? length b1)%nat then merge_lo a1 b1 min_gallop
              else merge_hi a1 b1 min_gallop in
            (take k a ++ merged ++ drop nb b, min_gallop)
      | None => (a ++ b, min_gallop)
      end
  | [] => (a, min_gallop)
  end.

(** A run on the stack of pending runs: where it starts in the list, its
    elements, and its power. *)
Record run := { base : nat; items : list A; power : nat }.

(** [powerloop] *)
Fixpoint powerloop (fuel : nat) (a b n result : nat) : nat :=
  match fuel with
  | O => result
  | S fuel' =>
      if (n <=? a)%nat then powerloop fuel' (2 * (a - n)) (2 * (b - n)) n (S result)
      else if (n <=? b)%nat then S result
      else powerloop fuel' (2 * a) (2 * b) n (S result)
  end%nat.

Definition power_of (s1 n1 n2 n : nat) : nat :=
  powerloop (S n) (2 * s1 + n1) (2 * s1 + n1 + n1 + n2) n 0.

(** The loop of [found_new_run]: the run on top is merged with the one
    below it while that one has a greater power.  The stack has its top
    first. *)
Fixpoint merge_greater_powers (new_power : nat) (top : run) (below : list run)
    (min_gallop : nat) : list run * nat :=
  match below with
  | second :: below' =>
      if (new_power <? power second)%nat then
        let '(merged, min_gallop) := merge_at (items second) (items top) min_gallop in
        merge_greater_powers new_power
          {| base := base second; items := merged; power := power second |}
          below' min_gallop
      else ({| base := base top; items := items top; power := new_power |} :: below,
            min_gallop)
  | [] => ([ {| base := base top; items := items top; power := new_power |} ],
           min_gallop)
  end.

Definition found_new_run (pending : list run) (n2 listlen min_gallop : nat)
    : list run * nat :=
  match pending with
  | top :: below =>
      merge_greater_powers (power_of (base top) (length (items top)) n2 listlen)
        top below min_gallop
  | [] => ([], min_gallop)
  end.

(** [merge_force_collapse] *)
Fixpoint merge_force_collapse (fuel : nat) (pending : list run) (min_gallop : nat)
    : list run * nat :=
  match fuel, pending with
  | S fuel', top :: second :: below =>
      let merge_top :=
        let '(merged, min_gallop) := merge_at (items second) (items top) min_gallop in
        merge_force_collapse fuel'
          ({| base := base second; items := merged; power := power second |} :: below)
          min_gallop in
      match below with
      | third :: below' =>
          if (length (items third) <? length (items top))%nat then
            let '(merged, min_gallop) :=
              merge_at (items third) (items second) min_gallop in
            merge_force_collapse fuel'
              (top :: {| base := base third; items := merged; power := power third |}
                   :: below')
              min_gallop
          else merge_top
      | [] => merge_top
      end
  | _, _ => (pending, min_gallop)
  end.

(** [merge_compute_minrun] *)
Fixpoint merge_compute_minrun (fuel : nat) (n r : nat) : nat :=
  match fuel with
  | O => (n + r)%nat
  | S fuel' =>
      if (64 <=? n)%nat
      then merge_compute_minrun fuel' (n / 2) (if Nat.odd n then 1%nat else r)
      else (n + r)%nat
  end.

(** The loop of [list.sort] over the list: the next run is found, turned
    round if it descends, made [minrun] long by [binarysort] if it is
    shorter, and pushed onto the stack. *)
Fixpoint find_runs (fuel : nat) (minrun listlen lo : nat) (rest : list A)
    (pending : list run) (min_gallop : nat) : list run * nat :=
  match fuel, rest with
  | S fuel', _ :: _ =>
      let '(n, descending) := count_run rest in
      let found := if descending then rev (take n rest) else take n rest in
      let force := if (n <? minrun)%nat then Nat.min minrun (length rest) else n in
      let found := binarysort found (take (force - n) (drop n rest)) in
      let '(pending, min_gallop) := found_new_run pending force listlen min_gallop in
      find_runs fuel' minrun listlen (lo + force) (drop force rest)
        ({| base := lo; items := found; power := 0 |} :: pending) min_gallop
  | _, _ => (pending, min_gallop)
  end.

Definition list_sort (l : list A) : list A :=
  if (length l <? 2)%nat then l
  else
    let n := length l in
    let minrun := merge_compute_minrun n n 0 in
    let '(pending, min_gallop) := find_runs n minrun n 0 l [] MIN_GALLOP in
    let '(pending, _) := merge_force_collapse (length pending) pending min_gallop in
    concat (items <$> rev pending).

(** The elements on the stack of pending runs, in the order of the list. *)
Definition pending_items (pending : list run) : list A :=
  concat (items <$> rev pending).

(** *** [sorted] *)

Definition sorted (reverse : bool) (l : list A) : list A :=
  if reverse then rev (list_sort (rev l)) else list_sort l.

(** *** Notions used in the proof that [list_sort] sorts *)

(** [right] holds of the places below [c] and of no place from [c] up to
    [n]. *)
Definition boundary (right : nat -> bool) (c n : nat) : Prop :=
  (c <= n)%nat /\
  (forall m, (m < c)%nat -> right m = true) /\
  (forall m, (c <= m < n)%nat -> right m = false).

(** What [merge_lo] relies on: the runs are sorted and the last element of
    the first is above the whole of the second. *)
Definition merge_lo_ready (a b : list A) : Prop :=
  StronglySorted ascending a /\ StronglySorted ascending b /\
  Forall number_key a /\ Forall number_key b /\
  forall z, last a = Some z -> Forall (fun y => key_lt y z = true) b.

(** What [merge_hi] relies on: the runs are sorted and the first element
    of the second is below the whole of the first. *)
Definition merge_hi_ready (a b : list A) : Prop :=
  StronglySorted ascending a /\ StronglySorted ascending b /\
  Forall number_key a /\ Forall number_key b /\
  forall y, head b = Some y -> Forall (fun x => key_lt y x = true) a.

(** A pending run is the sort of a piece of the list. *)
Definition run_of (r : run) (s : list A) : Prop :=
  items r = sort_ascending s /\ Forall number_key s.
End Sorted.

(** ** The Reading Extractor *)

Definition is_hyphen (c : N) : bool := c =? 45.

(** The body of the loop over the list items: the reading and the meaning
    of one [li], when it holds a table tagged [lang="ja"]. *)
Definition entry_of_item (item : node) : option (pystr * pystr) :=
  let reading_table := find (tag_with "table" "lang" "ja") item in
  let meaning_span := find (tag_with "span" "class" "readingMeaning") item in
  match reading_table with
  | Some reading_table =>
      let reading :=
        strip_chars is_hyphen
          (join_empty
             (List.filter nonempty (text <$> find_all (tag_is "td") reading_table))) in
      let meaning :=
        match meaning_span with
        | Some span => get_text_strip span
        | None => []
        end in
      Some (reading, meaning)
  | None => None
  end.

(** [readings[reading] = readings.get(reading, "") +
       (", " + meaning if readings.get(reading) else meaning)] *)
Definition add_meaning (readings : dict pystr) (reading meaning : pystr)
    : dict pystr :=
  let previous := default [] (dict_get reading readings) in
  dict_set reading
    (previous ++ (if nonempty previous then str ", " ++ meaning else meaning))
    readings.

Definition add_item (readings : dict pystr) (item : node) : dict pystr :=
  match entry_of_item item with
  | Some (reading, meaning) => add_meaning readings reading meaning
  | None => readings
  end.

Definition extract_reading_type (readings_div : node) (reading_type : pystr)
    : dict pystr :=
  match head (List.filter (fun p => tag_with_string "h5" reading_type p.1)
                (positions readings_div)) with
  | Some (header, after) =>
      match find_next_sibling "ul" after with
      | Some reading_list =>
          fold_left add_item (find_all (tag_is "li") reading_list) []
      | None => []
      end
  | None => []
  end.

Definition extract_readings (readings_div : node)
    : dict pystr * dict pystr * dict pystr :=
  let kunyomi := extract_reading_type readings_div (str "Kun'yomi") in
  let onyomi := extract_reading_type readings_div (str "On'yomi") in
  let nanori := extract_reading_type readings_div (str "Nanori") in
  (kunyomi, onyomi, nanori).

(** ** The Usage Table Extractor *)

Inductive script := hiragana | katakana.

Module Usage.
Record t := mk { reading : pystr; type : script; percentage : pyfloat }.
End Usage.

(** The character classes [[ぁ-ん]] and [[ァ-ン]]: U+3041 to U+3093 and
    U+30A1 to U+30F3. *)
Definition is_hiragana (c : N) : bool := (12353 <=? c) && (c <=? 12435).
Definition is_katakana (c : N) : bool := (12449 <=? c) && (c <=? 12531).

(** ["".join(re.findall(cls, reading))] for a one-character class. *)
Definition findall_join (cls : N -> bool) (reading : pystr) : pystr :=
  join_empty ((fun c => [c]) <$> List.filter cls reading).

(** The text of a reading span: the strings of its children, leaving out
    children without a string or with an empty one, and [em] tags. *)
Definition span_reading (span : node) : pystr :=
  join_empty
    (omap (fun child =>
             match string_of child with
             | Some s =>
                 if nonempty s && negb (bool_decide (name_of child = Some (str "em")))
                 then Some s else None
             | None => None
             end)
          (children span)).

(** What one reading and its percentage add to [kanji_data]. *)
Definition usage_records (reading : pystr) (percentage : pyfloat) : list Usage.t :=
  if negb (float_eq percentage float_zero) then
    let hiragana_reading := findall_join is_hiragana reading in
    let katakana_reading := findall_join is_katakana reading in
    (if nonempty hiragana_reading
     then [Usage.mk hiragana_reading hiragana percentage] else [])
    ++ (if nonempty katakana_reading
        then [Usage.mk katakana_reading katakana percentage] else [])
  else [].

(** The reading token and the percentage cell of a row that has at least
    two cells, a link in the first one and a reading span in the link. *)
Definition row_fields (row : node) : option (pystr * node) :=
  match find_all (tag_is "td") row with
  | cell0 :: cell1 :: _ =>
      match find (tag_is "a") cell0 with
      | Some link =>
          match span_reading <$> find_all (tag_with "span" "class" "reading") link with
          | reading :: _ => Some (reading, cell1)
          | [] => None
          end
      | None => None
      end
  | _ => None
  end.

(** The body of the loop over the rows. *)
Definition row_records (row : node) : outcome (list Usage.t) :=
  match row_fields row with
  | Some (reading, cell1) =>
      match float_of_str (remove_char 37 (text cell1)) with
      | Some percentage => Returns (usage_records reading percentage)
      | None => Raises ValueError
      end
  | None => Returns []
  end.

(** The rows in the order of the two nested loops. *)
Definition table_rows (soup : node) : list node :=
  flat_map (find_all (tag_is "tr")) (find_all (tag_is "table") soup).

Fixpoint collect_rows (rows : list node) : outcome (list Usage.t) :=
  match rows with
  | [] => Returns []
  | row :: rows' =>
      records ← row_records row;
      more ← collect_rows rows';
      Returns (records ++ more)
  end.

Definition extract_kanji_usage_data (soup : node) : outcome (list Usage.t) :=
  kanji_data ← collect_rows (table_rows soup);
  Returns (sorted Usage.percentage true kanji_data).

(** ** The Reading Ranker/Filter *)

Module Details.
Record t := mk { meaning : pystr; percentage : pyfloat }.
End Details.

(** [{item["reading"]: item["percentage"] for item in kanji_usage_data}] *)
Definition reading_percentages (kanji_usage_data : list Usage.t)
    : gmap pystr pyfloat :=
  fold_left (fun m item => <[Usage.reading item := Usage.percentage item]> m)
    kanji_usage_data ∅.

(** The sort key [reading_percentages.get(item[0], 0)]; the integer [0]
    compares with a float as [0.0] does. *)
Definition sort_key (reading_percentages : gmap pystr pyfloat)
    (item : pystr * pystr) : pyfloat :=
  default float_zero (reading_percentages !! item.1).

Definition keep_item (reading_percentages : gmap pystr pyfloat)
    (out : dict Details.t) (item : pystr * pystr) : dict Details.t :=
  let '(reading, meaning) := item in
  match reading_percentages !! reading with
  | Some percentage => dict_set reading (Details.mk meaning percentage) out
  | None => out
  end.

Definition filter_and_sort_reading_type (reading_type_dict : dict pystr)
    (reading_percentages : gmap pystr pyfloat) : dict Details.t :=
  fold_left (keep_item reading_percentages)
    (sorted (sort_key reading_percentages) true reading_type_dict) [].

(** What the comprehension makes of one item of a mapping without
    repeated keys. *)
Definition rank_item (reading_percentages : gmap pystr pyfloat)
    (item : pystr * pystr) : option (pystr * Details.t) :=
  (fun p => (item.1, Details.mk item.2 p)) <$> reading_percentages !! item.1.

(** The readings whose percentage in the lookup equals [p]. *)
Definition has_percentage (reading_percentages : gmap pystr pyfloat)
    (p : pyfloat) (reading : pystr) : bool :=
  match reading_percentages !! reading with
  | Some q => float_eq q p
  | None => false
  end.

Definition filter_and_sort_readings (kunyomi onyomi nanori : dict pystr)
    (kanji_usage_data : list Usage.t)
    : dict Details.t * dict Details.t * dict Details.t :=
  let reading_percentages := reading_percentages kanji_usage_data in
  (filter_and_sort_reading_type kunyomi reading_percentages,
   filter_and_sort_reading_type onyomi reading_percentages,
   filter_and_sort_reading_type nanori reading_percentages).

(** ** The per-character pipeline *)

Record kanji_result := {
  kanji : pystr;
  kunyomi : dict Details.t;
  onyomi : dict Details.t;
  nanori : dict Details.t
}.

(** [page] is what [fetch_html_content] returned: the parsed page, or
    [None] after a failed request. *)
Definition fetch_kanji_data (kanji : pystr) (page : option node)
    : outcome (option kanji_result) :=
  match page with
  | None => Returns None
  | Some soup =>
      match select_one readings_div_selector soup with
      | None => Returns None
      | Some readings_div =>
          let '(kunyomi, onyomi, nanori) := extract_readings readings_div in
          kanji_usage_data ← extract_kanji_usage_data soup;
          let '(filtered_kunyomi, filtered_onyomi, filtered_nanori) :=
            filter_and_sort_readings kunyomi onyomi nanori kanji_usage_data in
          Returns (Some {| kanji := kanji;
                           kunyomi := filtered_kunyomi;
                           onyomi := filtered_onyomi;
                           nanori := filtered_nanori |})
      end
  end.

(** ** The call to the flashcard application

    [len], [in] and indexing by a string are written out for every kind of
    JSON value, since the decoded response need not be an object. *)

Fixpoint starts_with (prefix s : pystr) : bool :=
  match prefix, s with
  | [], _ => true
  | p :: prefix', c :: s' => bool_decide (p = c) && starts_with prefix' s'
  | _ :: _, [] => false
  end.

Fixpoint is_substring (needle s : pystr) : bool :=
  starts_with needle s ||
  match s with
  | [] => false
  | _ :: s' => is_substring needle s'
  end.

(** [len(v)] *)
Definition py_len (v : json) : outcome nat :=
  match v with
  | JObj fields => Returns (size fields)
  | JArr items => Returns (length items)
  | JStr s => Returns (length s)
  | _ => Raises TypeError
  end.

(** [k in v] for a string [k] *)
Definition py_contains (k : pystr) (v : json) : outcome bool :=
  match v with
  | JObj fields => Returns (bool_decide (is_Some (fields !! k)))
  | JArr items =>
      Returns (existsb (fun x => match x with
                                 | JStr s => bool_decide (s = k)
                                 | _ => false
                                 end) items)
  | JStr s => Returns (is_substring k s)
  | _ => Raises TypeError
  end.

(** [v[k]] for a string [k] *)
Definition py_index (v : json) (k : pystr) : outcome json :=
  match v with
  | JObj fields =>
      match fields !! k with
      | Some x => Returns x
      | None => Raises KeyError
      end
  | _ => Raises TypeError
  end.

(** [request(action, **params)] *)
Definition request (action : pystr) (params : gmap pystr json) : json :=
  JObj (<[str "action" := JStr action]>
        (<[str "params" := JObj params]>
         (<[str "version" := JInt 6]> ∅))).

(** [exchange] stands for posting the encoded request to the application
    and decoding the reply with [json.load]; it raises when either fails. *)
Definition invoke (exchange : json -> outcome json)
    (action : pystr) (params : gmap pystr json) : outcome json :=
  response ← exchange (request action params);
  n ← py_len response;
  if negb (Nat.eqb n 2) then
    Raises (Exception "response has an unexpected number of fields")
  else
    has_error ← py_contains (str "error") response;
    if negb has_error then
      Raises (Exception "response is missing required error field")
    else
      has_result ← py_contains (str "result") response;
      if negb has_result then
        Raises (Exception "response is missing required result field")
      else
        error ← py_index response (str "error");
        match error with
        | JNull => py_index response (str "result")
        | _ => Raises (ExceptionOf error)
        end.

(** ** The claims in the words of the specification, and sample pages *)

(** The Unicode blocks Hiragana (U+3040 to U+309F) and Katakana (U+30A0 to
    U+30FF), as the specification words the partition of a reading. *)
Definition in_hiragana_block (c : N) : bool := (12352 <=? c) && (c <=? 12447).
Definition in_katakana_block (c : N) : bool := (12448 <=? c) && (c <=? 12543).

(** The records of a reading when it is partitioned by block. *)
Definition block_records (reading : pystr) (percentage : pyfloat) : list Usage.t :=
  (if existsb in_hiragana_block reading
   then [Usage.mk (List.filter in_hiragana_block reading) hiragana percentage]
   else [])
  ++ (if existsb in_katakana_block reading
      then [Usage.mk (List.filter in_katakana_block reading) katakana percentage]
      else []).

(** The bound in the specification's words: every record emitted for the
    page has a percentage above zero. *)
Definition emits_only_positive (soup : node) : Prop :=
  forall kanji_data item,
    extract_kanji_usage_data soup = Returns kanji_data ->
    item ∈ kanji_data ->
    float_lt float_zero (Usage.percentage item) = true.

(** The outcome of the pipeline in the specification's words: null when
    the reading section is not found, a result otherwise. *)
Definition returns_null_or_result (kanji : pystr) (soup : node) : Prop :=
  match select_one readings_div_selector soup with
  | None => fetch_kanji_data kanji (Some soup) = Returns None
  | Some _ => exists result, fetch_kanji_data kanji (Some soup) = Returns (Some result)
  end.

(** The partition in the specification's words: the records of a
    qualifying row are those of its reading split by Unicode block. *)
Definition partitions_by_block (row : node) : Prop :=
  forall reading cell1 percentage,
    row_fields row = Some (reading, cell1) ->
    float_of_str (remove_char 37 (text cell1)) = Some percentage ->
    float_eq percentage float_zero = false ->
    row_records row = Returns (block_records reading percentage).

(** The list items that [extract_reading_type] goes through: those of the
    first [ul] after the heading, none when either is missing. *)
Definition reading_items (readings_div : node) (reading_type : pystr) : list node :=
  match head (List.filter (fun p => tag_with_string "h5" reading_type p.1)
                (positions readings_div)) with
  | Some (header, after) =>
      match find_next_sibling "ul" after with
      | Some reading_list => find_all (tag_is "li") reading_list
      | None => []
      end
  | None => []
  end.

(** The meanings, in the order of the list, of the entries that have the
    given reading. *)
Definition meanings_of (reading : pystr) (items : list node) : list pystr :=
  (List.filter (fun e : pystr * pystr => bool_decide (e.1 = reading))
     (omap entry_of_item items)).*2.

(** The response that [invoke] accepts: an object with exactly the two
    fields [error] and [result], the first of them null; [result] is the
    value of the second. *)
Definition accepted (response result : json) : Prop :=
  exists fields : gmap pystr json,
    response = JObj fields /\
    dom fields = {[ str "error"; str "result" ]} /\
    fields !! str "error" = Some JNull /\
    fields !! str "result" = Some result.

(** One step of the merge, on the meaning accumulated so far. *)
Definition merge_step (previous meaning : pystr) : pystr :=
  previous ++ (if nonempty previous then str ", " ++ meaning else meaning).

(** The meaning kept for a reading whose entries have the meanings [ms], in
    the order of the list: each is appended to what has been accumulated,
    after a [", "] unless that is empty. *)
Definition merged_meaning (ms : list pystr) : pystr :=
  fold_left merge_step ms [].

Module Sample.
Definition text_node (s : pystr) : node := NavigableString true s.

Definition element (name : string) (contents : list node) : node :=
  Tag (str name) ∅ contents.

Definition element_of_class (name : string) (classes : list string)
    (contents : list node) : node :=
  Tag (str name) {[ str "class" := AttrList (str <$> classes) ]} contents.

(** A row of a usage table: a linked word with its reading, and the share
    of that reading. *)
Definition usage_row (reading : pystr) (share : string) : node :=
  element "tr"
    [ element "td"
        [ element "a" [ element_of_class "span" ["reading"]%string [text_node reading] ] ];
      element "td" [ text_node (str share) ] ].

Definition page (contents : list node) : node := element "[document]" contents.

(** あ at -5%. *)
Definition negative_row : node := usage_row [12354] "-5%".
Definition negative_page : node := page [ element "table" [negative_row] ].

(** カー at 50%: the second character is the long vowel mark U+30FC. *)
Definition long_vowel_row : node := usage_row [12459; 12540] "50%".

Definition long_vowel_page : node := page [ element "table" [long_vowel_row] ].

(** あア at 12%. *)
Definition mixed_row : node := usage_row [12354; 12450] "12%".

(** あ with a share that is not a number. *)
Definition malformed_row : node := usage_row [12354] "n/a".
Definition malformed_page : node :=
  page [ element "table" [usage_row [12450] "3%"; malformed_row] ].

(** One entry of a reading list. *)
Definition reading_item (reading meaning : pystr) : node :=
  element "li"
    [ Tag (str "table") {[ str "lang" := AttrStr (str "ja") ]}
        [ element "tr" [ element "td" [text_node reading];
                         element "td" [text_node (str "-")] ] ];
      element_of_class "span" ["readingMeaning"]%string [text_node meaning] ].

(** A reading section with the Kun'yomi あ (twice) and い. *)
Definition readings_div : node :=
  element "div"
    [ element "h5" [ text_node (str "Kun'yomi") ];
      element "ul"
        [ reading_item [12354] (str "to meet");
          reading_item [12356] (str "");
          reading_item [12354] (str "to join") ];
      element "h5" [ text_node (str "On'yomi") ];
      element "ul" [ reading_item [12450] (str "sub-") ] ].

(** A page that holds [readings_div] at the place where the selector
    looks for it, followed by the given usage rows. *)
Definition kanji_page (rows : list node) : node :=
  page
    [ element "html"
        [ Tag (str "body") {[ str "id" := AttrStr (str "bodyTag") ]}
            [ element "div" [ element "div" [ element "div" [ element "div"
                [ element_of_class "div" ["col-xl-8"; "col-lg-7"; "col-md-6"]%string
                    [ element "div"
                        [ element_of_class "div"
                            ["col-lg-9"; "col-md-9"; "col-sm-10"]%string
                            [ readings_div ] ] ] ] ] ] ];
              element "table" rows ] ] ].

Definition good_page : node :=
  kanji_page [usage_row [12354; 45] "12%"; usage_row [12450] "0%"].

Definition bad_page : node := kanji_page [malformed_row].

Definition usage_data : list Usage.t :=
  [ Usage.mk [12354] hiragana (float_of_Z 12);
    Usage.mk [12450] katakana (float_of_Z 7);
    Usage.mk [12354] hiragana (float_of_Z 3) ].

Definition kunyomi_dict : dict pystr :=
  [ ([12356], str "stomach"); ([12354], str "to meet"); ([12360], str "picture") ].

Definition lookup : gmap pystr pyfloat :=
  <[ [12354] := float_of_Z 12 ]> (<[ [12356] := float_of_Z 12 ]> ∅).

(** [float("nan")] *)
Definition nan : pyfloat := S754_nan.

(** あ, い and う, with the shares 1, NaN and 5. *)
Definition nan_dict : dict pystr :=
  [ ([12354], str "a"); ([12356], str "b"); ([12358], str "c") ].

Definition nan_lookup : gmap pystr pyfloat :=
  <[ [12354] := float_of_Z 1 ]>
    (<[ [12356] := nan ]> (<[ [12358] := float_of_Z 5 ]> ∅)).

(** あ, い, う, え, お, か and き, with the shares 1, 1, NaN, 1, 2, 1
    and 1. *)
Definition tie_dict : dict pystr :=
  [ ([12354], str "a"); ([12356], str "b"); ([12358], str "c");
    ([12360], str "d"); ([12362], str "e"); ([12363], str "f");
    ([12365], str "g") ].

Definition tie_lookup : gmap pystr pyfloat :=
  <[ [12354] := float_of_Z 1 ]> (<[ [12356] := float_of_Z 1 ]>
    (<[ [12358] := nan ]> (<[ [12360] := float_of_Z 1 ]>
      (<[ [12362] := float_of_Z 2 ]> (<[ [12363] := float_of_Z 1 ]>
        (<[ [12365] := float_of_Z 1 ]> ∅)))))).

(** カー at 50%, あア at 12%, ア at 0%, and a row without a link. *)
Definition partition_page : node :=
  page [ element "table"
           [ long_vowel_row; mixed_row; usage_row [12450] "0%";
             element "tr" [ element "td" [text_node (str "word")];
                            element "td" [text_node (str "7%")] ] ] ].

(** あヴ at 12%: the second character is U+30F4, KATAKANA LETTER VU. *)
Definition vu_row : node := usage_row [12354; 12532] "12%".
Definition vu_page : node := page [ element "table" [vu_row] ].

(** か at 30%, あア at 12%, キ at 5%. *)
Definition mixed_page : node :=
  page [ element "table"
           [ usage_row [12363] "30%"; mixed_row; usage_row [12461] "5%" ] ].
End Sample.

(** The order of the Ranker's output in the specification's words: it is
    non-increasing in percentage, and the readings of any one percentage
    are in the order of the category mapping. *)
Definition ranked_in_order (reading_type_dict : dict pystr)
    (reading_percentages : gmap pystr pyfloat) : Prop :=
  let out := filter_and_sort_reading_type reading_type_dict reading_percentages in
  StronglySorted
    (fun x y => float_ge (Details.percentage x.2) (Details.percentage y.2) = true)
    out /\
  (forall p,
      dict_keys (List.filter (fun x => float_eq (Details.percentage x.2) p) out)
      = List.filter (has_percentage reading_percentages p)
          (dict_keys reading_type_dict)).

(** The records of a reading when it is partitioned by the classes
    [[ぁ-ん]] and [[ァ-ン]]: one record for each class that has a character
    in the reading, the hiragana one first. *)
Definition class_records (reading : pystr) (percentage : pyfloat) : list Usage.t :=
  (if existsb is_hiragana reading
   then [Usage.mk (List.filter is_hiragana reading) hiragana percentage]
   else [])
  ++ (if existsb is_katakana reading
      then [Usage.mk (List.filter is_katakana reading) katakana percentage]
      else []).

(** The mixed row in the specification's words: on a page whose only row
    has a token with a character of the Hiragana block and a character of
    the Katakana block, and a percentage other than zero, the extractor
    returns exactly two records, one of each script, with that
    percentage. *)
Definition mixed_token_yields_two (row : node) : Prop :=
  forall reading cell1 percentage,
    row_fields row = Some (reading, cell1) ->
    float_of_str (remove_char 37 (text cell1)) = Some percentage ->
    float_eq percentage float_zero = false ->
    existsb in_hiragana_block reading = true ->
    existsb in_katakana_block reading = true ->
    exists first second,
      extract_kanji_usage_data (Sample.page [Sample.element "table" [row]])
        = Returns [first; second] /\
      Usage.type first = hiragana /\ Usage.type second = katakana /\
      Usage.percentage first = percentage /\
      Usage.percentage second = percentage.

(** ** Further notions used in the properties *)

(** The character class of a script. *)
Definition script_class (s : script) : N -> bool :=
  match s with
  | hiragana => is_hiragana
  | katakana => is_katakana
  end.

(** The elements of a list in the order of their first occurrence. *)
Fixpoint first_occurrences (l : list pystr) : list pystr :=
  match l with
  | [] => []
  | x :: l' => x :: filter (fun y => y <> x) (first_occurrences l')
  end.

(** The readings of the entries that [extract_reading_type] goes through,
    in the order of the list. *)
Definition entry_readings (readings_div : node) (reading_type : pystr) : list pystr :=
  (omap entry_of_item (reading_items readings_div reading_type)).*1.

(** ** The rest of [main.py] *)

(** [collect f l] runs [f] on the elements of [l] in order and stops at the
    first that raises. *)
Fixpoint collect {A B} (f : A -> outcome B) (l : list A) : outcome (list B) :=
  match l with
  | [] => Returns []
  | x :: l' =>
      y ← f x;
      ys ← collect f l';
      Returns (y :: ys)
  end.

(** [row[0]], which raises [IndexError] on an empty row. *)
Definition first_column (row : list pystr) : outcome pystr :=
  match row with
  | cell :: _ => Returns cell
  | [] => Raises (LibraryError "IndexError")
  end.

(** [load_kanji_list].  [file] is [None] when opening the file raises
    [FileNotFoundError]; otherwise it holds the rows that [csv.reader]
    yields for the file, a blank line being an empty row. *)
Definition load_kanji_list (file : option (list (list pystr)))
    : outcome (option (list pystr)) :=
  match file with
  | Some rows =>
      kanjis ← collect first_column rows;
      Returns (Some kanjis)
  | None => Returns None
  end.

(** The first part of [main]: [fetch_kanji_data] mapped over the list of
    kanji, the null results left out.  [fetched] pairs every kanji of the
    list with what [fetch_html_content] returned for it.  The results of
    [executor.map] are taken in the order of the list, and the first call
    in that order that raised raises there. *)
Definition collect_kanji_data (fetched : list (pystr * option node))
    : outcome (list kanji_result) :=
  kanji_data ← collect (fun item : pystr * option node =>
                          fetch_kanji_data item.1 item.2) fetched;
  Returns (omap id (kanji_data : list (option kanji_result))).

(** The second part of [main]: how the readings of one category are
    rendered into a field of the note. *)
Definition is_muted (details : Details.t) : bool :=
  float_lt (Details.percentage details) (float_of_Z 1).

Definition gray_line (reading meaning : pystr) : pystr :=
  str "<span style='color: gray;'>" ++ reading
  ++ str "</span> <span style='font-size: 60%;'>" ++ meaning ++ str "</span>".

Definition plain_line (reading meaning : pystr) : pystr :=
  reading ++ str " <span style='font-size: 60%;'>" ++ meaning ++ str "</span>".

Definition reading_line (item : pystr * Details.t) : pystr :=
  let '(reading, details) := item in
  let meaning := Details.meaning details in
  if is_muted details then gray_line reading meaning
  else plain_line reading meaning.

(** ["<br>".join(...)] of the lines of a category. *)
Definition reading_field (readings : dict Details.t) : pystr :=
  join (str "<br>") (reading_line <$> readings).

(** Whether the pipeline has a result for a fetched page. *)
Definition has_reading_section (page : option node) : bool :=
  match page with
  | Some soup =>
      match select_one readings_div_selector soup with
      | Some _ => true
      | None => false
      end
  | None => false
  end.

(** A page with a table inside a cell of another table. *)
Definition nested_tables_page : node :=
  Sample.page
    [ Sample.element "table"
        [ Sample.element "tr"
            [ Sample.element "td"
                [ Sample.element "table" [Sample.mixed_row] ] ] ] ].

(** ** More sample pages *)

(** あ at 3%, ア at 7%, あ at 12%: a reading that two rows have, the
    smaller share first. *)
Definition repeated_reading_page : node :=
  Sample.page
    [ Sample.element "table"
        [ Sample.usage_row [12354] "3%"; Sample.usage_row [12450] "7%";
          Sample.usage_row [12354] "12%" ] ].

(** あ at 5%, い at 12%, う at 5%, え at 12%: two shares, each of two
    rows. *)
Definition tied_shares_page : node :=
  Sample.page
    [ Sample.element "table"
        [ Sample.usage_row [12354] "5%"; Sample.usage_row [12356] "12%";
          Sample.usage_row [12358] "5%"; Sample.usage_row [12360] "12%" ] ].
(** * Properties *)

(** ** The order on floats *)

Ltac compare_cases :=
  repeat match goal with
  | H : context [(?a ?= ?b)%Z] |- _ => destruct (Z.compare_spec a b)
  | |- context [(?a ?= ?b)%Z] => destruct (Z.compare_spec a b)
  | H : context [Pos.compare_cont Eq ?a ?b] |- _ =>
      change (Pos.compare_cont Eq a b) with (Pos.compare a b) in *;
      destruct (Pos.compare_spec a b)
  | |- context [Pos.compare_cont Eq ?a ?b] =>
      change (Pos.compare_cont Eq a b) with (Pos.compare a b) in *;
      destruct (Pos.compare_spec a b)
  end.

Ltac float_order :=
  unfold float_lt, float_eq, float_ge, SFltb, SFeqb, SFleb, SFcompare,
    is_number in *;
  repeat match goal with
  | x : pyfloat |- _ => destruct x
  | s : bool |- _ => destruct s
  end;
  simpl in *; try done; compare_cases; simpl in *; try done; try lia.

Lemma float_lt_asym a b : float_lt a b = true -> float_lt b a = false.
Proof. float_order. Qed.

(** [a <= b] and [b <= c] give [a <= c], when [b] is a number. *)
Lemma float_lt_negtrans a b c :
  is_number b = true ->
  float_lt b a = false -> float_lt c b = false -> float_lt c a = false.
Proof. float_order. Qed.

Lemma float_lt_trans a b c :
  float_lt a b = true -> float_lt b c = true -> float_lt a c = true.
Proof. float_order. Qed.

Lemma float_ge_of_not_lt a b :
  is_number a = true -> is_number b = true ->
  float_lt a b = false -> float_ge a b = true.
Proof. float_order. Qed.

Lemma float_eq_not_lt a b p :
  float_eq a p = true -> float_eq b p = true -> float_lt b a = false.
Proof. float_order. Qed.

(** ** The sort *)

Lemma StronglySorted_rev {A} (R : relation A) (l : list A) :
  StronglySorted R l -> StronglySorted (flip R) (rev l).
Proof.
  induction 1 as [|x l Hl IH Hx]; simpl; [constructor|].
  apply StronglySorted_app_2; [|done|repeat constructor].
  intros y z Hy Hz. apply list_elem_of_singleton in Hz as ->.
  rewrite Forall_forall in Hx. apply Hx.
  apply list_elem_of_In, in_rev, list_elem_of_In in Hy. done.
Qed.

Section SortedFacts.
Context {A : Type} (key : A -> pyfloat).

Lemma insert_sorted_perm x l : insert_sorted key x l ≡ₚ x :: l.
Proof.
  induction l as [|y l IH]; simpl; [done|].
  destruct (float_lt (key y) (key x)); [|done].
  rewrite IH. apply Permutation_swap.
Qed.

Lemma sort_ascending_perm l : sort_ascending key l ≡ₚ l.
Proof.
  induction l as [|x l IH]; simpl; [done|].
  by rewrite insert_sorted_perm, IH.
Qed.

(** *** The sort keeps the elements

    This holds whatever the keys are: each step of [list_sort] cuts lists
    and puts the pieces together again. *)

Lemma binary_insert_perm (a : list A) pivot : binary_insert key a pivot ≡ₚ pivot :: a.
Proof.
  unfold binary_insert. generalize (bisect (length a) (fun p => negb (lt_item key pivot a p)) 0 (length a)).
  intros l. rewrite <- (take_drop l a) at 3. solve_Permutation.
Qed.

Lemma binarysort_perm (rest : list A) : forall found,
  binarysort key found rest ≡ₚ found ++ rest.
Proof.
  unfold binarysort.
  induction rest as [|x rest IH]; intros found; simpl.
  { by rewrite app_nil_r. }
  rewrite IH, binary_insert_perm. solve_Permutation.
Qed.

Lemma unsnoc_Some (l l' : list A) x : unsnoc l = Some (l', x) -> l = l' ++ [x].
Proof.
  unfold unsnoc. destruct (rev l) as [|y r] eqn:Hr; [done|].
  intros [= <- <-]. by rewrite <- (rev_involutive l), Hr.
Qed.

Lemma unsnoc_None (l : list A) : unsnoc l = None -> l = [].
Proof.
  unfold unsnoc. destruct (rev l) as [|y r] eqn:Hr; [|done].
  intros _. by rewrite <- (rev_involutive l), Hr.
Qed.

Ltac merge_cases :=
  repeat first [case_bool_decide | case_match]; simplify_eq.

Lemma merge_lo_loop_perm fuel : forall m min_gallop (out a b : list A),
  (merge_lo_loop key fuel m min_gallop out a b).1 ≡ₚ out ++ a ++ b.
Proof.
  induction fuel as [|fuel IH]; intros m min_gallop out a b; [by destruct a, b|].
  destruct a as [|x a'], b as [|y b']; try done.
  cbn [merge_lo_loop]. destruct m as [acount bcount|].
  - merge_cases; rewrite ?IH; simpl; solve_Permutation.
  - generalize (gallop_right key y (x :: a') 0). intros k.
    trans (out ++ (take k (x :: a') ++ drop k (x :: a')) ++ y :: b');
      [|by rewrite take_drop].
    generalize (take k (x :: a')) (drop k (x :: a')). intros t d.
    cbv zeta.
    destruct (negb (k =? 0)%nat && bool_decide (length d = 1%nat)); [simpl; solve_Permutation|].
    destruct (negb (k =? 0)%nat && bool_decide (d = [])) eqn:Hd.
    { apply andb_prop in Hd as [_ ->%bool_decide_eq_true]. simpl. solve_Permutation. }
    clear Hd. case_bool_decide; simplify_eq; [simpl; solve_Permutation|].
    destruct d as [|x' d']; [simpl; solve_Permutation|].
    generalize (gallop_left key x' b' 0). intros k'.
    trans (out ++ (t ++ x' :: d') ++ y :: take k' b' ++ drop k' b');
      [|by rewrite take_drop].
    generalize (take k' b') (drop k' b'). intros t' d''.
    destruct (negb (k' =? 0)%nat && bool_decide (d'' = [])) eqn:Hd'.
    { apply andb_prop in Hd' as [_ ->%bool_decide_eq_true]. simpl. solve_Permutation. }
    clear Hd'.
    merge_cases; rewrite ?IH; simpl; solve_Permutation.
Qed.

Lemma merge_lo_perm (a b : list A) min_gallop :
  (merge_lo key a b min_gallop).1 ≡ₚ a ++ b.
Proof.
  unfold merge_lo. destruct b as [|y b']; simpl; [by rewrite app_nil_r|].
  merge_cases; rewrite ?merge_lo_loop_perm; simpl; solve_Permutation.
Qed.

Lemma merge_hi_loop_perm fuel : forall m min_gallop (a b out : list A),
  (merge_hi_loop key fuel m min_gallop a b out).1 ≡ₚ a ++ b ++ out.
Proof.
  induction fuel as [|fuel IH]; intros m min_gallop a b out; [done|].
  cbn [merge_hi_loop].
  destruct (unsnoc a) as [[a' x]|] eqn:Ha; [|done].
  destruct (unsnoc b) as [[b' y]|] eqn:Hb; [|done].
  apply unsnoc_Some in Hb as ->.
  destruct m as [acount bcount|].
  - apply unsnoc_Some in Ha as ->.
    merge_cases; rewrite ?IH; simpl; solve_Permutation.
  - clear Ha a' x.
    generalize (gallop_right key y a (length a - 1)). intros k.
    trans ((take k a ++ drop k a) ++ (b' ++ [y]) ++ out); [|by rewrite take_drop].
    generalize (length a - k)%nat. intros acount.
    generalize (take k a) (drop k a). clear a. intros a d.
    cbv zeta.
    destruct (negb (acount =? 0)%nat && bool_decide (a = [])) eqn:Hd.
    { apply andb_prop in Hd as [_ ->%bool_decide_eq_true]. simpl. solve_Permutation. }
    clear Hd. case_bool_decide; [simpl; solve_Permutation|].
    destruct (unsnoc a) as [[a' x]|] eqn:Ha.
    2:{ apply unsnoc_None in Ha as ->. simpl. solve_Permutation. }
    apply unsnoc_Some in Ha as ->.
    generalize (gallop_left key x b' (length b' - 1)). intros k'.
    trans (((a' ++ [x]) ++ d) ++ ((take k' b' ++ drop k' b') ++ [y]) ++ out);
      [|by rewrite take_drop].
    generalize (length b' - k')%nat. intros bcount.
    generalize (take k' b') (drop k' b'). intros b d'.
    destruct (negb (bcount =? 0)%nat && bool_decide (length b = 1%nat));
      [simpl; solve_Permutation|].
    destruct (negb (bcount =? 0)%nat && bool_decide (b = [])) eqn:Hd'.
    { apply andb_prop in Hd' as [_ ->%bool_decide_eq_true]. simpl. solve_Permutation. }
    clear Hd'.
    merge_cases; rewrite ?IH; simpl; solve_Permutation.
Qed.

Lemma merge_hi_perm (a b : list A) min_gallop :
  (merge_hi key a b min_gallop).1 ≡ₚ a ++ b.
Proof.
  unfold merge_hi. destruct (unsnoc a) as [[a' x]|] eqn:Ha.
  - apply unsnoc_Some in Ha as ->.
    merge_cases; rewrite ?merge_hi_loop_perm; simpl; solve_Permutation.
  - by apply unsnoc_None in Ha as ->.
Qed.

Lemma merge_at_perm (a b : list A) min_gallop :
  (merge_at key a b min_gallop).1 ≡ₚ a ++ b.
Proof.
  unfold merge_at. destruct b as [|y b']; [by rewrite app_nil_r|].
  generalize (gallop_right key y a 0). intros k.
  destruct (unsnoc (drop k a)) as [[a' x]|]; [|done].
  generalize (gallop_left key x (y :: b') (length (y :: b') - 1)). intros nb.
  generalize (y :: b'). clear y b'. intros b.
  destruct (nb =? 0)%nat; [done|].
  destruct (length (drop k a) <=? length (take nb b))%nat.
  - pose proof (merge_lo_perm (drop k a) (take nb b) min_gallop) as Hm.
    destruct (merge_lo key (drop k a) (take nb b) min_gallop) as [merged mg].
    simpl in *. rewrite Hm.
    rewrite <- (take_drop k a) at 3. rewrite <- (take_drop nb b) at 3.
    solve_Permutation.
  - pose proof (merge_hi_perm (drop k a) (take nb b) min_gallop) as Hm.
    destruct (merge_hi key (drop k a) (take nb b) min_gallop) as [merged mg].
    simpl in *. rewrite Hm.
    rewrite <- (take_drop k a) at 3. rewrite <- (take_drop nb b) at 3.
    solve_Permutation.
Qed.

Lemma pending_items_cons r (pending : list (run (A:=A))) :
  pending_items (r :: pending) = pending_items pending ++ items r.
Proof.
  unfold pending_items. simpl. rewrite fmap_app, concat_app. simpl.
  by rewrite app_nil_r.
Qed.

Lemma merge_greater_powers_perm new_power (below : list run) :
  forall top min_gallop,
  pending_items (merge_greater_powers key new_power top below min_gallop).1
  ≡ₚ pending_items (top :: below).
Proof.
  induction below as [|second below IH]; intros top min_gallop; simpl.
  { by rewrite !pending_items_cons. }
  destruct (new_power <? power second)%nat; [|simpl; by rewrite !pending_items_cons].
  pose proof (merge_at_perm (items second) (items top) min_gallop) as Hm.
  destruct (merge_at key (items second) (items top) min_gallop) as [merged mg].
  rewrite IH, !pending_items_cons. simpl in *. rewrite Hm. solve_Permutation.
Qed.

Lemma found_new_run_perm (pending : list run) n2 listlen min_gallop :
  pending_items (found_new_run key pending n2 listlen min_gallop).1
  ≡ₚ pending_items pending.
Proof.
  destruct pending as [|top below]; [done|]. apply merge_greater_powers_perm.
Qed.

Lemma merge_force_collapse_perm fuel : forall (pending : list run) min_gallop,
  pending_items (merge_force_collapse key fuel pending min_gallop).1
  ≡ₚ pending_items pending.
Proof.
  induction fuel as [|fuel IH]; intros pending min_gallop; [done|].
  destruct pending as [|top [|second below]]; [done..|].
  cbn [merge_force_collapse].
  assert (pending_items
            (let '(merged, min_gallop) :=
               merge_at key (items second) (items top) min_gallop in
             merge_force_collapse key fuel
               ({| base := base second; items := merged; power := power second |}
                  :: below) min_gallop).1
          ≡ₚ pending_items (top :: second :: below)) as Htop.
  { pose proof (merge_at_perm (items second) (items top) min_gallop) as Hm.
    destruct (merge_at key (items second) (items top) min_gallop) as [merged mg].
    rewrite IH, !pending_items_cons. simpl in *. rewrite Hm. solve_Permutation. }
  destruct below as [|third below]; [done|].
  destruct (length (items third) <? length (items top))%nat; [|done].
  pose proof (merge_at_perm (items third) (items second) min_gallop) as Hm.
  destruct (merge_at key (items third) (items second) min_gallop) as [merged mg].
  rewrite IH, !pending_items_cons. simpl in *. rewrite Hm. solve_Permutation.
Qed.

Lemma run_length_le descending (l : list A) : forall previous,
  (run_length key descending previous l <= length l)%nat.
Proof.
  induction l as [|x l IH]; intros previous; simpl; [done|].
  destruct (Bool.eqb _ _); [|lia]. specialize (IH x). lia.
Qed.

Lemma count_run_bounds x (l : list A) :
  (0 < (count_run key (x :: l)).1 <= length (x :: l))%nat.
Proof.
  destruct l as [|y l]; simpl; [lia|].
  pose proof (run_length_le (key_lt key y x) l y). lia.
Qed.

Lemma find_runs_perm fuel minrun listlen : forall lo (rest : list A) pending min_gallop,
  (length rest <= fuel)%nat ->
  pending_items (find_runs key fuel minrun listlen lo rest pending min_gallop).1
  ≡ₚ pending_items pending ++ rest.
Proof.
  induction fuel as [|fuel IH]; intros lo rest pending min_gallop Hfuel.
  { destruct rest; [|simpl in Hfuel; lia]. simpl. by rewrite app_nil_r. }
  destruct rest as [|x rest']; [simpl; by rewrite app_nil_r|].
  cbn [find_runs]. pose proof (count_run_bounds x rest') as Hn.
  revert Hn Hfuel. generalize (x :: rest'). clear x rest'. intros rest.
  destruct (count_run key rest) as [n descending]. simpl. intros Hn Hfuel.
  set (force := if (n <? minrun)%nat then (minrun `min` length rest)%nat else n).
  assert (n <= force <= length rest)%nat as Hforce.
  { unfold force. destruct (n <? minrun)%nat eqn:Hlt; [|lia].
    apply Nat.ltb_lt in Hlt. lia. }
  pose proof (found_new_run_perm pending force listlen min_gallop) as Hp.
  destruct (found_new_run key pending force listlen min_gallop) as [pending' mg].
  rewrite IH by (rewrite length_drop; lia).
  rewrite pending_items_cons. simpl in *. rewrite Hp, binarysort_perm.
  assert ((if descending then rev (take n rest) else take n rest) ≡ₚ take n rest) as ->.
  { destruct descending; [|done]. symmetry. apply Permutation_rev. }
  rewrite <- (take_drop force rest) at 4.
  replace force with (n + (force - n))%nat at 3 by lia.
  rewrite <- take_take_drop. solve_Permutation.
Qed.

Lemma list_sort_perm (l : list A) : list_sort key l ≡ₚ l.
Proof.
  unfold list_sort. destruct (length l <? 2)%nat; [done|].
  pose proof (find_runs_perm (length l) (merge_compute_minrun (length l) (length l) 0)
                (length l) 0%nat l [] MIN_GALLOP (le_n _)) as Hr.
  destruct (find_runs _ _ _ _ _ _ _ _) as [pending mg].
  pose proof (merge_force_collapse_perm (length pending) pending mg) as Hc.
  destruct (merge_force_collapse _ _ _ _) as [pending' mg'].
  simpl in *. by rewrite Hc, Hr.
Qed.

Lemma insert_sorted_ascending x l :
  is_number (key x) = true ->
  Forall (fun y => is_number (key y) = true) l ->
  StronglySorted (ascending key) l ->
  StronglySorted (ascending key) (insert_sorted key x l).
Proof.
  intros Hx Hnum Hl.
  induction Hl as [|y l Hl IH Hy]; simpl; [repeat constructor|].
  apply Forall_cons in Hnum as [Hny Hnum].
  destruct (float_lt (key y) (key x)) eqn:Hlt.
  - constructor; [by apply IH|].
    rewrite insert_sorted_perm. constructor; [|done].
    by apply float_lt_asym.
  - constructor; [by constructor|].
    constructor; [done|].
    eapply Forall_impl; [exact Hy|]. intros z Hz.
    unfold ascending in *. by apply float_lt_negtrans with (key y).
Qed.

Lemma sort_ascending_ascending l :
  Forall (fun y => is_number (key y) = true) l ->
  StronglySorted (ascending key) (sort_ascending key l).
Proof.
  induction 1 as [|x l Hx Hl IH]; simpl; [constructor|].
  apply insert_sorted_ascending; [done| |done].
  by rewrite sort_ascending_perm.
Qed.

(** Stability: elements that the sort cannot tell apart keep their
    order.  [P] selects elements no two of which are ordered by [<]. *)
Lemma filter_insert_sorted (P : A -> bool) x l :
  (forall y, y ∈ l -> P x = true -> P y = true ->
             float_lt (key y) (key x) = false) ->
  List.filter P (insert_sorted key x l) = List.filter P (x :: l).
Proof.
  induction l as [|y l IH]; intros Hxy; [done|].
  simpl. destruct (float_lt (key y) (key x)) eqn:Hlt; [|done].
  simpl. rewrite IH by (intros z Hz; apply Hxy; by right).
  simpl. destruct (P x) eqn:Hx, (P y) eqn:Hy; try done.
  rewrite Hxy in Hlt; [done|by left|done|done].
Qed.

Lemma filter_sort_ascending (P : A -> bool) l :
  (forall x y, x ∈ l -> y ∈ l -> P x = true -> P y = true ->
               float_lt (key y) (key x) = false) ->
  List.filter P (sort_ascending key l) = List.filter P l.
Proof.
  induction l as [|x l IH]; intros Hxy; [done|].
  simpl sort_ascending. rewrite filter_insert_sorted.
  - simpl. rewrite IH; [done|].
    intros y z Hy Hz. apply Hxy; by right.
  - intros y Hy. rewrite sort_ascending_perm in Hy.
    apply Hxy; [by left|by right].
Qed.

End SortedFacts.

(** *** On keys that are numbers [list_sort] is the stable sort *)

Section ListSort.
Context {A : Type} (key : A -> pyfloat).

Local Notation "x ≺ y" := (key_lt key x y = true) (at level 70).
Local Notation "x ≼ y" := (key_lt key y x = false) (at level 70).
Local Abbreviation merge := (stable_merge key).
Local Abbreviation number := (number_key key).

Lemma lt_asym x y : x ≺ y -> x ≼ y.
Proof. apply float_lt_asym. Qed.

Lemma lt_trans x y z : x ≺ y -> y ≺ z -> x ≺ z.
Proof. apply float_lt_trans. Qed.

Lemma le_refl x : x ≼ x.
Proof. destruct (key_lt key x x) eqn:H; [|done]. by rewrite (lt_asym _ _ H) in H. Qed.

(** [x <= y] and [y <= z] give [x <= z], when [y] is a number. *)
Lemma le_trans x y z : number y -> x ≼ y -> y ≼ z -> x ≼ z.
Proof. apply float_lt_negtrans. Qed.

(** [x <= y] and [y < z] give [x < z], when [x] is a number. *)
Lemma le_lt_trans x y z : number x -> x ≼ y -> y ≺ z -> x ≺ z.
Proof.
  intros Hx Hxy Hyz. destruct (key_lt key x z) eqn:Hxz; [done|].
  by rewrite (le_trans z x y Hx Hxz Hxy) in Hyz.
Qed.

(** [x < y] and [y <= z] give [x < z], when [z] is a number. *)
Lemma lt_le_trans x y z : number z -> x ≺ y -> y ≼ z -> x ≺ z.
Proof.
  intros Hz Hxy Hyz. destruct (key_lt key x z) eqn:Hxz; [done|].
  by rewrite (le_trans y z x Hz Hyz Hxz) in Hxy.
Qed.

Lemma merge_cons x y (a b : list A) :
  merge (x :: a) (y :: b)
  = if key_lt key y x then y :: merge (x :: a) b else x :: merge a (y :: b).
Proof. done. Qed.

Lemma merge_nil_l (b : list A) : merge [] b = b.
Proof. done. Qed.

Lemma merge_nil_r (a : list A) : merge a [] = a.
Proof. by destruct a. Qed.

Lemma insert_sorted_cons x y (l : list A) :
  insert_sorted key x (y :: l)
  = if key_lt key y x then y :: insert_sorted key x l else x :: y :: l.
Proof. done. Qed.

(** Insertion into the first list of a merge. *)
Lemma insert_sorted_merge x (a : list A) : forall b,
  Forall number a ->
  insert_sorted key x (merge a b) = merge (insert_sorted key x a) b.
Proof.
  induction a as [|z a IHa]; intros b Ha.
  - induction b as [|y b IHb]; [done|].
    change (insert_sorted key x []) with [x] in *.
    change (merge [] (y :: b)) with (y :: b). change (merge [] b) with b in IHb.
    rewrite merge_cons, insert_sorted_cons.
    destruct (key_lt key y x); [|done]. by rewrite IHb.
  - apply Forall_cons in Ha as [Hz Ha].
    induction b as [|y b IHb]; [by rewrite !merge_nil_r|].
    rewrite merge_cons, (insert_sorted_cons x z).
    destruct (key_lt key y z) eqn:Hyz.
    + rewrite insert_sorted_cons, IHb, (insert_sorted_cons x z).
      destruct (key_lt key z x) eqn:Hzx.
      * rewrite merge_cons, Hyz.
        by rewrite (lt_trans y z x).
      * rewrite merge_cons. destruct (key_lt key y x); [done|].
        by rewrite merge_cons, Hyz.
    + rewrite insert_sorted_cons. destruct (key_lt key z x) eqn:Hzx.
      * by rewrite IHa, merge_cons, Hyz.
      * rewrite !merge_cons, Hyz.
        by rewrite (le_trans x z y Hz Hzx Hyz).
Qed.

(** The sort of two lists side by side is the merge of their sorts. *)
Lemma sort_ascending_app (a b : list A) :
  Forall number a ->
  sort_ascending key (a ++ b)
  = merge (sort_ascending key a) (sort_ascending key b).
Proof.
  induction 1 as [|x a Hx Ha IH]; [done|].
  simpl. rewrite IH, insert_sorted_merge; [done|].
  by rewrite sort_ascending_perm.
Qed.

Lemma sort_ascending_sorted (a : list A) :
  StronglySorted (ascending key) a -> sort_ascending key a = a.
Proof.
  induction 1 as [|x a Ha IH Hx]; [done|].
  simpl. rewrite IH. destruct a as [|y a]; [done|].
  apply Forall_inv in Hx. unfold ascending in Hx. simpl.
  by rewrite Hx.
Qed.

(** The elements at the front of the first list that are not above the
    head of the second go first. *)
Lemma merge_front_l (t d : list A) y b :
  Forall (fun x => x ≼ y) t ->
  merge (t ++ d) (y :: b) = t ++ merge d (y :: b).
Proof.
  induction 1 as [|x t Hx Ht IH]; [done|].
  simpl app. rewrite merge_cons, Hx. by rewrite IH.
Qed.

(** The elements at the front of the second list that are below the head
    of the first go first. *)
Lemma merge_front_r x (a t d : list A) :
  Forall (fun y => y ≺ x) t ->
  merge (x :: a) (t ++ d) = t ++ merge (x :: a) d.
Proof.
  induction 1 as [|y t Hy Ht IH]; [done|].
  simpl app. rewrite merge_cons, Hy. by rewrite IH.
Qed.

Lemma merge_head_r (d : list A) y b :
  match d with [] => True | x :: _ => y ≺ x end ->
  merge d (y :: b) = y :: merge d b.
Proof. destruct d as [|x d]; [done|]. intros Hy. by rewrite merge_cons, Hy. Qed.

Lemma merge_head_l x (a d : list A) :
  match d with [] => True | y :: _ => x ≼ y end ->
  merge (x :: a) d = x :: merge a d.
Proof.
  destruct d as [|y d]; [by rewrite !merge_nil_r|].
  intros Hy. by rewrite merge_cons, Hy.
Qed.

(** The elements at the back of the first list that are above all of the
    second go last. *)
Lemma merge_back_l (t d b : list A) :
  Forall (fun y => Forall (fun z => y ≺ z) d) b ->
  merge (t ++ d) b = merge t b ++ d.
Proof.
  intros Hb. destruct d as [|z d]; [by rewrite !app_nil_r|].
  revert b Hb. induction t as [|x t IHt]; intros b Hb.
  - rewrite app_nil_l.
    induction Hb as [|y b Hy Hb IHb]; [done|].
    apply Forall_inv in Hy as Hyz. rewrite merge_cons, Hyz.
    by rewrite IHb.
  - induction Hb as [|y b Hy Hb IHb]; [by rewrite !merge_nil_r|].
    rewrite <- app_comm_cons, !merge_cons. destruct (key_lt key y x).
    + rewrite <- app_comm_cons in IHb. by rewrite IHb.
    + rewrite IHt; [done|by constructor].
Qed.

(** The elements at the back of the second list that are not below any of
    the first go last. *)
Lemma merge_back_r (a b e : list A) :
  Forall (fun x => Forall (fun z => x ≼ z) e) a ->
  merge a (b ++ e) = merge a b ++ e.
Proof.
  intros Ha. revert b. induction Ha as [|x a Hx Ha IHa]; intros b; [done|].
  induction b as [|y b IHb].
  - rewrite app_nil_l, merge_nil_r.
    destruct e as [|z e]; [by rewrite merge_nil_r, app_nil_r|].
    apply Forall_inv in Hx as Hxz. rewrite merge_cons, Hxz.
    by rewrite <- (app_nil_l (z :: e)), (IHa []), merge_nil_r.
  - rewrite <- app_comm_cons, !merge_cons. destruct (key_lt key y x).
    + by rewrite IHb.
    + by rewrite app_comm_cons, (IHa (y :: b)).
Qed.

(** The searches *)

Lemma bisect_boundary (right : nat -> bool) c n : forall fuel lo hi,
  boundary right c n ->
  (lo <= c <= hi)%nat -> (hi <= n)%nat -> (hi - lo <= fuel)%nat ->
  bisect fuel right lo hi = c.
Proof.
  intros fuel lo hi (Hc & Hbelow & Habove).
  revert lo hi. induction fuel as [|fuel IH]; intros lo hi Hlo Hhi Hfuel.
  { simpl. lia. }
  cbn [bisect]. cbv zeta.
  destruct (lo <? hi)%nat eqn:Hlt; [|apply Nat.ltb_ge in Hlt; lia].
  apply Nat.ltb_lt in Hlt.
  assert (lo <= lo + (hi - lo) / 2 < hi)%nat as Hm.
  { split; [lia|]. pose proof (Nat.Div0.div_lt_upper_bound (hi - lo) 2 (hi - lo)).
    lia. }
  destruct (right (lo + (hi - lo) / 2)%nat) eqn:Hr.
  - apply IH; [|done|lia]. split; [|lia].
    destruct (decide (lo + (hi - lo) / 2 < c)%nat); [lia|].
    rewrite Habove in Hr by lia. done.
  - apply IH; [|lia|lia]. split; [lia|].
    destruct (decide (c <= lo + (hi - lo) / 2)%nat); [done|].
    rewrite Hbelow in Hr by lia. done.
Qed.

Lemma gallop_post (more : nat -> bool) maxofs : forall fuel lastofs ofs l o,
  gallop fuel more maxofs lastofs ofs = (l, o) ->
  (lastofs < ofs)%nat -> (lastofs < maxofs)%nat -> (maxofs < ofs + fuel)%nat ->
  more lastofs = true ->
  (l < o)%nat /\ (l < maxofs)%nat /\ more l = true /\
  ((maxofs <= o)%nat \/ (o < maxofs)%nat /\ more o = false).
Proof.
  induction fuel as [|fuel IH]; intros lastofs ofs l o; cbn [gallop].
  { intros [= <- <-] ? ? ? ?. split_and!; [done..|]. left. lia. }
  destruct (ofs <? maxofs)%nat eqn:Hlt; cbn [andb].
  - apply Nat.ltb_lt in Hlt. destruct (more ofs) eqn:Hmore.
    + intros Hg ? ? ? ?. apply (IH _ _ _ _ Hg); [lia|done|lia|done].
    + intros [= <- <-] ? ? ? ?. split_and!; [done..|]. by right.
  - apply Nat.ltb_ge in Hlt.
    intros [= <- <-] ? ? ? ?. split_and!; [done..|]. by left.
Qed.

(** The search to the right of [hint], and the bisection after it. *)
Lemma gallop_up (right more : nat -> bool) c n hint :
  boundary right c n -> (hint < n)%nat -> right hint = true ->
  (forall ofs, (ofs < n - hint)%nat -> more ofs = right (hint + ofs)%nat) ->
  (let '(lo, hi) :=
     let '(lastofs, ofs) := gallop (n - hint) more (n - hint) 0 1 in
     (lastofs + hint + 1, Nat.min ofs (n - hint) + hint)%nat in
   bisect n right lo hi) = c.
Proof.
  intros Hb Hhint Hr Hmore.
  destruct (gallop (n - hint) more (n - hint) 0 1) as [l o] eqn:Hg.
  apply gallop_post in Hg as (Hlo & Hl & Hml & Ho); [|lia..|].
  2:{ by rewrite Hmore, Nat.add_0_r by lia. }
  pose proof Hb as (Hc & Hbelow & Habove).
  rewrite Hmore in Hml by done.
  assert (hint + l < c)%nat.
  { destruct (decide (hint + l < c)%nat); [done|].
    rewrite Habove in Hml by lia. done. }
  apply bisect_boundary with (c := c) (n := n); [done| |lia|lia].
  split; [lia|]. destruct Ho as [Ho|[Ho Hmo]]; [lia|].
  rewrite Hmore in Hmo by done.
  destruct (decide (c <= hint + o)%nat); [lia|].
  rewrite Hbelow in Hmo by lia. done.
Qed.

(** The search to the left of [hint], and the bisection after it. *)
Lemma gallop_down (right more : nat -> bool) c n hint :
  boundary right c n -> (hint < n)%nat -> right hint = false ->
  (forall ofs, (ofs < hint + 1)%nat -> more ofs = negb (right (hint - ofs)%nat)) ->
  (let '(lo, hi) :=
     let '(lastofs, ofs) := gallop (hint + 1) more (hint + 1) 0 1 in
     (hint + 1 - Nat.min ofs (hint + 1), hint - lastofs)%nat in
   bisect n right lo hi) = c.
Proof.
  intros Hb Hhint Hr Hmore.
  destruct (gallop (hint + 1) more (hint + 1) 0 1) as [l o] eqn:Hg.
  apply gallop_post in Hg as (Hlo & Hl & Hml & Ho); [|lia..|].
  2:{ by rewrite Hmore, Nat.sub_0_r, Hr by lia. }
  pose proof Hb as (Hc & Hbelow & Habove).
  rewrite Hmore in Hml by done. apply negb_true_iff in Hml.
  assert (c <= hint - l)%nat.
  { destruct (decide (c <= hint - l)%nat); [done|].
    rewrite Hbelow in Hml by lia. done. }
  apply bisect_boundary with (c := c) (n := n); [done| |lia|lia].
  split; [|lia]. destruct Ho as [Ho|[Ho Hmo]]; [lia|].
  rewrite Hmore in Hmo by done. apply negb_false_iff in Hmo.
  destruct (decide (hint - o < c)%nat); [lia|].
  rewrite Habove in Hmo by lia. done.
Qed.

(** A property that holds of the elements of a list up to some place and of
    none after it. *)
Lemma prefix_exists (p : A -> bool) (a : list A) :
  StronglySorted (fun x x' => p x' = true -> p x = true) a ->
  exists c,
    (c <= length a)%nat /\
    Forall (fun x => p x = true) (take c a) /\
    Forall (fun x => p x = false) (drop c a).
Proof.
  induction 1 as [|x a Ha IH Hx].
  { exists 0%nat. split_and!; [done|constructor..]. }
  destruct (p x) eqn:Hpx.
  - destruct IH as (c & Hc & Ht & Hd). exists (S c).
    simpl. split_and!; [lia|constructor; [exact Hpx|exact Ht]|done].
  - exists 0%nat. split_and!; [simpl; lia|constructor|].
    simpl. constructor; [done|].
    eapply Forall_impl; [exact Hx|]. simpl. intros y Hy.
    destruct (p y); [by specialize (Hy eq_refl)|done].
Qed.

Lemma prefix_boundary (p : A -> bool) (a : list A) c (found : nat -> bool) :
  (c <= length a)%nat ->
  Forall (fun x => p x = true) (take c a) ->
  Forall (fun x => p x = false) (drop c a) ->
  (forall m x, a !! m = Some x -> found m = p x) ->
  boundary found c (length a).
Proof.
  intros Hc Ht Hd Hfound. split_and!; [done| |].
  - intros m Hm. destruct (lookup_lt_is_Some_2 a m) as [x Hx]; [lia|].
    rewrite (Hfound _ _ Hx). rewrite Forall_forall in Ht. apply Ht.
    apply list_elem_of_lookup. exists m. by rewrite lookup_take_lt.
  - intros m Hm. destruct (lookup_lt_is_Some_2 a m) as [x Hx]; [lia|].
    rewrite (Hfound _ _ Hx). rewrite Forall_forall in Hd. apply Hd.
    apply list_elem_of_lookup. exists (m - c)%nat. rewrite lookup_drop.
    by replace (c + (m - c))%nat with m by lia.
Qed.

(** [gallop_left] finds the place of the first element that is not below
    the key. *)
Lemma gallop_left_spec k (a : list A) hint :
  StronglySorted (ascending key) a -> Forall number a -> (hint < length a)%nat ->
  Forall (fun x => x ≺ k) (take (gallop_left key k a hint) a) /\
  Forall (fun x => k ≼ x) (drop (gallop_left key k a hint) a).
Proof.
  intros Ha Hnum Hhint.
  destruct (prefix_exists (fun x => key_lt key x k) a) as (c & Hc & Ht & Hd).
  { clear Hhint. induction Ha as [|x a Ha IH Hx]; [constructor|].
    apply Forall_cons in Hnum as [Hnx Hnum].
    constructor; [by apply IH|].
    rewrite Forall_forall in Hx, Hnum |- *. intros y Hy Hyk.
    apply (le_lt_trans x y k); [done|by apply Hx|done]. }
  assert (boundary (fun m => item_lt key a m k) c (length a)) as Hb.
  { apply (prefix_boundary (fun x => key_lt key x k)); try done.
    intros m x Hx. unfold item_lt. by rewrite Hx. }
  assert (gallop_left key k a hint = c) as ->; [|done].
  unfold gallop_left. destruct (item_lt key a hint k) eqn:Hr.
  - by apply gallop_up.
  - by apply gallop_down.
Qed.

(** [gallop_right] finds the place of the first element that is above the
    key. *)
Lemma gallop_right_spec k (a : list A) hint :
  StronglySorted (ascending key) a -> Forall number a -> (hint < length a)%nat ->
  Forall (fun x => x ≼ k) (take (gallop_right key k a hint) a) /\
  Forall (fun x => k ≺ x) (drop (gallop_right key k a hint) a).
Proof.
  intros Ha Hnum Hhint.
  destruct (prefix_exists (fun x => negb (key_lt key k x)) a) as (c & Hc & Ht & Hd).
  { clear Hhint. induction Ha as [|x a Ha IH Hx]; [constructor|].
    apply Forall_cons in Hnum as [Hnx Hnum].
    constructor; [by apply IH|].
    rewrite Forall_forall in Hx, Hnum |- *. intros y Hy Hyk.
    apply negb_true_iff in Hyk. apply negb_true_iff.
    destruct (key_lt key k x) eqn:Hkx; [|done].
    rewrite (lt_le_trans k x y) in Hyk; [done|by apply Hnum|done|by apply Hx]. }
  assert (boundary (fun m => negb (lt_item key k a m)) c (length a)) as Hb.
  { apply (prefix_boundary (fun x => negb (key_lt key k x))); try done.
    intros m x Hx. unfold lt_item. by rewrite Hx. }
  assert (gallop_right key k a hint = c) as ->.
  { unfold gallop_right. destruct (lt_item key k a hint) eqn:Hr.
    - apply gallop_down; [done..|by rewrite Hr|].
      intros ofs _. by rewrite negb_involutive.
    - apply gallop_up; [done..|by rewrite Hr|done]. }
  split.
  - eapply Forall_impl; [exact Ht|]. intros x. apply negb_true_iff.
  - eapply Forall_impl; [exact Hd|]. intros x. apply negb_false_iff.
Qed.

(** The merges *)

Lemma merge_lo_ready_drop (t d b : list A) :
  merge_lo_ready key (t ++ d) b -> merge_lo_ready key d b.
Proof.
  intros (Ha & Hb & Hna & Hnb & Hlast). split_and!; try done.
  - by apply StronglySorted_app_1_r in Ha.
  - by apply Forall_app in Hna as [_ ?].
  - intros z Hz. apply Hlast. by rewrite last_app, Hz.
Qed.

Lemma merge_lo_ready_tail x (a b : list A) :
  merge_lo_ready key (x :: a) b -> merge_lo_ready key a b.
Proof. apply (merge_lo_ready_drop [x]). Qed.

Lemma merge_lo_ready_drop_r (a t d : list A) :
  merge_lo_ready key a (t ++ d) -> merge_lo_ready key a d.
Proof.
  intros (Ha & Hb & Hna & Hnb & Hlast). split_and!; try done.
  - by apply StronglySorted_app_1_r in Hb.
  - by apply Forall_app in Hnb as [_ ?].
  - intros z Hz. by apply Hlast, Forall_app in Hz as [_ ?].
Qed.

Lemma merge_lo_ready_tail_r (a : list A) y b :
  merge_lo_ready key a (y :: b) -> merge_lo_ready key a b.
Proof. apply (merge_lo_ready_drop_r a [y]). Qed.

(** When one element is left of the first run, it goes last. *)
Lemma merge_lo_ready_one (a b : list A) :
  merge_lo_ready key a b -> length a = 1%nat -> merge a b = b ++ a.
Proof.
  intros (_ & _ & _ & _ & Hlast) Hlen.
  destruct a as [|z [|??]]; try done.
  rewrite <- (app_nil_r b) at 1. rewrite merge_front_r by (by apply Hlast).
  done.
Qed.

Lemma hd_drop_above y (d : list A) :
  Forall (fun x => y ≺ x) d -> match d with [] => True | x :: _ => y ≺ x end.
Proof. by destruct 1. Qed.

Lemma hd_drop_not_below x (d : list A) :
  Forall (fun y => x ≼ y) d -> match d with [] => True | y :: _ => x ≼ y end.
Proof. by destruct 1. Qed.

Lemma merge_lo_loop_merge fuel : forall m min_gallop (out a b : list A),
  merge_lo_ready key a b -> (length a + length b <= fuel)%nat ->
  (merge_lo_loop key fuel m min_gallop out a b).1 = out ++ merge a b.
Proof.
  induction fuel as [|fuel IH]; intros m min_gallop out a b Hok Hfuel.
  { destruct a, b; simpl in Hfuel; try lia. done. }
  destruct a as [|x a'], b as [|y b'];
    [simpl; by rewrite ?app_nil_r..|].
  cbn [merge_lo_loop]. destruct m as [acount bcount|].
  - (* one by one *)
    rewrite merge_cons. destruct (key_lt key y x) eqn:Hyx.
    + apply merge_lo_ready_tail_r in Hok as Hok'.
      case_bool_decide as Hb'.
      { subst b'. cbn [fst]. by rewrite merge_nil_r, <- app_assoc. }
      simpl in Hfuel.
      destruct (min_gallop <=? S bcount)%nat;
        rewrite IH by (done || simpl; lia); by rewrite <- app_assoc.
    + apply merge_lo_ready_tail in Hok as Hok'.
      case_bool_decide as Ha'.
      { cbn [fst]. rewrite (merge_lo_ready_one a' (y :: b')) by done.
        by rewrite <- !app_assoc. }
      simpl in Hfuel.
      destruct (min_gallop <=? S acount)%nat;
        rewrite IH by (done || simpl; lia); by rewrite <- app_assoc.
  - (* galloping *)
    pose proof Hok as (Ha & Hb & Hna & Hnb & Hlast).
    destruct (gallop_right_spec y (x :: a') 0 Ha Hna) as [Ht Hd]; [simpl; lia|].
    revert Ht Hd. generalize (gallop_right key y (x :: a') 0). intros k Ht Hd.
    pose proof (take_drop k (x :: a')) as Hcut.
    set (t := take k (x :: a')) in *. set (d := drop k (x :: a')) in *.
    clearbody t d. rewrite <- Hcut in Hok, Hfuel |- *. clear Hcut.
    rename Hok into Hok1.
    cbv zeta. apply merge_lo_ready_drop in Hok1 as Hok2.
    rewrite merge_front_l by done.
    destruct (negb (k =? 0)%nat && bool_decide (length d = 1%nat)) eqn:Hone.
    { apply andb_prop in Hone as [_ Hone%bool_decide_eq_true].
      cbn [fst]. rewrite (merge_lo_ready_one d (y :: b')) by done.
      by rewrite <- !app_assoc. }
    clear Hone.
    destruct (negb (k =? 0)%nat && bool_decide (d = [])) eqn:Hnil.
    { apply andb_prop in Hnil as [_ ->%bool_decide_eq_true].
      cbn [fst]. by rewrite <- !app_assoc. }
    clear Hnil.
    rewrite merge_head_r by (by apply hd_drop_above).
    apply merge_lo_ready_tail_r in Hok2 as Hok3.
    case_bool_decide as Hb'.
    { subst b'. cbn [fst]. rewrite merge_nil_r. by rewrite <- !app_assoc. }
    destruct d as [|x1 d'].
    { cbn [fst]. by rewrite <- !app_assoc. }
    pose proof Hok3 as (Ha3 & Hb3 & Hna3 & Hnb3 & Hlast3).
    destruct (gallop_left_spec x1 b' 0 Hb3 Hnb3) as [Ht' Hd'].
    { destruct b'; [done|simpl; lia]. }
    revert Ht' Hd'. generalize (gallop_left key x1 b' 0). intros k' Ht' Hd'.
    pose proof (take_drop k' b') as Hcut.
    set (t' := take k' b') in *. set (d'' := drop k' b') in *.
    clearbody t' d''. subst b'. rename Hok3 into Hok4.
    apply merge_lo_ready_drop_r in Hok4 as Hok5.
    rewrite merge_front_r by done.
    destruct (negb (k' =? 0)%nat && bool_decide (d'' = [])) eqn:Hnil'.
    { apply andb_prop in Hnil' as [_ ->%bool_decide_eq_true].
      cbn [fst]. rewrite merge_nil_r. by rewrite <- !app_assoc. }
    clear Hnil'.
    rewrite merge_head_l by (by apply hd_drop_not_below).
    apply merge_lo_ready_tail in Hok5 as Hok6.
    case_bool_decide as Hd1.
    { cbn [fst]. rewrite (merge_lo_ready_one d' d'') by done.
      by rewrite <- !app_assoc. }
    repeat (rewrite ?length_app in Hfuel; simpl in Hfuel).
    destruct ((MIN_GALLOP <=? k)%nat || (MIN_GALLOP <=? k')%nat);
      rewrite IH by (done || lia);
      by rewrite <- !app_assoc.
Qed.

Lemma merge_lo_merge (a b : list A) min_gallop :
  merge_lo_ready key a b -> merge_hi_ready key a b ->
  (merge_lo key a b min_gallop).1 = merge a b.
Proof.
  intros Hlo (_ & _ & _ & _ & Hhead). unfold merge_lo.
  destruct b as [|y b']; [by rewrite merge_nil_r|].
  rewrite merge_head_r by (by apply hd_drop_above, Hhead).
  apply merge_lo_ready_tail_r in Hlo.
  case_bool_decide as Hb'; [subst b'; by rewrite merge_nil_r|].
  case_bool_decide as Ha.
  { cbn [fst]. by rewrite (merge_lo_ready_one a b'). }
  by rewrite merge_lo_loop_merge.
Qed.

Lemma merge_hi_ready_take (t d b : list A) :
  merge_hi_ready key (t ++ d) b -> merge_hi_ready key t b.
Proof.
  intros (Ha & Hb & Hna & Hnb & Hhead). split_and!; try done.
  - by apply StronglySorted_app_1_l in Ha.
  - by apply Forall_app in Hna as [? _].
  - intros y Hy. by apply Hhead, Forall_app in Hy as [? _].
Qed.

Lemma merge_hi_ready_take_r (a t d : list A) :
  merge_hi_ready key a (t ++ d) -> merge_hi_ready key a t.
Proof.
  intros (Ha & Hb & Hna & Hnb & Hhead). split_and!; try done.
  - by apply StronglySorted_app_1_l in Hb.
  - by apply Forall_app in Hnb as [? _].
  - intros y Hy. apply Hhead. destruct t; [done|]. done.
Qed.

(** When one element is left of the second run, it goes first. *)
Lemma merge_hi_ready_one (a b : list A) :
  merge_hi_ready key a b -> length b = 1%nat -> merge a b = b ++ a.
Proof.
  intros (_ & _ & _ & _ & Hhead) Hlen.
  destruct b as [|y [|??]]; try done.
  rewrite merge_head_r by (by apply hd_drop_above, Hhead).
  by rewrite merge_nil_r.
Qed.

(** The last element of a sorted list is not below any of them. *)
Lemma sorted_last_above (l : list A) y :
  StronglySorted (ascending key) (l ++ [y]) ->
  Forall (fun x => x ≼ y) (l ++ [y]).
Proof.
  intros Hl. apply Forall_app. split.
  - apply Forall_forall. intros x Hx.
    apply (StronglySorted_app_1_elem_of _ _ _ _ _ Hl Hx). by left.
  - constructor; [apply le_refl|constructor].
Qed.

(** What is above the last of [b] is above the whole of [b]. *)
Lemma below_last (b : list A) y (d : list A) :
  StronglySorted (ascending key) (b ++ [y]) -> Forall number (b ++ [y]) ->
  Forall (fun z => y ≺ z) d ->
  Forall (fun y' => Forall (fun z => y' ≺ z) d) (b ++ [y]).
Proof.
  intros Hb Hnb Hd. apply sorted_last_above in Hb.
  rewrite Forall_forall in Hb, Hnb |- *. intros y' Hy'.
  eapply Forall_impl; [exact Hd|]. intros z Hz.
  apply (le_lt_trans y' y z); [by apply Hnb|by apply Hb|done].
Qed.

(** What is not below the last of [a] is not below any of [a]. *)
Lemma not_above_last (a : list A) x (e : list A) :
  StronglySorted (ascending key) (a ++ [x]) -> Forall number (a ++ [x]) ->
  Forall (fun z => x ≼ z) e ->
  Forall (fun x' => Forall (fun z => x' ≼ z) e) (a ++ [x]).
Proof.
  intros Ha Hna He. apply sorted_last_above in Ha as Hle.
  assert (number x) as Hx.
  { apply Forall_app in Hna as [_ Hx]. by apply Forall_inv in Hx. }
  rewrite Forall_forall in Hle |- *. intros x' Hx'.
  eapply Forall_impl; [exact He|]. intros z Hz.
  apply (le_trans x' x z); [done|by apply Hle|done].
Qed.

Lemma Forall_singleton_r (R : A -> A -> Prop) (l : list A) z :
  Forall (fun x => R x z) l -> Forall (fun x => Forall (fun z' => R x z') [z]) l.
Proof.
  intros Hl. eapply Forall_impl; [exact Hl|]. intros x Hx.
  by constructor.
Qed.

Lemma merge_hi_loop_merge fuel : forall m min_gallop (a b out : list A),
  merge_hi_ready key a b -> (1 < length b)%nat -> (length a + length b <= fuel)%nat ->
  (merge_hi_loop key fuel m min_gallop a b out).1 = merge a b ++ out.
Proof.
  induction fuel as [|fuel IH]; intros m min_gallop a b out Hok Hb1 Hfuel; [lia|].
  cbn [merge_hi_loop].
  destruct (unsnoc a) as [[a' x]|] eqn:Ha.
  2:{ apply unsnoc_None in Ha as ->. by destruct (unsnoc b) as [[??]|]. }
  destruct (unsnoc b) as [[b' y]|] eqn:Hb.
  2:{ apply unsnoc_None in Hb as ->. simpl in Hb1. lia. }
  apply unsnoc_Some in Hb as ->. apply unsnoc_Some in Ha.
  rewrite length_app in Hb1. simpl in Hb1.
  pose proof Hok as (Hsa & Hsb & Hna & Hnb & Hhead).
  destruct m as [acount bcount|].
  - (* one by one *)
    subst a. destruct (key_lt key y x) eqn:Hyx.
    + rewrite (merge_back_l a' [x])
        by (apply below_last; [done..|by constructor]).
      apply merge_hi_ready_take in Hok as Hok'.
      case_bool_decide as Ha'.
      { subst a'. cbn [fst]. by rewrite merge_nil_l, <- !app_assoc. }
      repeat (rewrite ?length_app in Hfuel; simpl in Hfuel).
      destruct (min_gallop <=? S acount)%nat;
        (rewrite IH; [by rewrite <- !app_assoc|done|rewrite length_app; simpl; lia
                     |rewrite length_app; simpl; lia]).
    + rewrite (merge_back_r _ b' [y])
        by (apply not_above_last; [done..|by constructor]).
      apply merge_hi_ready_take_r in Hok as Hok'.
      case_bool_decide as Hb'.
      { cbn [fst]. rewrite (merge_hi_ready_one _ b') by done.
        by rewrite <- !app_assoc. }
      repeat (rewrite ?length_app in Hfuel; simpl in Hfuel).
      destruct (min_gallop <=? S bcount)%nat;
        (rewrite IH; [by rewrite <- !app_assoc|done|lia
                     |rewrite length_app; simpl; lia]).
  - (* galloping *)
    assert (0 < length a)%nat as Hlen.
    { subst a. rewrite length_app. simpl. lia. }
    clear Ha a' x.
    destruct (gallop_right_spec y a (length a - 1) Hsa Hna) as [Ht Hd]; [lia|].
    revert Ht Hd. generalize (gallop_right key y a (length a - 1)). intros k Ht Hd.
    generalize (length a - k)%nat. intros acount.
    pose proof (take_drop k a) as Hcut.
    set (t := take k a) in *. set (d := drop k a) in *.
    clearbody t d. subst a. cbv zeta.
    rewrite (merge_back_l t d) by (by apply below_last).
    apply merge_hi_ready_take in Hok as Hok1.
    rewrite (merge_back_r t b' [y]) by (by apply Forall_singleton_r).
    apply merge_hi_ready_take_r in Hok1 as Hok2.
    destruct (negb (acount =? 0)%nat && bool_decide (t = [])) eqn:Hnil.
    { apply andb_prop in Hnil as [_ ->%bool_decide_eq_true].
      cbn [fst]. by rewrite merge_nil_l, <- !app_assoc. }
    clear Hnil.
    case_bool_decide as Hb'.
    { cbn [fst]. rewrite (merge_hi_ready_one t b') by done.
      by rewrite <- !app_assoc. }
    destruct (unsnoc t) as [[t' x1]|] eqn:Hun.
    2:{ apply unsnoc_None in Hun as ->. cbn [fst].
        by rewrite merge_nil_l, <- !app_assoc. }
    apply unsnoc_Some in Hun as ->.
    pose proof Hok2 as (Hsa2 & Hsb2 & Hna2 & Hnb2 & Hhead2).
    destruct (gallop_left_spec x1 b' (length b' - 1) Hsb2 Hnb2) as [Ht' Hd'];
      [lia|].
    revert Ht' Hd'. generalize (gallop_left key x1 b' (length b' - 1)).
    intros k' Ht' Hd'.
    pose proof (length_take b' k') as Hlen'.
    pose proof (take_drop k' b') as Hcut.
    set (t'' := take k' b') in *. set (d'' := drop k' b') in *.
    clearbody t'' d''. subst b'. rewrite length_app in Hlen', Hb', Hb1.
    rewrite (merge_back_r (t' ++ [x1]) t'' d'') by (by apply not_above_last).
    apply merge_hi_ready_take_r in Hok2 as Hok3.
    destruct (negb (length (t'' ++ d'') - k' =? 0)%nat
              && bool_decide (length t'' = 1%nat)) eqn:Hone.
    { apply andb_prop in Hone as [_ Hone%bool_decide_eq_true].
      cbn [fst]. rewrite (merge_hi_ready_one _ t'') by done.
      by rewrite <- !app_assoc. }
    destruct (negb (length (t'' ++ d'') - k' =? 0)%nat
              && bool_decide (t'' = [])) eqn:Hnil.
    { apply andb_prop in Hnil as [_ ->%bool_decide_eq_true].
      cbn [fst]. rewrite merge_nil_r. by rewrite <- !app_assoc. }
    rewrite (merge_back_l t' [x1]) by (by apply Forall_singleton_r).
    apply merge_hi_ready_take in Hok3 as Hok4.
    assert (1 < length t'')%nat as Hlong.
    { rewrite length_app in Hone, Hnil.
      destruct (length t'' + length d'' - k' =? 0)%nat eqn:Hzero.
      - apply Nat.eqb_eq in Hzero. lia.
      - simpl in Hone, Hnil.
        apply bool_decide_eq_false in Hone, Hnil.
        destruct t'' as [|? [|??]]; simpl in *; try done. lia. }
    clear Hone Hnil.
    case_bool_decide as Ht'nil.
    { subst t'. cbn [fst]. by rewrite merge_nil_l, <- !app_assoc. }
    repeat (rewrite ?length_app in Hfuel; simpl in Hfuel).
    destruct ((MIN_GALLOP <=? acount)%nat
              || (MIN_GALLOP <=? length (t'' ++ d'') - k')%nat);
      (rewrite IH; [by rewrite <- !app_assoc|done|done|lia]).
Qed.

Lemma merge_hi_merge (a b : list A) min_gallop :
  merge_lo_ready key a b -> merge_hi_ready key a b -> b <> [] ->
  (merge_hi key a b min_gallop).1 = merge a b.
Proof.
  intros (_ & _ & _ & _ & Hlast) Hhi Hb. unfold merge_hi.
  destruct (unsnoc a) as [[a' x]|] eqn:Ha.
  2:{ by apply unsnoc_None in Ha as ->. }
  apply unsnoc_Some in Ha as ->.
  rewrite (merge_back_l a' [x]).
  2:{ apply Forall_singleton_r, Hlast. by rewrite last_snoc. }
  apply merge_hi_ready_take in Hhi.
  case_bool_decide as Ha'; [subst a'; by rewrite merge_nil_l|].
  case_bool_decide as Hb1.
  { cbn [fst]. rewrite (merge_hi_ready_one a' b) by done.
    by rewrite <- app_assoc. }
  rewrite merge_hi_loop_merge; [done|done| |lia].
  destruct b as [|? [|??]]; simpl in *; try done; lia.
Qed.

(** [merge_at] on two sorted runs of numbers is the stable merge. *)
Lemma merge_at_merge (a b : list A) min_gallop :
  StronglySorted (ascending key) a -> StronglySorted (ascending key) b ->
  Forall number a -> Forall number b ->
  (merge_at key a b min_gallop).1 = merge a b.
Proof.
  intros Ha Hb Hna Hnb. unfold merge_at.
  destruct b as [|y b']; [by rewrite merge_nil_r|].
  destruct a as [|x a']; [by rewrite drop_nil|].
  destruct (gallop_right_spec y (x :: a') 0 Ha Hna) as [Ht Hd]; [simpl; lia|].
  revert Ht Hd. generalize (gallop_right key y (x :: a') 0). intros k Ht Hd.
  pose proof (take_drop k (x :: a')) as Hcut.
  set (t := take k (x :: a')) in *. set (d := drop k (x :: a')) in *.
  clearbody t d. rewrite <- Hcut in Ha, Hna |- *. clear Hcut x a'.
  rewrite merge_front_l by done.
  apply StronglySorted_app_1_r in Ha. apply Forall_app in Hna as [_ Hna].
  destruct (unsnoc d) as [[d' z]|] eqn:Hun.
  2:{ apply unsnoc_None in Hun as ->. cbn [fst].
      by rewrite merge_nil_l, app_nil_r. }
  apply unsnoc_Some in Hun as Hz.
  destruct (gallop_left_spec z (y :: b') (length (y :: b') - 1) Hb Hnb)
    as [Ht' Hd']; [simpl; lia|].
  revert Ht' Hd'.
  generalize (gallop_left key z (y :: b') (length (y :: b') - 1)).
  intros nb Ht' Hd'.
  destruct (nb =? 0)%nat eqn:Hnb0.
  { apply Nat.eqb_eq in Hnb0 as ->. cbn [fst]. rewrite <- app_assoc. f_equal.
    rewrite drop_0 in Hd'. subst d.
    rewrite <- (app_nil_l (y :: b')) at 2.
    rewrite (merge_back_r (d' ++ [z]) [] (y :: b')) by (by apply not_above_last).
    by rewrite merge_nil_r. }
  pose proof (take_drop nb (y :: b')) as Hcut.
  assert (take nb (y :: b') <> []) as Hne.
  { destruct nb; [done|]. done. }
  assert (head (take nb (y :: b')) = Some y) as Hhd.
  { destruct nb; [done|]. done. }
  set (b1 := take nb (y :: b')) in *. set (b2 := drop nb (y :: b')) in *.
  clearbody b1 b2. rewrite <- Hcut in Hb, Hnb |- *. clear Hcut.
  assert (merge d (b1 ++ b2) = merge d b1 ++ b2) as ->.
  { subst d. by apply merge_back_r, not_above_last. }
  assert (merge_lo_ready key d b1) as Hlo.
  { split_and!; [done| |done| |].
    - by apply StronglySorted_app_1_l in Hb.
    - by apply Forall_app in Hnb as [? _].
    - intros z'. subst d. rewrite last_snoc. by intros [= <-]. }
  assert (merge_hi_ready key d b1) as Hhi.
  { split_and!; [done| |done| |].
    - by apply StronglySorted_app_1_l in Hb.
    - by apply Forall_app in Hnb as [? _].
    - intros y'. rewrite Hhd. by intros [= <-]. }
  destruct (length d <=? length b1)%nat.
  - pose proof (merge_lo_merge d b1 min_gallop Hlo Hhi) as Hm.
    destruct (merge_lo key d b1 min_gallop) as [merged mg].
    simpl in Hm. by subst merged.
  - pose proof (merge_hi_merge d b1 min_gallop Hlo Hhi Hne) as Hm.
    destruct (merge_hi key d b1 min_gallop) as [merged mg].
    simpl in Hm. by subst merged.
Qed.

(** The runs *)

(** [binarysort] inserts as the stable merge with one element does. *)
Lemma binary_insert_merge (a : list A) pivot :
  StronglySorted (ascending key) a -> Forall number a ->
  binary_insert key a pivot = merge a [pivot].
Proof.
  intros Ha Hna. unfold binary_insert.
  destruct (prefix_exists (fun x => negb (key_lt key pivot x)) a)
    as (c & Hc & Ht & Hd).
  { clear -Ha Hna. induction Ha as [|x a Ha IH Hx]; [constructor|].
    apply Forall_cons in Hna as [Hnx Hna].
    constructor; [by apply IH|].
    rewrite Forall_forall in Hx, Hna |- *. intros y Hy Hyk.
    apply negb_true_iff in Hyk. apply negb_true_iff.
    destruct (key_lt key pivot x) eqn:Hkx; [|done].
    rewrite (lt_le_trans pivot x y) in Hyk; [done|by apply Hna|done|by apply Hx]. }
  rewrite (bisect_boundary _ c (length a)); [| |lia..].
  2:{ apply (prefix_boundary (fun x => negb (key_lt key pivot x))); try done.
      intros m x Hx. unfold lt_item. by rewrite Hx. }
  rewrite <- (take_drop c a) at 3.
  rewrite merge_front_l.
  2:{ eapply Forall_impl; [exact Ht|]. intros x. apply negb_true_iff. }
  rewrite merge_head_r, merge_nil_r; [done|].
  apply hd_drop_above.
  eapply Forall_impl; [exact Hd|]. intros x. apply negb_false_iff.
Qed.

Lemma sort_ascending_numbers (l : list A) :
  Forall number l -> Forall number (sort_ascending key l).
Proof. intros Hl. by rewrite sort_ascending_perm. Qed.

Lemma binarysort_sort (rest : list A) : forall s,
  Forall number s -> Forall number rest ->
  binarysort key (sort_ascending key s) rest = sort_ascending key (s ++ rest).
Proof.
  unfold binarysort.
  induction rest as [|x rest IH]; intros s Hs Hrest; simpl.
  { by rewrite app_nil_r. }
  apply Forall_cons in Hrest as [Hx Hrest].
  rewrite binary_insert_merge
    by (by apply sort_ascending_ascending || by apply sort_ascending_numbers).
  change [x] with (sort_ascending key [x]).
  rewrite <- sort_ascending_app by done.
  rewrite IH; [|by apply Forall_app; split; [|constructor]|done].
  by rewrite <- app_assoc.
Qed.

Lemma insert_sorted_last x (l : list A) :
  Forall (fun y => y ≺ x) l -> insert_sorted key x l = l ++ [x].
Proof.
  induction 1 as [|y l Hy Hl IH]; [done|].
  rewrite insert_sorted_cons, Hy. by rewrite IH.
Qed.

(** A list that descends strictly is sorted by turning it round. *)
Lemma sort_ascending_descending (l : list A) :
  StronglySorted (fun x y => y ≺ x) l -> sort_ascending key l = rev l.
Proof.
  induction 1 as [|x l Hl IH Hx]; [done|].
  simpl. rewrite IH. apply insert_sorted_last.
  by rewrite <- Permutation_rev.
Qed.

(** The elements that [run_length] counts, after [previous], are a chain
    for the comparison that it makes. *)
Lemma run_length_chain descending (l : list A) : forall previous,
  Sorted (fun x y => key_lt key y x = descending)
    (previous :: take (run_length key descending previous l) l).
Proof.
  induction l as [|x l IH]; intros previous; simpl.
  { by repeat constructor. }
  destruct (Bool.eqb (key_lt key x previous) descending) eqn:Heq.
  - apply eqb_prop in Heq. simpl. constructor; [apply IH|by constructor].
  - simpl. by repeat constructor.
Qed.

Lemma ascending_chain (l : list A) :
  Sorted (fun x y => key_lt key y x = false) l -> Forall number l ->
  StronglySorted (ascending key) l.
Proof.
  induction 1 as [|x l Hl IH Hx]; intros Hn; [constructor|].
  apply Forall_cons in Hn as [Hnx Hn]. specialize (IH Hn).
  constructor; [done|].
  destruct Hx as [|y l Hy]; [constructor|].
  apply StronglySorted_inv in IH as [_ Hall].
  apply Forall_cons in Hn as [Hny _].
  constructor; [done|].
  eapply Forall_impl; [exact Hall|]. intros z Hz.
  by apply (le_trans x y z).
Qed.

Lemma descending_chain (l : list A) :
  Sorted (fun x y => key_lt key y x = true) l ->
  StronglySorted (fun x y => y ≺ x) l.
Proof.
  induction 1 as [|x l Hl IH Hx]; [constructor|].
  constructor; [done|].
  destruct Hx as [|y l Hy]; [constructor|].
  apply StronglySorted_inv in IH as [_ Hall].
  constructor; [done|].
  eapply Forall_impl; [exact Hall|]. intros z Hz.
  by apply (lt_trans z y x).
Qed.

(** The run that [count_run] finds, turned round if it descends, is the
    sort of these elements. *)
Lemma count_run_sort (rest : list A) :
  Forall number rest ->
  (if (count_run key rest).2 then rev (take (count_run key rest).1 rest)
   else take (count_run key rest).1 rest)
  = sort_ascending key (take (count_run key rest).1 rest).
Proof.
  intros Hn. destruct rest as [|x [|y rest]]; [done..|].
  cbn [count_run fst snd]. cbv zeta. cbn [fst snd].
  pose proof (run_length_chain (key_lt key y x) rest y) as Hchain.
  change (take (2 + run_length key (key_lt key y x) y rest) (x :: y :: rest))
    with (x :: y :: take (run_length key (key_lt key y x) y rest) rest).
  assert (Forall number
            (x :: y :: take (run_length key (key_lt key y x) y rest) rest)) as Hn'.
  { apply Forall_cons in Hn as [Hx Hn]. apply Forall_cons in Hn as [Hy Hn].
    repeat (constructor; [done|]). by apply Forall_take. }
  revert Hchain Hn'.
  generalize (take (run_length key (key_lt key y x) y rest) rest). intros l.
  destruct (key_lt key y x) eqn:Hyx; intros Hchain Hn'.
  - symmetry. apply sort_ascending_descending, descending_chain.
    constructor; [done|by constructor].
  - symmetry. apply sort_ascending_sorted, ascending_chain; [|done].
    constructor; [done|by constructor].
Qed.

(** The stack of runs *)

Lemma merge_at_runs (second top : run) s2 s1 min_gallop :
  run_of key second s2 -> run_of key top s1 ->
  (merge_at key (items second) (items top) min_gallop).1
  = sort_ascending key (s2 ++ s1).
Proof.
  intros [H2 Hn2] [H1 Hn1]. rewrite H2, H1.
  rewrite merge_at_merge, sort_ascending_app;
    try done; by apply sort_ascending_ascending || by apply sort_ascending_numbers.
Qed.

Lemma concat_rev_cons (s : list A) segs :
  concat (rev (s :: segs)) = concat (rev segs) ++ s.
Proof. simpl. rewrite concat_app. simpl. by rewrite app_nil_r. Qed.

Lemma merge_greater_powers_runs new_power (below : list run) :
  forall top min_gallop s1 sbelow,
  Forall2 (run_of key) (top :: below) (s1 :: sbelow) ->
  exists segs,
    Forall2 (run_of key) (merge_greater_powers key new_power top below min_gallop).1 segs /\
    concat (rev segs) = concat (rev (s1 :: sbelow)).
Proof.
  induction below as [|second below IH]; intros top min_gallop s1 sbelow Hruns.
  { exists (s1 :: sbelow). split; [|done].
    apply Forall2_cons_1 in Hruns as [Htop Hbelow]. by constructor. }
  apply Forall2_cons_1 in Hruns as [Htop Hbelow].
  destruct sbelow as [|s2 sbelow]; [by apply Forall2_nil_inv_r in Hbelow|].
  apply Forall2_cons_1 in Hbelow as [Hsecond Hbelow].
  cbn [merge_greater_powers]. destruct (new_power <? power second)%nat.
  - pose proof (merge_at_runs second top s2 s1 min_gallop Hsecond Htop) as Hm.
    destruct (merge_at key (items second) (items top) min_gallop) as [merged mg].
    simpl in Hm.
    destruct (IH {| base := base second; items := merged; power := power second |}
                mg (s2 ++ s1) sbelow) as (segs & Hsegs & Hconcat).
    { constructor; [|done]. split; [done|].
      apply Forall_app. split; [apply Hsecond|apply Htop]. }
    exists segs. split; [done|].
    by rewrite Hconcat, !concat_rev_cons, app_assoc.
  - exists (s1 :: s2 :: sbelow). split; [|done].
    constructor; [done|]. by constructor.
Qed.

Lemma found_new_run_runs (pending : list run) n2 listlen min_gallop segs :
  Forall2 (run_of key) pending segs ->
  exists segs',
    Forall2 (run_of key) (found_new_run key pending n2 listlen min_gallop).1 segs' /\
    concat (rev segs') = concat (rev segs).
Proof.
  intros Hruns. destruct pending as [|top below]; [by exists segs|].
  destruct segs as [|s1 sbelow]; [by apply Forall2_nil_inv_r in Hruns|].
  by apply merge_greater_powers_runs.
Qed.

Lemma merge_force_collapse_runs fuel : forall (pending : list run) min_gallop segs,
  Forall2 (run_of key) pending segs -> (length pending <= S fuel)%nat ->
  exists segs',
    Forall2 (run_of key) (merge_force_collapse key fuel pending min_gallop).1 segs' /\
    concat (rev segs') = concat (rev segs) /\
    (length segs' <= 1)%nat.
Proof.
  induction fuel as [|fuel IH]; intros pending min_gallop segs Hruns Hlen.
  { exists segs. split_and!; [by destruct pending|done|].
    apply Forall2_length in Hruns. simpl. lia. }
  destruct pending as [|top [|second below]].
  { exists segs. split_and!; [done..|]. apply Forall2_length in Hruns.
    simpl in *. lia. }
  { exists segs. split_and!; [done..|]. apply Forall2_length in Hruns.
    simpl in *. lia. }
  apply Forall2_cons_inv_l in Hruns as (s1 & segs1 & Htop & Hruns & ->).
  apply Forall2_cons_inv_l in Hruns as (s2 & sbelow & Hsecond & Hbelow & ->).
  cbn [merge_force_collapse].
  assert (exists segs',
             Forall2 (run_of key)
               (let '(merged, min_gallop) :=
                  merge_at key (items second) (items top) min_gallop in
                merge_force_collapse key fuel
                  ({| base := base second; items := merged; power := power second |}
                     :: below) min_gallop).1 segs' /\
             concat (rev segs') = concat (rev (s1 :: s2 :: sbelow)) /\
             (length segs' <= 1)%nat) as Htopmost.
  { pose proof (merge_at_runs second top s2 s1 min_gallop Hsecond Htop) as Hm.
    destruct (merge_at key (items second) (items top) min_gallop) as [merged mg].
    simpl in Hm.
    destruct (IH ({| base := base second; items := merged; power := power second |}
                    :: below) mg ((s2 ++ s1) :: sbelow))
      as (segs' & Hsegs & Hconcat & Hone).
    { constructor; [|done]. split; [done|].
      apply Forall_app. split; [apply Hsecond|apply Htop]. }
    { simpl in *. lia. }
    exists segs'. split_and!; [done| |done].
    by rewrite Hconcat, !concat_rev_cons, app_assoc. }
  destruct below as [|third below]; [done|].
  destruct (length (items third) <? length (items top))%nat; [|done].
  apply Forall2_cons_inv_l in Hbelow as (s3 & sbelow' & Hthird & Hbelow & ->).
  pose proof (merge_at_runs third second s3 s2 min_gallop Hthird Hsecond) as Hm.
  destruct (merge_at key (items third) (items second) min_gallop) as [merged mg].
  simpl in Hm.
  destruct (IH (top :: {| base := base third; items := merged; power := power third |}
                  :: below) mg (s1 :: (s3 ++ s2) :: sbelow'))
    as (segs' & Hsegs & Hconcat & Hone).
  { constructor; [done|]. constructor; [|done]. split; [done|].
    apply Forall_app. split; [apply Hthird|apply Hsecond]. }
  { simpl in *. lia. }
  exists segs'. split_and!; [done| |done].
  by rewrite Hconcat, !concat_rev_cons, !app_assoc.
Qed.

Lemma find_runs_runs fuel minrun listlen :
  forall lo (rest : list A) pending min_gallop segs,
  Forall2 (run_of key) pending segs -> Forall number rest ->
  (length rest <= fuel)%nat ->
  exists segs',
    Forall2 (run_of key) (find_runs key fuel minrun listlen lo rest pending min_gallop).1
      segs' /\
    concat (rev segs') = concat (rev segs) ++ rest.
Proof.
  induction fuel as [|fuel IH]; intros lo rest pending min_gallop segs Hruns Hn Hfuel.
  { destruct rest; [|simpl in Hfuel; lia]. exists segs. by rewrite app_nil_r. }
  destruct rest as [|x rest']. { exists segs. by rewrite app_nil_r. }
  cbn [find_runs]. pose proof (count_run_bounds key x rest') as Hbounds.
  pose proof (count_run_sort (x :: rest') Hn) as Hsort.
  revert Hbounds Hsort Hn Hfuel. generalize (x :: rest'). clear x rest'.
  intros rest. destruct (count_run key rest) as [n descending].
  cbn [fst snd]. intros Hbounds Hsort Hn Hfuel. rewrite Hsort.
  set (force := if (n <? minrun)%nat then (minrun `min` length rest)%nat else n).
  assert (n <= force <= length rest)%nat as Hforce.
  { unfold force. destruct (n <? minrun)%nat eqn:Hlt; [|lia].
    apply Nat.ltb_lt in Hlt. lia. }
  rewrite binarysort_sort, take_take_drop
    by first [by apply Forall_take | by apply Forall_take, Forall_drop].
  replace (n + (force - n))%nat with force by lia.
  destruct (found_new_run_runs pending force listlen min_gallop segs Hruns)
    as (segs1 & Hruns1 & Hconcat1).
  destruct (found_new_run key pending force listlen min_gallop) as [pending' mg].
  destruct (IH (lo + force)%nat (drop force rest)
              ({| base := lo; items := sort_ascending key (take force rest);
                  power := 0 |} :: pending')
              mg (take force rest :: segs1))
    as (segs' & Hsegs & Hconcat).
  { constructor; [|done]. split; [done|]. by apply Forall_take. }
  { by apply Forall_drop. }
  { rewrite length_drop. lia. }
  exists segs'. split; [done|].
  by rewrite Hconcat, concat_rev_cons, Hconcat1, <- app_assoc, take_drop.
Qed.

(** On keys that are numbers [list.sort] sorts, and keeps the order of the
    elements with equal keys. *)
Theorem list_sort_numbers (l : list A) :
  Forall number l -> list_sort key l = sort_ascending key l.
Proof.
  intros Hn. unfold list_sort.
  destruct (length l <? 2)%nat eqn:Hshort.
  { apply Nat.ltb_lt in Hshort. by destruct l as [|? [|??]]; simpl in *; try lia. }
  apply Nat.ltb_ge in Hshort.
  destruct (find_runs_runs (length l) (merge_compute_minrun (length l) (length l) 0)
              (length l) 0%nat l [] MIN_GALLOP [])
    as (segs & Hruns & Hconcat); [constructor|done|done|].
  destruct (find_runs _ _ _ _ _ _ _ _) as [pending mg]. simpl in Hruns.
  destruct (merge_force_collapse_runs (length pending) pending mg segs Hruns)
    as (segs' & Hruns' & Hconcat' & Hone); [lia|].
  destruct (merge_force_collapse _ _ _ _) as [pending' mg']. simpl in Hruns'.
  rewrite Hconcat in Hconcat'. simpl in Hconcat'.
  destruct Hruns' as [|r s ? ? [Hr _] Hrest].
  { simpl in Hconcat'. subst l. simpl in Hshort. lia. }
  destruct Hrest; [|simpl in Hone; lia].
  simpl in *. rewrite app_nil_r in *. by subst s.
Qed.
End ListSort.

(** *** [sorted] *)

Section SortedOrder.
Context {A : Type} (key : A -> pyfloat).

Lemma sorted_perm reverse l : sorted key reverse l ≡ₚ l.
Proof.
  unfold sorted. destruct reverse; [|apply list_sort_perm].
  rewrite <- Permutation_rev, list_sort_perm. symmetry. apply Permutation_rev.
Qed.

(** On keys that are numbers [sorted] is the stable sort. *)
Lemma sorted_numbers reverse l :
  Forall (fun y => is_number (key y) = true) l ->
  sorted key reverse l
  = if reverse then rev (sort_ascending key (rev l)) else sort_ascending key l.
Proof.
  intros Hnum. unfold sorted.
  destruct reverse; rewrite list_sort_numbers; try done.
  by rewrite <- Permutation_rev.
Qed.

(** With [reverse=True] the result is non-increasing. *)
Lemma sorted_descending l :
  Forall (fun y => is_number (key y) = true) l ->
  StronglySorted (descending key) (sorted key true l).
Proof.
  intros Hnum. rewrite sorted_numbers by done.
  assert (Forall (fun y => is_number (key y) = true) (rev l)) as Hrev.
  { by rewrite <- Permutation_rev. }
  pose proof (StronglySorted_rev _ _ (sort_ascending_ascending key _ Hrev)) as Hs.
  assert (Forall (fun y => is_number (key y) = true)
            (rev (sort_ascending key (rev l)))) as Hall.
  { by rewrite <- Permutation_rev, sort_ascending_perm. }
  revert Hs Hall. generalize (rev (sort_ascending key (rev l))).
  induction 1 as [|x r Hr IH Hx]; intros Hall; [constructor|].
  apply Forall_cons in Hall as [Hnx Hall].
  constructor; [by apply IH|].
  rewrite Forall_forall in Hx, Hall |- *. intros y Hy.
  apply float_ge_of_not_lt; [done|by apply Hall|by apply Hx].
Qed.

Lemma filter_sorted (P : A -> bool) reverse l :
  Forall (fun y => is_number (key y) = true) l ->
  (forall x y, x ∈ l -> y ∈ l -> P x = true -> P y = true ->
               float_lt (key y) (key x) = false) ->
  List.filter P (sorted key reverse l) = List.filter P l.
Proof.
  intros Hnum Hxy. rewrite sorted_numbers by done.
  destruct reverse; [|by apply filter_sort_ascending].
  rewrite filter_rev, filter_sort_ascending, filter_rev, rev_involutive; [done|].
  intros x y Hx Hy. apply Hxy.
  - by apply list_elem_of_In, in_rev, list_elem_of_In in Hx.
  - by apply list_elem_of_In, in_rev, list_elem_of_In in Hy.
Qed.
End SortedOrder.

(** ** Dictionaries *)

Section DictFacts.
Context {V : Type}.
Implicit Types (d : dict V) (k : pystr) (v : V).

Lemma dict_set_fresh k v d :
  k ∉ dict_keys d -> dict_set k v d = d ++ [(k, v)].
Proof.
  induction d as [|[k' v'] d IH]; intros Hk; simpl; [done|].
  unfold dict_keys in *. simpl in Hk. apply not_elem_of_cons in Hk as [Hne Hk].
  destruct (decide (k' = k)); [congruence|]. by rewrite IH.
Qed.

Lemma elem_of_dict_set k v d (x : pystr * V) :
  x ∈ dict_set k v d -> x = (k, v) \/ x ∈ d.
Proof.
  induction d as [|[k' v'] d IH]; simpl.
  - intros ->%list_elem_of_singleton. by left.
  - destruct (decide (k' = k)).
    + intros [->|Hx]%elem_of_cons; [by left|right; by right].
    + intros [->|Hx]%elem_of_cons; [right; by left|].
      destruct (IH Hx); [by left|right; by right].
Qed.

Lemma dict_get_dict_set k k' v d :
  dict_get k (dict_set k' v d) = if decide (k' = k) then Some v else dict_get k d.
Proof.
  induction d as [|[k0 v0] d IH]; simpl.
  - by destruct (decide (k' = k)).
  - destruct (decide (k0 = k')) as [->|Hne]; simpl.
    + by destruct (decide (k' = k)).
    + destruct (decide (k0 = k)) as [->|Hne'].
      * by destruct (decide (k' = k)); [congruence|].
      * done.
Qed.

Lemma dict_keys_dict_set k v d :
  dict_keys (dict_set k v d) =
    if decide (k ∈ dict_keys d) then dict_keys d else dict_keys d ++ [k].
Proof.
  unfold dict_keys. induction d as [|[k' v'] d IH]; csimpl.
  - done.
  - destruct (decide (k' = k)) as [->|Hne]; csimpl.
    + destruct (decide (k ∈ k :: d.*1)) as [|H]; [done|]. destruct H. by left.
    + rewrite IH.
      destruct (decide (k ∈ d.*1)) as [Hin|Hin],
               (decide (k ∈ k' :: d.*1)) as [Hin'|Hin']; try done.
      * destruct Hin'. by right.
      * apply elem_of_cons in Hin' as [->|Hin']; done.
Qed.

Lemma dict_set_wf k v d : dict_wf d -> dict_wf (dict_set k v d).
Proof.
  unfold dict_wf. rewrite dict_keys_dict_set. intros Hd.
  destruct (decide (k ∈ dict_keys d)); [done|].
  apply NoDup_app. split_and!; [done| |apply NoDup_singleton].
  intros x Hx ->%list_elem_of_singleton. done.
Qed.

Lemma dict_get_None k d : dict_get k d = None <-> k ∉ dict_keys d.
Proof.
  unfold dict_keys. induction d as [|[k' v'] d IH]; simpl.
  - split; [intros _; apply not_elem_of_nil|done].
  - destruct (decide (k' = k)) as [->|Hne].
    + split; [done|]. intros []. by left.
    + rewrite IH, not_elem_of_cons. split; [by intros ?|by intros [_ ?]].
Qed.
End DictFacts.

(** ** The Ranker *)

Section Ranker.
Variable rp : gmap pystr pyfloat.

Lemma keep_item_elem items : forall acc x,
  x ∈ fold_left (keep_item rp) items acc ->
  x ∈ acc \/ rp !! x.1 = Some (Details.percentage x.2).
Proof.
  induction items as [|[k m] items IH]; intros acc x; simpl; [by left|].
  intros [Hx|Hx]%IH; [|by right].
  destruct (rp !! k) as [p|] eqn:Hk; [|by left].
  apply elem_of_dict_set in Hx as [->|Hx]; [by right|by left].
Qed.

Lemma keep_item_fresh items : forall acc,
  NoDup items.*1 ->
  (forall k, k ∈ items.*1 -> k ∉ dict_keys acc) ->
  fold_left (keep_item rp) items acc = acc ++ omap (rank_item rp) items.
Proof.
  induction items as [|[k m] items IH]; intros acc Hnd Hfresh; simpl.
  { by rewrite app_nil_r. }
  simpl in Hnd. apply NoDup_cons in Hnd as [Hk Hnd].
  unfold rank_item at 1. simpl. destruct (rp !! k) as [p|] eqn:Hp; simpl.
  - rewrite dict_set_fresh by (apply Hfresh; by left).
    rewrite IH; [by rewrite <- app_assoc|done|].
    intros k' Hk'. unfold dict_keys. rewrite fmap_app. simpl.
    rewrite not_elem_of_app, list_elem_of_singleton. split.
    + apply Hfresh. by right.
    + intros ->. done.
  - apply IH; [done|]. intros k' Hk'. apply Hfresh. by right.
Qed.

(** On a well-formed dictionary the result is the sorted items, those
    without a percentage left out. *)
Lemma filter_and_sort_reading_type_omap (d : dict pystr) :
  dict_wf d ->
  filter_and_sort_reading_type d rp = omap (rank_item rp) (sorted (sort_key rp) true d).
Proof.
  intros Hd. unfold filter_and_sort_reading_type.
  rewrite keep_item_fresh; [done| |].
  - unfold dict_wf, dict_keys in Hd. by rewrite sorted_perm.
  - intros k _. apply not_elem_of_nil.
Qed.

Lemma rank_item_sorted (l : list (pystr * pystr)) :
  StronglySorted (descending (sort_key rp)) l ->
  StronglySorted (descending (fun x : pystr * Details.t => Details.percentage x.2))
    (omap (rank_item rp) l).
Proof.
  induction 1 as [|[k m] l Hl IH Hx]; simpl; [constructor|].
  unfold rank_item at 1. simpl. destruct (rp !! k) as [p|] eqn:Hp; simpl; [|done].
  constructor; [done|].
  rewrite Forall_forall in Hx. apply Forall_forall. intros [k' e'] Hin.
  apply list_elem_of_omap in Hin as ([k0 m0] & Hin & Hr).
  unfold rank_item in Hr. simpl in Hr.
  destruct (rp !! k0) as [p0|] eqn:Hp0; simplify_eq/=.
  apply Hx in Hin. unfold descending, sort_key in *. simpl in *.
  by rewrite Hp, Hp0 in Hin.
Qed.

Lemma rank_item_filter p (l : list (pystr * pystr)) :
  (List.filter (fun x : pystr * Details.t => float_eq (Details.percentage x.2) p)
     (omap (rank_item rp) l)).*1
  = (List.filter (fun item => has_percentage rp p item.1) l).*1.
Proof.
  induction l as [|[k m] l IH]; [done|].
  csimpl. unfold rank_item at 1, has_percentage at 1. csimpl.
  destruct (rp !! k) as [q|] eqn:Hq; csimpl; [|done].
  destruct (float_eq q p); csimpl; by rewrite IH.
Qed.

Lemma filter_keys (P : pystr -> bool) (l : list (pystr * pystr)) :
  (List.filter (fun item => P item.1) l).*1 = List.filter P l.*1.
Proof.
  induction l as [|[k m] l IH]; [done|].
  csimpl. destruct (P k); csimpl; by rewrite IH.
Qed.
End Ranker.

(** C1.  Whatever the category mapping and the usage records, every
    reading in the output of [filter_and_sort_reading_type] is a key of the
    lookup built from the usage records and carries the percentage found
    there; a reading that the lookup does not have is not in the output. *)
Theorem ranked_readings_are_in_lookup
    (reading_type_dict : dict pystr) (kanji_usage_data : list Usage.t) :
  let lookup := reading_percentages kanji_usage_data in
  let out := filter_and_sort_reading_type reading_type_dict lookup in
  (forall reading details,
      (reading, details) ∈ out ->
      lookup !! reading = Some (Details.percentage details)) /\
  (forall reading, lookup !! reading = None -> reading ∉ dict_keys out).
Proof.
  intros lookup out. split.
  - intros reading details Hin.
    apply keep_item_elem in Hin as [Hin|Hin]; [|done].
    by apply elem_of_nil in Hin.
  - intros reading Hnone Hin.
    apply list_elem_of_fmap in Hin as ([k e] & -> & Hin).
    apply keep_item_elem in Hin as [Hin|Hin].
    + by apply elem_of_nil in Hin.
    + simpl in *. fold lookup in Hin. congruence.
Qed.

(** C2, as stated, fails.  A share that reads [nan%] is parsed to NaN,
    which is not zero, so the lookup can hold it; and NaN is ordered with
    nothing.  With あ at 1, い at NaN and う at 5 the output is in the order
    of the mapping, あ before う.  With あ, い, え, か and き at 1, う at NaN
    and お at 2 the output begins い, う, お, あ: お comes after い, and い
    comes before あ, against the order of the mapping. *)
Lemma nan_percentage_breaks_the_order :
  float_of_str (remove_char 37 (str "nan%")) = Some Sample.nan /\
  float_eq Sample.nan float_zero = false /\
  filter_and_sort_reading_type Sample.nan_dict Sample.nan_lookup
    = [ ([12354], Details.mk (str "a") (float_of_Z 1));
        ([12356], Details.mk (str "b") Sample.nan);
        ([12358], Details.mk (str "c") (float_of_Z 5)) ] /\
  float_lt (float_of_Z 1) (float_of_Z 5) = true /\
  ~ ranked_in_order Sample.nan_dict Sample.nan_lookup /\
  dict_keys (filter_and_sort_reading_type Sample.tie_dict Sample.tie_lookup)
    = [ [12356]; [12358]; [12362]; [12354]; [12360]; [12363]; [12365] ] /\
  ~ ranked_in_order Sample.tie_dict Sample.tie_lookup.
Proof.
  assert (filter_and_sort_reading_type Sample.nan_dict Sample.nan_lookup
          = [ ([12354], Details.mk (str "a") (float_of_Z 1));
              ([12356], Details.mk (str "b") Sample.nan);
              ([12358], Details.mk (str "c") (float_of_Z 5)) ]) as Hout.
  { vm_compute. reflexivity. }
  split_and!.
  - vm_compute. reflexivity.
  - vm_compute. reflexivity.
  - exact Hout.
  - vm_compute. reflexivity.
  - unfold ranked_in_order. rewrite Hout. intros [Hsorted _].
    apply StronglySorted_inv in Hsorted as [_ Hfirst].
    apply Forall_inv_tail, Forall_inv in Hfirst.
    vm_compute in Hfirst. discriminate Hfirst.
  - vm_compute. reflexivity.
  - intros [_ Hties]. specialize (Hties (float_of_Z 1)).
    vm_compute in Hties. discriminate Hties.
Qed.

(** C2, amended.  When no percentage of the lookup is NaN, the output of
    [filter_and_sort_reading_type] is non-increasing in percentage, and the
    entries of any one percentage keep the order they have in the category
    mapping.  The mapping is a dictionary. *)
Theorem ranked_readings_are_sorted_stably
    (reading_type_dict : dict pystr) (reading_percentages : gmap pystr pyfloat) :
  dict_wf reading_type_dict ->
  (forall reading p, reading_percentages !! reading = Some p -> is_number p = true) ->
  let out := filter_and_sort_reading_type reading_type_dict reading_percentages in
  StronglySorted
    (fun x y => float_ge (Details.percentage x.2) (Details.percentage y.2) = true)
    out /\
  (forall p,
      dict_keys (List.filter (fun x => float_eq (Details.percentage x.2) p) out)
      = List.filter (has_percentage reading_percentages p)
          (dict_keys reading_type_dict)).
Proof.
  intros Hwf Hnum out. unfold out.
  rewrite filter_and_sort_reading_type_omap by done.
  assert (Forall (fun y => is_number (sort_key reading_percentages y) = true)
            reading_type_dict) as Hkeys.
  { apply Forall_forall. intros [k m] _. unfold sort_key. simpl.
    destruct (reading_percentages !! k) as [p|] eqn:Hp; simpl; [by eapply Hnum|done]. }
  split.
  - apply rank_item_sorted, sorted_descending, Hkeys.
  - intros p. unfold dict_keys.
    rewrite rank_item_filter, filter_sorted, filter_keys; [done|apply Hkeys|].
    intros [k1 m1] [k2 m2] _ _. unfold has_percentage, sort_key. simpl.
    destruct (reading_percentages !! k1), (reading_percentages !! k2); try done.
    simpl. intros H1 H2. by apply float_eq_not_lt with p.
Qed.

(** ** The Usage Table Extractor *)

Lemma findall_join_filter cls reading :
  findall_join cls reading = List.filter cls reading.
Proof.
  unfold findall_join, join_empty.
  induction (List.filter cls reading) as [|c l IH]; csimpl; [done|].
  by rewrite IH.
Qed.

Lemma nonempty_filter cls (reading : pystr) :
  nonempty (List.filter cls reading) = existsb cls reading.
Proof.
  induction reading as [|c l IH]; simpl; [done|].
  destruct (cls c); simpl; done.
Qed.

Lemma usage_records_nonzero reading p :
  float_eq p float_zero = false ->
  usage_records reading p =
    (if existsb is_hiragana reading
     then [Usage.mk (List.filter is_hiragana reading) hiragana p] else [])
    ++ (if existsb is_katakana reading
        then [Usage.mk (List.filter is_katakana reading) katakana p] else []).
Proof.
  intros Hnz. unfold usage_records. rewrite Hnz. simpl.
  by rewrite !findall_join_filter, !nonempty_filter.
Qed.

Lemma usage_records_elem reading p item :
  item ∈ usage_records reading p ->
  Usage.percentage item = p /\ float_eq p float_zero = false.
Proof.
  unfold usage_records. destruct (float_eq p float_zero); simpl.
  { by intros ?%elem_of_nil. }
  intros [H|H]%elem_of_app; split; try done.
  - destruct (nonempty _); [|by apply elem_of_nil in H].
    by apply list_elem_of_singleton in H as ->.
  - destruct (nonempty _); [|by apply elem_of_nil in H].
    by apply list_elem_of_singleton in H as ->.
Qed.

Lemma row_records_elem row records item :
  row_records row = Returns records -> item ∈ records ->
  float_eq (Usage.percentage item) float_zero = false.
Proof.
  unfold row_records. intros Hrow Hin.
  destruct (row_fields row) as [[reading cell1]|].
  - destruct (float_of_str _) as [p|]; simplify_eq.
    apply usage_records_elem in Hin as [-> ?]. done.
  - simplify_eq. by apply elem_of_nil in Hin.
Qed.

Lemma row_records_raises row e : row_records row = Raises e -> e = ValueError.
Proof.
  unfold row_records. destruct (row_fields row) as [[reading cell1]|]; [|done].
  destruct (float_of_str _); congruence.
Qed.

Lemma collect_rows_elem rows : forall data item,
  collect_rows rows = Returns data -> item ∈ data ->
  exists row records,
    row ∈ rows /\ row_records row = Returns records /\ item ∈ records.
Proof.
  induction rows as [|row rows IH]; intros data item; simpl.
  { intros [= <-] Hin. by apply elem_of_nil in Hin. }
  unfold mbind, outcome_bind.
  destruct (row_records row) as [records|] eqn:Hrow; [|done].
  destruct (collect_rows rows) as [more|] eqn:Hmore; [|done].
  intros [= <-] [Hin|Hin]%elem_of_app.
  - exists row, records. split_and!; [by left|done|done].
  - destruct (IH more item eq_refl Hin) as (row' & records' & ? & ? & ?).
    exists row', records'. split_and!; [by right|done|done].
Qed.

Lemma collect_rows_raises rows row :
  row ∈ rows -> row_records row = Raises ValueError ->
  collect_rows rows = Raises ValueError.
Proof.
  induction rows as [|row' rows IH]; intros Hin Hrow.
  { by apply elem_of_nil in Hin. }
  simpl. unfold mbind, outcome_bind.
  destruct (row_records row') as [records|e] eqn:Hrow'.
  - apply elem_of_cons in Hin as [->|Hin]; [congruence|].
    by rewrite IH.
  - by apply row_records_raises in Hrow' as ->.
Qed.

Lemma elem_of_table_rows soup table row :
  table ∈ find_all (tag_is "table") soup ->
  row ∈ find_all (tag_is "tr") table ->
  row ∈ table_rows soup.
Proof.
  intros Ht Hr. unfold table_rows.
  apply list_elem_of_In, in_flat_map. exists table.
  split; by apply list_elem_of_In.
Qed.

(** C3, as stated, fails: a share of -5% is not zero, so its record is
    emitted, with a negative percentage. *)
Lemma negative_percentage_is_emitted :
  extract_kanji_usage_data Sample.negative_page
    = Returns [Usage.mk [12354] hiragana (float_of_Z (-5))] /\
  float_lt (float_of_Z (-5)) float_zero = true /\
  ~ emits_only_positive Sample.negative_page.
Proof.
  split_and!; [by vm_compute..|].
  intros H.
  specialize (H [Usage.mk [12354] hiragana (float_of_Z (-5))]
                (Usage.mk [12354] hiragana (float_of_Z (-5)))).
  vm_compute in H. specialize (H eq_refl (list_elem_of_here _ _)). discriminate H.
Qed.

(** C3, amended.  Every record that [extract_kanji_usage_data] emits has a
    percentage different from zero. *)
Theorem emitted_percentages_are_nonzero soup kanji_data item :
  extract_kanji_usage_data soup = Returns kanji_data ->
  item ∈ kanji_data ->
  float_eq (Usage.percentage item) float_zero = false.
Proof.
  unfold extract_kanji_usage_data, mbind, outcome_bind.
  destruct (collect_rows (table_rows soup)) as [collected|] eqn:Hc; [|done].
  intros [= <-] Hin.
  rewrite (sorted_perm Usage.percentage true collected) in Hin.
  destruct (collect_rows_elem _ _ _ Hc Hin) as (row & records & _ & Hrow & Hitem).
  by eapply row_records_elem.
Qed.

Lemma emitted_percentages_are_nonzero_witness :
  float_eq (float_of_Z (-5)) float_zero = false.
Proof.
  apply (emitted_percentages_are_nonzero Sample.negative_page
           [Usage.mk [12354] hiragana (float_of_Z (-5))]
           (Usage.mk [12354] hiragana (float_of_Z (-5)))).
  - vm_compute. reflexivity.
  - apply list_elem_of_here.
Defined.

(** C5, as stated, fails: the long vowel mark of カー is in the Katakana
    block but outside [[ァ-ン]], so the record reads カ. *)
Lemma long_vowel_mark_is_dropped :
  row_records Sample.long_vowel_row
    = Returns [Usage.mk [12459] katakana (float_of_Z 50)] /\
  block_records [12459; 12540] (float_of_Z 50)
    = [Usage.mk [12459; 12540] katakana (float_of_Z 50)] /\
  extract_kanji_usage_data Sample.long_vowel_page
    = Returns [Usage.mk [12459] katakana (float_of_Z 50)] /\
  ~ partitions_by_block Sample.long_vowel_row.
Proof.
  split_and!; [by vm_compute..|].
  intros H.
  specialize (H [12459; 12540] (Sample.element "td" [Sample.text_node (str "50%")])
                (float_of_Z 50)).
  vm_compute in H. specialize (H eq_refl eq_refl eq_refl). discriminate H.
Qed.

(** What one visit of a row adds to the records, by cases on the row. *)
Lemma row_records_cases row records :
  row_records row = Returns records ->
  match row_fields row with
  | Some (reading, cell1) =>
      exists percentage,
        float_of_str (remove_char 37 (text cell1)) = Some percentage /\
        records = if float_eq percentage float_zero then []
                  else class_records reading percentage
  | None => records = []
  end.
Proof.
  unfold row_records. destruct (row_fields row) as [[reading cell1]|]; [|congruence].
  destruct (float_of_str _) as [percentage|]; [|done].
  intros [= <-]. exists percentage. split; [done|].
  destruct (float_eq percentage float_zero) eqn:Hz.
  - unfold usage_records. by rewrite Hz.
  - by rewrite usage_records_nonzero.
Qed.

(** The records are collected row visit by row visit. *)
Lemma collect_rows_concat rows : forall data,
  collect_rows rows = Returns data ->
  exists per_row,
    data = concat per_row /\
    Forall2 (fun row records => row_records row = Returns records) rows per_row.
Proof.
  induction rows as [|row rows IH]; intros data; simpl.
  { intros [= <-]. by exists []. }
  unfold mbind, outcome_bind.
  destruct (row_records row) as [records|] eqn:Hrow; [|done].
  destruct (collect_rows rows) as [more|]; [|done].
  intros [= <-]. destruct (IH more eq_refl) as (per_row & -> & Hall).
  exists (records :: per_row). split; [done|by constructor].
Qed.

Lemma collect_rows_app before after : forall data,
  collect_rows (before ++ after) = Returns data ->
  exists earlier later,
    collect_rows before = Returns earlier /\
    collect_rows after = Returns later /\
    data = earlier ++ later.
Proof.
  induction before as [|row before IH]; intros data; simpl.
  { intros Hdata. by exists [], data. }
  unfold mbind, outcome_bind.
  destruct (row_records row) as [records|]; [|done].
  destruct (collect_rows (before ++ after)) as [more|]; [|done].
  intros [= <-]. destruct (IH more eq_refl) as (earlier & later & -> & -> & ->).
  exists (records ++ earlier), later. by rewrite app_assoc.
Qed.

(** C5, amended.  The records that [extract_kanji_usage_data] returns are
    those of the row visits of its two loops, sorted.  A visit of a row
    without a reading token, or with a percentage of zero, adds none.  The
    visit of any other row adds one record with the characters of the
    token in U+3041..U+3093, in order, if there is any, then one with its
    characters in U+30A1..U+30F3, in order, if there is any, both with the
    percentage of the row; a character outside the two ranges is in
    neither. *)
Theorem extractor_partitions_each_row soup kanji_data :
  extract_kanji_usage_data soup = Returns kanji_data ->
  exists per_row : list (list Usage.t),
    kanji_data = sorted Usage.percentage true (concat per_row) /\
    Forall2
      (fun row records =>
         match row_fields row with
         | Some (reading, cell1) =>
             exists percentage,
               float_of_str (remove_char 37 (text cell1)) = Some percentage /\
               records = if float_eq percentage float_zero then []
                         else class_records reading percentage
         | None => records = []
         end)
      (table_rows soup) per_row.
Proof.
  unfold extract_kanji_usage_data, mbind, outcome_bind.
  destruct (collect_rows (table_rows soup)) as [collected|] eqn:Hc; [|done].
  intros [= <-].
  destruct (collect_rows_concat _ _ Hc) as (per_row & -> & Hall).
  exists per_row. split; [done|].
  eapply Forall2_impl; [exact Hall|].
  intros row records. apply row_records_cases.
Qed.

Lemma extractor_partitions_each_row_witness :
  exists per_row : list (list Usage.t),
    [ Usage.mk [12459] katakana (float_of_Z 50);
      Usage.mk [12354] hiragana (float_of_Z 12);
      Usage.mk [12450] katakana (float_of_Z 12) ]
    = sorted Usage.percentage true (concat per_row) /\
    Forall2
      (fun row records =>
         match row_fields row with
         | Some (reading, cell1) =>
             exists percentage,
               float_of_str (remove_char 37 (text cell1)) = Some percentage /\
               records = if float_eq percentage float_zero then []
                         else class_records reading percentage
         | None => records = []
         end)
      (table_rows Sample.partition_page) per_row.
Proof.
  apply (extractor_partitions_each_row Sample.partition_page).
  vm_compute. reflexivity.
Defined.

(** C6, as stated, fails: ヴ (U+30F4) is a katakana character outside
    [[ァ-ン]], so the token あヴ, at 12%, yields the hiragana record only. *)
Lemma katakana_vu_is_not_recorded :
  in_hiragana_block 12354 = true /\
  in_katakana_block 12532 = true /\
  extract_kanji_usage_data Sample.vu_page
    = Returns [Usage.mk [12354] hiragana (float_of_Z 12)] /\
  ~ mixed_token_yields_two Sample.vu_row.
Proof.
  split_and!; [by vm_compute..|].
  intros H.
  destruct (H [12354; 12532] (Sample.element "td" [Sample.text_node (str "12%")])
              (float_of_Z 12))
    as (first & second & Hout & _); [by vm_compute..|].
  vm_compute in Hout. discriminate Hout.
Qed.

(** C6, amended.  Let a row have a reading token with a character of
    [[ぁ-ん]] and a character of [[ァ-ン]], and a percentage other than
    zero.  Then a visit of this row adds exactly two records, both with
    the percentage parsed from the row: a hiragana one with the characters
    of the token in [[ぁ-ん]] and a katakana one with those in [[ァ-ン]].
    The extractor returns them, sorted together with the records of the
    visits before and after. *)
Theorem mixed_row_yields_two_records
    soup before row after reading cell1 percentage kanji_data :
  table_rows soup = before ++ row :: after ->
  row_fields row = Some (reading, cell1) ->
  float_of_str (remove_char 37 (text cell1)) = Some percentage ->
  float_eq percentage float_zero = false ->
  (exists c, c ∈ reading /\ is_hiragana c = true) ->
  (exists c, c ∈ reading /\ is_katakana c = true) ->
  extract_kanji_usage_data soup = Returns kanji_data ->
  exists earlier later first second,
    collect_rows before = Returns earlier /\
    collect_rows after = Returns later /\
    kanji_data
    = sorted Usage.percentage true (earlier ++ [first; second] ++ later) /\
    first = Usage.mk (List.filter is_hiragana reading) hiragana percentage /\
    second = Usage.mk (List.filter is_katakana reading) katakana percentage /\
    Usage.reading first <> [] /\ Usage.reading second <> [].
Proof.
  intros Hrows Hfields Hfloat Hnz (h & Hh & Hhc) (k & Hk & Hkc).
  unfold extract_kanji_usage_data, mbind, outcome_bind.
  destruct (collect_rows (table_rows soup)) as [collected|] eqn:Hc; [|done].
  intros [= <-]. rewrite Hrows in Hc.
  apply collect_rows_app in Hc as (earlier & rest & Hearlier & Hrest & ->).
  simpl in Hrest. unfold mbind, outcome_bind in Hrest.
  destruct (row_records row) as [records|] eqn:Hrow; [|done].
  destruct (collect_rows after) as [later|]; [|done].
  injection Hrest as <-.
  unfold row_records in Hrow.
  rewrite Hfields, Hfloat, usage_records_nonzero in Hrow by done.
  assert (existsb is_hiragana reading = true) as Hhira.
  { apply existsb_exists. exists h. by rewrite <- list_elem_of_In. }
  assert (existsb is_katakana reading = true) as Hkata.
  { apply existsb_exists. exists k. by rewrite <- list_elem_of_In. }
  rewrite Hhira, Hkata in Hrow. injection Hrow as <-.
  eexists earlier, later, _, _. split_and!; try done.
  - simpl. intros Hnil.
    by rewrite <- (nonempty_filter is_hiragana), Hnil in Hhira.
  - simpl. intros Hnil.
    by rewrite <- (nonempty_filter is_katakana), Hnil in Hkata.
Qed.

Lemma mixed_row_yields_two_records_witness :
  exists earlier later first second,
    collect_rows [Sample.usage_row [12363] "30%"] = Returns earlier /\
    collect_rows [Sample.usage_row [12461] "5%"] = Returns later /\
    [ Usage.mk [12363] hiragana (float_of_Z 30);
      Usage.mk [12354] hiragana (float_of_Z 12);
      Usage.mk [12450] katakana (float_of_Z 12);
      Usage.mk [12461] katakana (float_of_Z 5) ]
    = sorted Usage.percentage true (earlier ++ [first; second] ++ later) /\
    first = Usage.mk (List.filter is_hiragana [12354; 12450]) hiragana (float_of_Z 12) /\
    second = Usage.mk (List.filter is_katakana [12354; 12450]) katakana (float_of_Z 12) /\
    Usage.reading first <> [] /\ Usage.reading second <> [].
Proof.
  apply (mixed_row_yields_two_records Sample.mixed_page
           [Sample.usage_row [12363] "30%"] Sample.mixed_row
           [Sample.usage_row [12461] "5%"] [12354; 12450]
           (Sample.element "td" [Sample.text_node (str "12%")]) (float_of_Z 12)).
  - vm_compute. reflexivity.
  - vm_compute. reflexivity.
  - vm_compute. reflexivity.
  - vm_compute. reflexivity.
  - exists 12354. split; [apply list_elem_of_here|reflexivity].
  - exists 12450. split; [apply list_elem_of_further, list_elem_of_here|reflexivity].
  - vm_compute. reflexivity.
Defined.

(** C10.  If some row of some table has at least two cells, a link in the
    first cell with a reading span in it, and a second cell whose text
    without percent signs is not a number, then [extract_kanji_usage_data]
    raises [ValueError]: the row is not skipped and no record is returned
    for the page. *)
Theorem malformed_percentage_raises soup table row cell0 cell1 cells link span spans :
  table ∈ find_all (tag_is "table") soup ->
  row ∈ find_all (tag_is "tr") table ->
  find_all (tag_is "td") row = cell0 :: cell1 :: cells ->
  find (tag_is "a") cell0 = Some link ->
  find_all (tag_with "span" "class" "reading") link = span :: spans ->
  float_of_str (remove_char 37 (text cell1)) = None ->
  extract_kanji_usage_data soup = Raises ValueError.
Proof.
  intros Htable Hrow Hcells Hlink Hspans Hfloat.
  unfold extract_kanji_usage_data.
  rewrite (collect_rows_raises _ row); [done|by eapply elem_of_table_rows|].
  unfold row_records, row_fields. rewrite Hcells, Hlink, Hspans. csimpl.
  by rewrite Hfloat.
Qed.

Lemma malformed_percentage_raises_witness :
  extract_kanji_usage_data Sample.malformed_page = Raises ValueError.
Proof.
  apply (malformed_percentage_raises Sample.malformed_page
           (Sample.element "table" [Sample.usage_row [12450] "3%"; Sample.malformed_row])
           Sample.malformed_row
           (Sample.element "td"
              [Sample.element "a"
                 [Sample.element_of_class "span" ["reading"]%string
                    [Sample.text_node [12354]]]])
           (Sample.element "td" [Sample.text_node (str "n/a")])
           []
           (Sample.element "a"
              [Sample.element_of_class "span" ["reading"]%string
                 [Sample.text_node [12354]]])
           (Sample.element_of_class "span" ["reading"]%string
              [Sample.text_node [12354]])
           []).
  - vm_compute. apply list_elem_of_here.
  - vm_compute. apply list_elem_of_further, list_elem_of_here.
  - vm_compute. reflexivity.
  - vm_compute. reflexivity.
  - vm_compute. reflexivity.
  - vm_compute. reflexivity.
Defined.

(** ** The lookup *)

Lemma reading_percentages_other (data : list Usage.t) reading :
  forall m : gmap pystr pyfloat,
  (forall x, x ∈ data -> Usage.reading x <> reading) ->
  fold_left (fun m item => <[Usage.reading item := Usage.percentage item]> m) data m
    !! reading = m !! reading.
Proof.
  induction data as [|x data IH]; intros m Hne; simpl; [done|].
  rewrite IH by (intros y Hy; apply Hne; by right).
  apply lookup_insert_ne, Hne. by left.
Qed.

Lemma extract_kanji_usage_data_raises soup e :
  extract_kanji_usage_data soup = Raises e -> e = ValueError.
Proof.
  unfold extract_kanji_usage_data, mbind, outcome_bind.
  generalize (table_rows soup). intros rows.
  destruct (collect_rows rows) as [data|e'] eqn:Hc; [done|].
  intros [= <-]. revert e' Hc.
  induction rows as [|row rows IH]; intros e' Hc; simpl in Hc; [done|].
  unfold mbind, outcome_bind in Hc.
  destruct (row_records row) as [records|e0] eqn:Hrow.
  - destruct (collect_rows rows) as [more|e1]; [done|].
    injection Hc as <-. by apply IH.
  - injection Hc as <-. by apply row_records_raises in Hrow.
Qed.

(** C4.  In the lookup built from a sequence of usage records, a reading
    has the percentage of the last record that carries it.  The sequence
    that the pipeline passes is the output of [extract_kanji_usage_data],
    which is in non-increasing order of percentage when the percentages are
    numbers. *)
Theorem lookup_keeps_last_record :
  (forall before item after,
      (forall x, x ∈ after -> Usage.reading x <> Usage.reading item) ->
      reading_percentages (before ++ item :: after) !! Usage.reading item
        = Some (Usage.percentage item)) /\
  (forall soup kanji_usage_data,
      extract_kanji_usage_data soup = Returns kanji_usage_data ->
      Forall (fun x => is_number (Usage.percentage x) = true) kanji_usage_data ->
      StronglySorted (descending Usage.percentage) kanji_usage_data).
Proof.
  split.
  - intros before item after Hafter. unfold reading_percentages.
    rewrite fold_left_app. simpl.
    rewrite reading_percentages_other by done.
    apply lookup_insert_eq.
  - intros soup data. unfold extract_kanji_usage_data, mbind, outcome_bind.
    destruct (collect_rows (table_rows soup)) as [collected|]; [|done].
    intros [= <-] Hnum. apply sorted_descending.
    by rewrite (sorted_perm Usage.percentage true collected) in Hnum.
Qed.

Lemma lookup_keeps_last_record_witness :
  reading_percentages Sample.usage_data !! [12354] = Some (float_of_Z 3) /\
  StronglySorted (descending Usage.percentage)
    [Usage.mk [12354] hiragana (float_of_Z (-5))].
Proof.
  split.
  - apply (proj1 lookup_keeps_last_record
             [Usage.mk [12354] hiragana (float_of_Z 12);
              Usage.mk [12450] katakana (float_of_Z 7)]
             (Usage.mk [12354] hiragana (float_of_Z 3)) []).
    intros x Hx. by apply elem_of_nil in Hx.
  - apply (proj2 lookup_keeps_last_record Sample.negative_page).
    + vm_compute. reflexivity.
    + repeat constructor.
Defined.

(** ** The Reading Extractor *)

Lemma join_cons sep (m : pystr) ms :
  join sep (m :: ms) = m ++ concat ((fun x => sep ++ x) <$> ms).
Proof.
  revert m. induction ms as [|m' ms IH]; intros m.
  - simpl. by rewrite app_nil_r.
  - change (join sep (m :: m' :: ms)) with (m ++ sep ++ join sep (m' :: ms)).
    rewrite IH. csimpl. by rewrite (app_assoc sep).
Qed.

Lemma merge_step_nonempty ms : forall previous,
  nonempty previous = true ->
  fold_left merge_step ms previous
    = previous ++ concat ((fun x => str ", " ++ x) <$> ms).
Proof.
  induction ms as [|m ms IH]; intros previous Hp; csimpl.
  - by rewrite app_nil_r.
  - unfold merge_step at 2. rewrite Hp. rewrite IH.
    + by rewrite <- app_assoc.
    + by destruct previous.
Qed.

(** The merge in closed form: the meanings from the first non-empty one
    on, joined by [", "]. *)
Lemma merged_meaning_join ms :
  merged_meaning ms = join (str ", ") (drop_while (fun m => negb (nonempty m)) ms).
Proof.
  unfold merged_meaning. induction ms as [|m ms IH]; [done|].
  simpl. destruct m as [|c m]; simpl; [exact IH|].
  change (merge_step [] (c :: m)) with (c :: m).
  rewrite merge_step_nonempty by done.
  symmetry. apply (join_cons (str ", ") (c :: m) ms).
Qed.

Lemma add_item_wf items : forall acc : dict pystr,
  dict_wf acc -> dict_wf (fold_left add_item items acc).
Proof.
  induction items as [|item items IH]; intros acc Hacc; simpl; [done|].
  apply IH. unfold add_item. destruct (entry_of_item item) as [[r m]|]; [|done].
  by apply dict_set_wf.
Qed.

Lemma add_item_get reading items : forall acc : dict pystr,
  dict_get reading (fold_left add_item items acc) =
    match dict_get reading acc, meanings_of reading items with
    | None, [] => None
    | previous, ms => Some (fold_left merge_step ms (default [] previous))
    end.
Proof.
  unfold meanings_of.
  induction items as [|item items IH]; intros acc; csimpl.
  { by destruct (dict_get reading acc). }
  rewrite IH. unfold add_item.
  destruct (entry_of_item item) as [[r m]|]; csimpl; [|done].
  unfold add_meaning. rewrite dict_get_dict_set.
  destruct (decide (r = reading)) as [->|Hne].
  - rewrite bool_decide_eq_true_2 by done. csimpl.
    fold (merge_step (default [] (dict_get reading acc)) m).
    by destruct (dict_get reading acc).
  - by rewrite bool_decide_eq_false_2 by done.
Qed.

Lemma extract_reading_type_fold readings_div reading_type :
  extract_reading_type readings_div reading_type
    = fold_left add_item (reading_items readings_div reading_type) [].
Proof.
  unfold extract_reading_type, reading_items.
  destruct (head _) as [[header after]|]; [|done].
  by destruct (find_next_sibling "ul" after).
Qed.

(** C7.  The mapping that [extract_reading_type] returns has no repeated
    key.  A reading is a key exactly when some entry of the list has it, and
    its meaning is then that of its entries merged in the order of the
    list: each meaning appended after a [", "], which is left out while
    what has been accumulated is empty.  That is the meanings from the
    first non-empty one on, joined by [", "]. *)
Theorem repeated_readings_are_merged readings_div reading_type :
  let readings := extract_reading_type readings_div reading_type in
  dict_wf readings /\
  forall reading,
    let ms := meanings_of reading (reading_items readings_div reading_type) in
    dict_get reading readings =
      match ms with
      | [] => None
      | _ => Some (merged_meaning ms)
      end /\
    merged_meaning ms
      = join (str ", ") (drop_while (fun m => negb (nonempty m)) ms).
Proof.
  intros readings. unfold readings. rewrite extract_reading_type_fold. split.
  - apply add_item_wf, NoDup_nil_2.
  - intros reading. split; [|apply merged_meaning_join].
    rewrite add_item_get. simpl. by destruct (meanings_of _ _).
Qed.

(** ** The per-character pipeline *)

(** C8, as stated, fails: the page below has the reading section where the
    selector looks for it, and a usage row whose share is not a number;
    [fetch_kanji_data] returns neither null nor a result, it raises. *)
Lemma located_section_without_result :
  select_one readings_div_selector Sample.bad_page = Some Sample.readings_div /\
  fetch_kanji_data [26085] (Some Sample.bad_page) = Raises ValueError /\
  ~ returns_null_or_result [26085] Sample.bad_page.
Proof.
  split_and!; [by vm_compute..|].
  unfold returns_null_or_result.
  replace (select_one readings_div_selector Sample.bad_page)
    with (Some Sample.readings_div) by (by vm_compute).
  replace (fetch_kanji_data [26085] (Some Sample.bad_page))
    with (@Raises (option kanji_result) ValueError) by (by vm_compute).
  by intros [result ?].
Qed.

(** C8, amended.  [fetch_kanji_data] returns null when the page could not
    be fetched or the reading section is not found.  Otherwise, when the
    usage extraction returns, it returns a result with the three mappings,
    each the ranking of the extracted category; when the usage extraction
    raises, which it does with [ValueError] only, so does
    [fetch_kanji_data].  No other result is possible. *)
Theorem fetch_kanji_data_outcomes kanji :
  fetch_kanji_data kanji None = Returns None /\
  forall soup,
    match select_one readings_div_selector soup with
    | None => fetch_kanji_data kanji (Some soup) = Returns None
    | Some readings_div =>
        match extract_kanji_usage_data soup with
        | Returns kanji_usage_data =>
            let lookup := reading_percentages kanji_usage_data in
            let ranked reading_type :=
              filter_and_sort_reading_type
                (extract_reading_type readings_div (str reading_type)) lookup in
            fetch_kanji_data kanji (Some soup) =
              Returns (Some {| kanji := kanji;
                               kunyomi := ranked "Kun'yomi"%string;
                               onyomi := ranked "On'yomi"%string;
                               nanori := ranked "Nanori"%string |})
        | Raises e =>
            e = ValueError /\
            fetch_kanji_data kanji (Some soup) = Raises ValueError
        end
    end.
Proof.
  split; [done|]. intros soup. unfold fetch_kanji_data.
  destruct (select_one readings_div_selector soup) as [readings_div|]; [|done].
  destruct (extract_kanji_usage_data soup) as [data|e] eqn:He; [done|].
  apply extract_kanji_usage_data_raises in He as ->. done.
Qed.

(** ** The call to the flashcard application *)

Lemma two_fields_dom (fields : gmap pystr json) :
  size fields = 2%nat /\ is_Some (fields !! str "error")
    /\ is_Some (fields !! str "result")
  <-> dom fields = {[ str "error"; str "result" ]}.
Proof.
  assert (size ({[ str "error"; str "result" ]} : gset pystr) = 2%nat) as Htwo.
  { rewrite size_union, !size_singleton; [done|].
    apply disjoint_singleton_l. rewrite elem_of_singleton. discriminate. }
  split.
  - intros (Hsize & He & Hr). symmetry. apply set_subseteq_size_eq.
    + intros k [Hk|Hk]%elem_of_union; apply elem_of_singleton in Hk as ->;
        by apply elem_of_dom.
    + rewrite size_dom, Hsize, Htwo. done.
  - intros Hdom. split_and!.
    + by rewrite <- size_dom, Hdom.
    + apply elem_of_dom. rewrite Hdom. apply elem_of_union_l, elem_of_singleton. done.
    + apply elem_of_dom. rewrite Hdom. apply elem_of_union_r, elem_of_singleton. done.
Qed.

Lemma short_string_lacks_error (s : pystr) :
  length s = 2%nat -> is_substring (str "error") s = false.
Proof.
  destruct s as [|a [|b [|c s]]]; try done. intros _.
  cbn. rewrite !andb_false_r. done.
Qed.

Lemma invoke_accepted exchange action params response result :
  exchange (request action params) = Returns response ->
  accepted response result ->
  invoke exchange action params = Returns result.
Proof.
  intros Hex (fields & -> & Hdom & Herr & Hres).
  apply two_fields_dom in Hdom as (Hsize & He & Hr).
  unfold invoke, mbind, outcome_bind. rewrite Hex. simpl.
  rewrite Hsize. simpl.
  rewrite !bool_decide_eq_true_2 by done. simpl.
  by rewrite Herr, Hres.
Qed.

Lemma invoke_returns exchange action params result :
  invoke exchange action params = Returns result ->
  exists response,
    exchange (request action params) = Returns response /\
    accepted response result.
Proof.
  unfold invoke, mbind, outcome_bind.
  destruct (exchange (request action params)) as [response|]; [|done].
  intros H. exists response. split; [done|].
  destruct response as [| | | |s|items|fields]; try done; simpl in H.
  - destruct (Nat.eqb_spec (length s) 2) as [Hlen|]; [|done]. simpl in H.
    by rewrite short_string_lacks_error in H.
  - destruct (length items =? 2)%nat; [|done]. simpl in H.
    destruct (existsb _ items); [|done]. simpl in H.
    by destruct (existsb _ items).
  - destruct (Nat.eqb_spec (size fields) 2) as [Hsize|]; [|done]. simpl in H.
    destruct (decide (is_Some (fields !! str "error"))) as [He|He].
    2: { by rewrite bool_decide_eq_false_2 in H. }
    rewrite bool_decide_eq_true_2 in H by done. simpl in H.
    destruct (decide (is_Some (fields !! str "result"))) as [Hr|Hr].
    2: { by rewrite bool_decide_eq_false_2 in H. }
    rewrite bool_decide_eq_true_2 in H by done. simpl in H.
    destruct He as [error He]. rewrite He in H.
    destruct error; try done.
    destruct Hr as [r Hr]. rewrite Hr in H. injection H as ->.
    exists fields. split_and!; try done.
    apply two_fields_dom. split_and!; [done|by eexists|by eexists].
Qed.

(** C9.  [invoke] returns a value exactly when the decoded response is an
    object with the two fields [error] and [result] and no other, and
    [error] is null; the value is then that of [result].  Every other
    response makes it raise. *)
Theorem invoke_accepts_exactly exchange action params :
  (forall result,
      invoke exchange action params = Returns result <->
      exists response,
        exchange (request action params) = Returns response /\
        accepted response result) /\
  (forall response,
      exchange (request action params) = Returns response ->
      (forall result, ~ accepted response result) ->
      exists e, invoke exchange action params = Raises e).
Proof.
  split.
  - intros result. split; [apply invoke_returns|].
    intros (response & Hex & Hacc). by eapply invoke_accepted.
  - intros response Hex Hno.
    destruct (invoke exchange action params) as [result|e] eqn:Hinv; [|by exists e].
    apply invoke_returns in Hinv as (response' & Hex' & Hacc).
    rewrite Hex in Hex'. injection Hex' as <-. by destruct (Hno result).
Qed.

Lemma invoke_accepts_exactly_witness :
  invoke (fun _ => Returns (JObj (<[str "error" := JNull]>
                                 (<[str "result" := JArr [JInt 7]]> ∅))))
         (str "findNotes") ∅
    = Returns (JArr [JInt 7]).
Proof.
  apply (proj1 (invoke_accepts_exactly _ (str "findNotes") ∅)).
  eexists. split; [reflexivity|].
  eexists. split; [reflexivity|]. split_and!.
  - apply two_fields_dom. split_and!.
    + vm_compute. reflexivity.
    + eexists. vm_compute. reflexivity.
    + eexists. vm_compute. reflexivity.
  - vm_compute. reflexivity.
  - vm_compute. reflexivity.
Defined.

(** ** The claims on the sample pages *)

Lemma ranked_readings_are_in_lookup_witness :
  reading_percentages Sample.usage_data !! [12354] = Some (float_of_Z 3) /\
  [12356] ∉ dict_keys (filter_and_sort_reading_type Sample.kunyomi_dict
                         (reading_percentages Sample.usage_data)).
Proof.
  split.
  - apply (proj1 (ranked_readings_are_in_lookup Sample.kunyomi_dict Sample.usage_data)
             [12354] (Details.mk (str "to meet") (float_of_Z 3))).
    vm_compute. apply list_elem_of_here.
  - apply (proj2 (ranked_readings_are_in_lookup Sample.kunyomi_dict Sample.usage_data)).
    vm_compute. reflexivity.
Defined.

Lemma ranked_readings_are_sorted_stably_witness :
  let out := filter_and_sort_reading_type Sample.kunyomi_dict Sample.lookup in
  StronglySorted
    (fun x y => float_ge (Details.percentage x.2) (Details.percentage y.2) = true)
    out /\
  (forall p,
      dict_keys (List.filter (fun x => float_eq (Details.percentage x.2) p) out)
      = List.filter (has_percentage Sample.lookup p) (dict_keys Sample.kunyomi_dict)).
Proof.
  apply (ranked_readings_are_sorted_stably Sample.kunyomi_dict Sample.lookup).
  - apply (bool_decide_unpack _). vm_compute. exact I.
  - intros reading p. unfold Sample.lookup.
    intros [[_ <-]|[_ [[_ <-]|[_ H]]%lookup_insert_Some]]%lookup_insert_Some.
    + reflexivity.
    + reflexivity.
    + by rewrite lookup_empty in H.
Defined.

(** The scenarios of the specification. *)

Example usage_scenario :
  extract_kanji_usage_data
    (Sample.page [ Sample.element "table"
                     [ Sample.usage_row [12354; 45] "12%";
                       Sample.usage_row [12450] "0%" ] ])
  = Returns [Usage.mk [12354] hiragana (float_of_Z 12)].
Proof. vm_compute. reflexivity. Qed.

Example ranking_scenario :
  filter_and_sort_reading_type [([12354], str "to meet")]
    (<[ [12354] := float_of_Z 12 ]> ∅)
    = [([12354], Details.mk (str "to meet") (float_of_Z 12))] /\
  filter_and_sort_reading_type [([12354], str "to meet")] ∅ = [].
Proof. vm_compute. done. Qed.

Example merge_scenario :
  extract_reading_type Sample.readings_div (str "Kun'yomi")
    = [([12354], str "to meet, to join"); ([12356], [])] /\
  extract_reading_type Sample.readings_div (str "Nanori") = [].
Proof. vm_compute. done. Qed.

Example pipeline_scenario :
  fetch_kanji_data [20250] (Some Sample.good_page)
  = Returns (Some {| kanji := [20250];
                     kunyomi := [([12354], Details.mk (str "to meet, to join")
                                                      (float_of_Z 12))];
                     onyomi := [];
                     nanori := [] |}).
Proof. vm_compute. reflexivity. Qed.

Example ties_keep_their_order :
  dict_keys (filter_and_sort_reading_type Sample.kunyomi_dict Sample.lookup)
    = [[12356]; [12354]].
Proof. vm_compute. reflexivity. Qed.

Example skipped_characters :
  fetch_kanji_data [20250] None = Returns None /\
  fetch_kanji_data [20250] (Some Sample.negative_page) = Returns None.
Proof. vm_compute. done. Qed.

(** * Further properties *)

(** ** The Ranker, once more *)

Lemma elem_of_dict_get {V} (d : dict V) k v :
  dict_wf d -> (k, v) ∈ d <-> dict_get k d = Some v.
Proof.
  unfold dict_wf, dict_keys. induction d as [|[k' v'] d IH]; csimpl; intros Hd.
  { split; [by intros ?%elem_of_nil|done]. }
  apply NoDup_cons in Hd as [Hk' Hd].
  destruct (decide (k' = k)) as [->|Hne].
  - split.
    + intros [[= ->]|Hin]%elem_of_cons; [done|].
      destruct Hk'. apply list_elem_of_fmap. by exists (k, v).
    + intros [= ->]. by left.
  - rewrite <- IH by done. split.
    + intros [[= -> ->]|Hin]%elem_of_cons; done.
    + intros Hin. by right.
Qed.

Lemma keep_item_wf rp items : forall acc : dict Details.t,
  dict_wf acc -> dict_wf (fold_left (keep_item rp) items acc).
Proof.
  induction items as [|[k m] items IH]; intros acc Hacc; simpl; [done|].
  apply IH. destruct (rp !! k); [by apply dict_set_wf|done].
Qed.

Lemma keep_item_keys rp items : forall (acc : dict Details.t) k,
  k ∈ dict_keys (fold_left (keep_item rp) items acc) ->
  k ∈ dict_keys acc \/ k ∈ items.*1.
Proof.
  induction items as [|[k' m] items IH]; intros acc k; csimpl; [by left|].
  intros [Hk|Hk]%IH; [|right; by right].
  destruct (rp !! k'); [|by left].
  rewrite dict_keys_dict_set in Hk.
  destruct (decide (k' ∈ dict_keys acc)); [by left|].
  apply elem_of_app in Hk as [Hk|Hk]; [by left|].
  apply list_elem_of_singleton in Hk as ->. right. by left.
Qed.

(** X1.  On a mapping without repeated keys, the ranked output holds a
    reading exactly when the mapping and the lookup both have it, with the
    meaning of the mapping, unchanged, and the percentage of the lookup. *)
Theorem ranked_reading_lookup (reading_type_dict : dict pystr)
    (reading_percentages : gmap pystr pyfloat) reading :
  dict_wf reading_type_dict ->
  dict_get reading (filter_and_sort_reading_type reading_type_dict reading_percentages)
  = match dict_get reading reading_type_dict, reading_percentages !! reading with
    | Some meaning, Some percentage => Some (Details.mk meaning percentage)
    | _, _ => None
    end.
Proof.
  intros Hwf.
  assert (dict_wf (filter_and_sort_reading_type reading_type_dict reading_percentages))
    as Hout by (apply keep_item_wf, NoDup_nil_2).
  assert (forall e, (reading, e) ∈ filter_and_sort_reading_type reading_type_dict
                       reading_percentages
                    <-> exists m p, (reading, m) ∈ reading_type_dict
                                    /\ reading_percentages !! reading = Some p
                                    /\ e = Details.mk m p) as Hchar.
  { intros e. rewrite filter_and_sort_reading_type_omap by done.
    rewrite list_elem_of_omap. split.
    - intros ([k m] & Hin & Hr). rewrite sorted_perm in Hin.
      unfold rank_item in Hr. simpl in Hr.
      destruct (reading_percentages !! k) as [p|] eqn:Hp; simplify_eq/=.
      by exists m, p.
    - intros (m & p & Hin & Hp & ->). exists (reading, m).
      split; [by rewrite sorted_perm|].
      unfold rank_item. simpl. by rewrite Hp. }
  destruct (dict_get reading reading_type_dict) as [m|] eqn:Hm.
  - apply elem_of_dict_get in Hm; [|done].
    destruct (reading_percentages !! reading) as [p|] eqn:Hp.
    + apply elem_of_dict_get; [done|]. apply Hchar. by exists m, p.
    + destruct (dict_get reading _) as [e|] eqn:He; [|done].
      apply elem_of_dict_get, Hchar in He as (? & ? & _ & ? & _); [congruence|done].
  - destruct (dict_get reading (filter_and_sort_reading_type _ _)) as [e|] eqn:He;
      [|by destruct (reading_percentages !! reading)].
    apply elem_of_dict_get, Hchar in He as (m & p & Hin & _ & _); [|done].
    apply elem_of_dict_get in Hin; [congruence|done].
Qed.

Lemma ranked_reading_lookup_witness :
  dict_get [12354] (filter_and_sort_reading_type Sample.kunyomi_dict Sample.lookup)
  = Some (Details.mk (str "to meet") (float_of_Z 12)).
Proof.
  apply (ranked_reading_lookup Sample.kunyomi_dict Sample.lookup [12354]).
  apply (bool_decide_unpack _). vm_compute. exact I.
Defined.

(** X2.  Whatever the mapping, the ranked output has no repeated reading,
    its readings are readings of the mapping, and it is no longer than the
    mapping. *)
Theorem ranked_readings_are_wf (reading_type_dict : dict pystr)
    (reading_percentages : gmap pystr pyfloat) :
  let out := filter_and_sort_reading_type reading_type_dict reading_percentages in
  dict_wf out /\
  (forall reading, reading ∈ dict_keys out -> reading ∈ dict_keys reading_type_dict) /\
  (length out <= length reading_type_dict)%nat.
Proof.
  intros out. assert (dict_wf out) as Hwf by (apply keep_item_wf, NoDup_nil_2).
  assert (forall reading, reading ∈ dict_keys out ->
                          reading ∈ dict_keys reading_type_dict) as Hsub.
  { intros reading [Hin|Hin]%keep_item_keys; [by apply elem_of_nil in Hin|].
    unfold dict_keys. by rewrite sorted_perm in Hin. }
  split_and!; [done|done|].
  rewrite <- (length_fmap fst out), <- (length_fmap fst reading_type_dict).
  apply submseteq_length, NoDup_submseteq; [done|].
  intros k Hk. by apply Hsub.
Qed.

Lemma ranked_readings_are_wf_witness :
  [12354] ∈ dict_keys Sample.kunyomi_dict.
Proof.
  apply (proj1 (proj2 (ranked_readings_are_wf Sample.kunyomi_dict Sample.lookup))).
  vm_compute. apply list_elem_of_further, list_elem_of_here.
Defined.

(** ** The lookup and the Usage Table Extractor, once more *)

Lemma last_occurrence {A} (f : A -> pystr) (l : list A) k :
  (exists x, x ∈ l /\ f x = k) ->
  exists before x after,
    l = before ++ x :: after /\ f x = k /\ forall y, y ∈ after -> f y <> k.
Proof.
  induction l as [|a l IH]; intros (x & Hx & Hk).
  { by apply elem_of_nil in Hx. }
  destruct (decide (k ∈ f <$> l)) as [Hin|Hnot].
  - apply list_elem_of_fmap in Hin as (y & -> & Hy).
    destruct IH as (before & z & after & -> & Hz & Hafter); [by exists y|].
    by exists (a :: before), z, after.
  - exists [], a, l. split_and!; [done| |].
    + apply elem_of_cons in Hx as [->|Hx]; [done|].
      destruct Hnot. apply list_elem_of_fmap. by exists x.
    + intros y Hy Hfy. destruct Hnot. apply list_elem_of_fmap. by exists y.
Qed.

Lemma reading_percentages_last before item after :
  (forall x, x ∈ after -> Usage.reading x <> Usage.reading item) ->
  reading_percentages (before ++ item :: after) !! Usage.reading item
    = Some (Usage.percentage item).
Proof.
  intros Hafter. unfold reading_percentages. rewrite fold_left_app. simpl.
  rewrite reading_percentages_other by done. apply lookup_insert_eq.
Qed.

Lemma reading_percentages_cases (kanji_usage_data : list Usage.t) reading :
  (reading_percentages kanji_usage_data !! reading = None /\
   forall item, item ∈ kanji_usage_data -> Usage.reading item <> reading) \/
  (exists item,
      item ∈ kanji_usage_data /\ Usage.reading item = reading /\
      reading_percentages kanji_usage_data !! reading = Some (Usage.percentage item)).
Proof.
  destruct (decide (reading ∈ Usage.reading <$> kanji_usage_data)) as [Hin|Hnot].
  - right. apply list_elem_of_fmap in Hin as (x & -> & Hx).
    destruct (last_occurrence Usage.reading kanji_usage_data (Usage.reading x))
      as (before & y & after & -> & Hy & Hafter); [by exists x|].
    exists y. rewrite <- Hy. split_and!; [|done|].
    + apply elem_of_app. right. by left.
    + apply reading_percentages_last. by rewrite Hy.
  - left.
    assert (forall item, item ∈ kanji_usage_data -> Usage.reading item <> reading)
      as Hall.
    { intros item Hitem <-. destruct Hnot. apply list_elem_of_fmap. by exists item. }
    split; [|done].
    unfold reading_percentages. rewrite reading_percentages_other by done.
    apply lookup_empty.
Qed.

(** X3.  The lookup has a reading exactly when some usage record carries
    it, and the percentage it gives is that of such a record. *)
Theorem lookup_readings_are_recorded (kanji_usage_data : list Usage.t) reading :
  (reading_percentages kanji_usage_data !! reading = None <->
   forall item, item ∈ kanji_usage_data -> Usage.reading item <> reading) /\
  (forall p,
      reading_percentages kanji_usage_data !! reading = Some p ->
      exists item,
        item ∈ kanji_usage_data /\ Usage.reading item = reading /\
        Usage.percentage item = p).
Proof.
  destruct (reading_percentages_cases kanji_usage_data reading)
    as [[Hnone Hall]|(item & Hitem & Hreading & Hsome)].
  - rewrite Hnone. split; [done|]. by intros p.
  - rewrite Hsome. split.
    + split; [done|]. intros Hall. by destruct (Hall item).
    + intros p [= <-]. by exists item.
Qed.

Lemma lookup_readings_are_recorded_witness :
  exists item,
    item ∈ Sample.usage_data /\ Usage.reading item = [12354] /\
    Usage.percentage item = float_of_Z 3.
Proof.
  apply (proj2 (lookup_readings_are_recorded Sample.usage_data [12354])).
  vm_compute. reflexivity.
Defined.

Lemma float_ge_refl a : is_number a = true -> float_ge a a = true.
Proof. float_order. Qed.

Lemma extract_kanji_usage_data_sorted soup kanji_usage_data :
  extract_kanji_usage_data soup = Returns kanji_usage_data ->
  Forall (fun x => is_number (Usage.percentage x) = true) kanji_usage_data ->
  StronglySorted (descending Usage.percentage) kanji_usage_data.
Proof.
  unfold extract_kanji_usage_data, mbind, outcome_bind.
  destruct (collect_rows (table_rows soup)) as [collected|]; [|done].
  intros [= <-] Hnum. apply sorted_descending.
  by rewrite (sorted_perm Usage.percentage true collected) in Hnum.
Qed.

(** X4.  In the pipeline the lookup is built from the extractor's output,
    which is sorted; so, when no percentage is NaN, the percentage that the
    lookup gives for a reading is the least of those recorded for it: it is
    the percentage of a record with this reading, and no record with this
    reading has a smaller one. *)
Theorem lookup_keeps_least_percentage soup kanji_usage_data reading p :
  extract_kanji_usage_data soup = Returns kanji_usage_data ->
  Forall (fun x => is_number (Usage.percentage x) = true) kanji_usage_data ->
  reading_percentages kanji_usage_data !! reading = Some p ->
  (exists item,
      item ∈ kanji_usage_data /\ Usage.reading item = reading /\
      Usage.percentage item = p) /\
  (forall item,
      item ∈ kanji_usage_data -> Usage.reading item = reading ->
      float_ge (Usage.percentage item) p = true).
Proof.
  intros Hex Hnum Hp.
  pose proof (extract_kanji_usage_data_sorted _ _ Hex Hnum) as Hsorted.
  destruct (reading_percentages_cases kanji_usage_data reading)
    as [[Hnone _]|(x & Hx & Hreading & _)]; [congruence|].
  destruct (last_occurrence Usage.reading kanji_usage_data reading)
    as (before & y & after & -> & Hy & Hafter); [by exists x|].
  rewrite <- Hy, reading_percentages_last in Hp by (by rewrite Hy).
  injection Hp as <-. split.
  - exists y. split_and!; [|done..]. apply elem_of_app. right. by left.
  - intros item Hitem Hr. apply elem_of_app in Hitem as [Hitem|Hitem].
    + by apply (StronglySorted_app_1_elem_of _ _ _ _ _ Hsorted Hitem); left.
    + apply elem_of_cons in Hitem as [->|Hitem]; [|by destruct (Hafter item)].
      apply float_ge_refl. rewrite Forall_forall in Hnum. apply Hnum.
      apply elem_of_app. right. by left.
Qed.

Lemma lookup_keeps_least_percentage_witness :
  (exists item,
      item ∈ [ Usage.mk [12354] hiragana (float_of_Z 12);
               Usage.mk [12450] katakana (float_of_Z 7);
               Usage.mk [12354] hiragana (float_of_Z 3) ] /\
      Usage.reading item = [12354] /\ Usage.percentage item = float_of_Z 3) /\
  (forall item,
      item ∈ [ Usage.mk [12354] hiragana (float_of_Z 12);
               Usage.mk [12450] katakana (float_of_Z 7);
               Usage.mk [12354] hiragana (float_of_Z 3) ] ->
      Usage.reading item = [12354] ->
      float_ge (Usage.percentage item) (float_of_Z 3) = true).
Proof.
  apply (lookup_keeps_least_percentage repeated_reading_page).
  - vm_compute. reflexivity.
  - repeat constructor.
  - vm_compute. reflexivity.
Defined.

Lemma filter_class_nonempty cls (reading : pystr) :
  nonempty (List.filter cls reading) = true ->
  List.filter cls reading <> [] /\
  Forall (fun c => cls c = true) (List.filter cls reading).
Proof.
  intros Hne. split; [by destruct (List.filter cls reading)|].
  apply Forall_forall. intros c Hc. by apply list_elem_of_In, filter_In in Hc as [_ ?].
Qed.

(** X5.  The reading of an emitted record is never empty, and consists of
    characters of the class of its script only: a hiragana record of
    characters in U+3041..U+3093, a katakana record of characters in
    U+30A1..U+30F3.  Hyphens, ideographs and whatever else the token held
    are not in it. *)
Theorem emitted_readings_are_of_their_script soup kanji_usage_data item :
  extract_kanji_usage_data soup = Returns kanji_usage_data ->
  item ∈ kanji_usage_data ->
  Usage.reading item <> [] /\
  Forall (fun c => script_class (Usage.type item) c = true) (Usage.reading item).
Proof.
  unfold extract_kanji_usage_data, mbind, outcome_bind.
  destruct (collect_rows (table_rows soup)) as [collected|] eqn:Hc; [|done].
  intros [= <-] Hin.
  rewrite (sorted_perm Usage.percentage true collected) in Hin.
  destruct (collect_rows_elem _ _ _ Hc Hin) as (row & records & _ & Hrow & Hitem).
  unfold row_records in Hrow.
  destruct (row_fields row) as [[reading cell1]|];
    [|simplify_eq; by apply elem_of_nil in Hitem].
  destruct (float_of_str _) as [p|]; simplify_eq.
  unfold usage_records in Hitem.
  destruct (negb _); [|by apply elem_of_nil in Hitem].
  rewrite !findall_join_filter in Hitem.
  apply elem_of_app in Hitem as [Hitem|Hitem].
  - destruct (nonempty (List.filter is_hiragana reading)) eqn:Hne;
      [|by apply elem_of_nil in Hitem].
    apply list_elem_of_singleton in Hitem as ->. simpl.
    by apply filter_class_nonempty.
  - destruct (nonempty (List.filter is_katakana reading)) eqn:Hne;
      [|by apply elem_of_nil in Hitem].
    apply list_elem_of_singleton in Hitem as ->. simpl.
    by apply filter_class_nonempty.
Qed.

Lemma emitted_readings_are_of_their_script_witness :
  [12354] <> [] /\ Forall (fun c => script_class hiragana c = true) [12354].
Proof.
  apply (emitted_readings_are_of_their_script Sample.negative_page
           [Usage.mk [12354] hiragana (float_of_Z (-5))]
           (Usage.mk [12354] hiragana (float_of_Z (-5)))).
  - vm_compute. reflexivity.
  - apply list_elem_of_here.
Defined.

(** X6.  When no percentage is NaN, the final sort of the extractor is
    stable: it returns the records that the row visits yield, each as
    often as it was yielded, in non-increasing order of percentage, and
    records of one percentage stay in the order in which they were
    yielded. *)
Theorem extractor_sort_is_stable soup kanji_usage_data :
  extract_kanji_usage_data soup = Returns kanji_usage_data ->
  Forall (fun x => is_number (Usage.percentage x) = true) kanji_usage_data ->
  exists collected,
    collect_rows (table_rows soup) = Returns collected /\
    kanji_usage_data ≡ₚ collected /\
    StronglySorted (descending Usage.percentage) kanji_usage_data /\
    forall p,
      List.filter (fun x => float_eq (Usage.percentage x) p) kanji_usage_data
      = List.filter (fun x => float_eq (Usage.percentage x) p) collected.
Proof.
  intros Hex Hnum.
  pose proof (extract_kanji_usage_data_sorted _ _ Hex Hnum) as Hsorted.
  revert Hex Hnum Hsorted.
  unfold extract_kanji_usage_data, mbind, outcome_bind.
  destruct (collect_rows (table_rows soup)) as [collected|]; [|done].
  intros [= <-] Hnum Hsorted. exists collected.
  rewrite (sorted_perm Usage.percentage true collected) in Hnum.
  split_and!; [done|apply (sorted_perm Usage.percentage true collected)|done|].
  intros p. apply (filter_sorted Usage.percentage _ true collected); [done|].
  intros x y _ _ Hx Hy. by apply float_eq_not_lt with p.
Qed.

Lemma extractor_sort_is_stable_witness :
  exists collected,
    collect_rows (table_rows tied_shares_page) = Returns collected /\
    [ Usage.mk [12356] hiragana (float_of_Z 12);
      Usage.mk [12360] hiragana (float_of_Z 12);
      Usage.mk [12354] hiragana (float_of_Z 5);
      Usage.mk [12358] hiragana (float_of_Z 5) ] ≡ₚ collected /\
    StronglySorted (descending Usage.percentage)
      [ Usage.mk [12356] hiragana (float_of_Z 12);
        Usage.mk [12360] hiragana (float_of_Z 12);
        Usage.mk [12354] hiragana (float_of_Z 5);
        Usage.mk [12358] hiragana (float_of_Z 5) ] /\
    forall p,
      List.filter (fun x => float_eq (Usage.percentage x) p)
        [ Usage.mk [12356] hiragana (float_of_Z 12);
          Usage.mk [12360] hiragana (float_of_Z 12);
          Usage.mk [12354] hiragana (float_of_Z 5);
          Usage.mk [12358] hiragana (float_of_Z 5) ]
      = List.filter (fun x => float_eq (Usage.percentage x) p) collected.
Proof.
  apply (extractor_sort_is_stable tied_shares_page).
  - vm_compute. reflexivity.
  - repeat constructor.
Defined.

Lemma collect_rows_returns rows :
  (exists data, collect_rows rows = Returns data) <->
  forall row, row ∈ rows -> exists records, row_records row = Returns records.
Proof.
  induction rows as [|row rows IH]; simpl.
  { split; [by intros _ row ?%elem_of_nil|by exists []]. }
  unfold mbind, outcome_bind. split.
  - intros [data Hdata] row' Hin.
    destruct (row_records row) as [records|] eqn:Hrow; [|done].
    destruct (collect_rows rows) as [more|] eqn:Hmore; [|done].
    apply elem_of_cons in Hin as [->|Hin]; [by exists records|].
    apply IH; [by exists more|done].
  - intros Hall. destruct (Hall row) as [records ->]; [by left|].
    destruct (proj2 IH) as [more ->]; [|by eexists].
    intros row' Hin. apply Hall. by right.
Qed.

(** X7.  The extraction returns exactly when, in every row that has a
    reading token, the second cell without its percent signs is a number
    for [float]; rows without two cells, a link or a reading span never
    make it raise, whatever they hold. *)
Theorem extraction_returns_iff soup :
  (exists kanji_usage_data, extract_kanji_usage_data soup = Returns kanji_usage_data)
  <->
  (forall row reading cell1,
      row ∈ table_rows soup ->
      row_fields row = Some (reading, cell1) ->
      is_Some (float_of_str (remove_char 37 (text cell1)))).
Proof.
  unfold extract_kanji_usage_data, mbind, outcome_bind. split.
  - intros [data Hdata] row reading cell1 Hin Hfields.
    destruct (collect_rows (table_rows soup)) as [collected|] eqn:Hc; [|done].
    destruct (proj1 (collect_rows_returns _) (ex_intro _ _ Hc) row Hin)
      as [records Hrow].
    unfold row_records in Hrow. rewrite Hfields in Hrow.
    by destruct (float_of_str _).
  - intros Hall.
    destruct (proj2 (collect_rows_returns (table_rows soup))) as [collected ->];
      [|by eexists].
    intros row Hin. unfold row_records.
    destruct (row_fields row) as [[reading cell1]|] eqn:Hfields; [|by eexists].
    destruct (Hall row reading cell1 Hin Hfields) as [p ->]. by eexists.
Qed.

Lemma extraction_returns_iff_witness :
  exists kanji_usage_data,
    extract_kanji_usage_data Sample.negative_page = Returns kanji_usage_data.
Proof.
  apply (proj2 (extraction_returns_iff Sample.negative_page)).
  intros row reading cell1 Hin Hfields. vm_compute in Hin.
  apply list_elem_of_singleton in Hin. subst row.
  vm_compute in Hfields. injection Hfields as <- <-.
  eexists. vm_compute. reflexivity.
Defined.

Lemma usage_records_length reading p : (length (usage_records reading p) <= 2)%nat.
Proof.
  unfold usage_records. destruct (negb _); simpl; [|lia].
  rewrite length_app. by destruct (nonempty _), (nonempty _); simpl; lia.
Qed.

Lemma collect_rows_length rows : forall data,
  collect_rows rows = Returns data -> (length data <= 2 * length rows)%nat.
Proof.
  induction rows as [|row rows IH]; intros data; simpl.
  { intros [= <-]. simpl. lia. }
  unfold mbind, outcome_bind.
  destruct (row_records row) as [records|] eqn:Hrow; [|done].
  destruct (collect_rows rows) as [more|]; [|done].
  intros [= <-]. rewrite length_app. specialize (IH more eq_refl).
  assert (length records <= 2)%nat; [|lia].
  unfold row_records in Hrow. destruct (row_fields row) as [[reading cell1]|].
  - destruct (float_of_str _); simplify_eq. apply usage_records_length.
  - simplify_eq. simpl. lia.
Qed.

(** X8.  A row yields at most two records: the extractor returns at most
    twice as many records as it went through rows. *)
Theorem extractor_yields_at_most_two_per_row soup kanji_usage_data :
  extract_kanji_usage_data soup = Returns kanji_usage_data ->
  (length kanji_usage_data <= 2 * length (table_rows soup))%nat.
Proof.
  unfold extract_kanji_usage_data, mbind, outcome_bind.
  destruct (collect_rows (table_rows soup)) as [collected|] eqn:Hc; [|done].
  intros [= <-].
  change (length (sorted Usage.percentage true collected)
          <= 2 * length (table_rows soup))%nat.
  rewrite (Permutation_length (sorted_perm Usage.percentage true collected)).
  by apply collect_rows_length.
Qed.

Lemma extractor_yields_at_most_two_per_row_witness :
  (length [Usage.mk [12354%N] hiragana (float_of_Z (-5))]
   <= 2 * length (table_rows Sample.negative_page))%nat.
Proof.
  apply (extractor_yields_at_most_two_per_row Sample.negative_page).
  vm_compute. reflexivity.
Defined.

(** ** The Reading Extractor, once more *)

Lemma elem_of_first_occurrences l k : k ∈ first_occurrences l <-> k ∈ l.
Proof.
  induction l as [|x l IH]; simpl; [done|].
  rewrite !elem_of_cons, list_elem_of_filter, IH.
  destruct (decide (k = x)) as [->|Hne]; [split; by left|].
  split; [intros [?|[_ ?]]; [by left|by right]|].
  intros [?|?]; [by left|by right].
Qed.

Lemma filter_all {A} (P : A -> Prop) `{!forall x, Decision (P x)} (l : list A) :
  (forall x, P x) -> filter P l = l.
Proof.
  intros HP. induction l as [|x l IH]; [done|].
  by rewrite filter_cons_True, IH.
Qed.

Lemma add_item_keys items : forall acc : dict pystr,
  dict_keys (fold_left add_item items acc)
  = dict_keys acc
    ++ filter (fun k => k ∉ dict_keys acc)
         (first_occurrences (omap entry_of_item items).*1).
Proof.
  induction items as [|item items IH]; intros acc; csimpl.
  { by rewrite app_nil_r. }
  rewrite IH. unfold add_item.
  destruct (entry_of_item item) as [[r m]|]; csimpl; [|done].
  unfold add_meaning. rewrite dict_keys_dict_set.
  destruct (decide (r ∈ dict_keys acc)) as [Hin|Hnot].
  - rewrite filter_cons_False by (by intros []).
    f_equal. rewrite list_filter_filter. apply list_filter_iff.
    intros k. split; [|by intros [? _]]. intros Hk. split; [done|].
    by intros ->.
  - rewrite filter_cons_True by done. rewrite <- app_assoc. simpl. do 2 f_equal.
    rewrite list_filter_filter. apply list_filter_iff.
    intros k. rewrite not_elem_of_app, list_elem_of_singleton. done.
Qed.

(** X9.  The readings of the returned mapping are those of the list
    entries, each once, in the order in which they first occur: no reading
    of the list is dropped, and a repeated reading keeps its first place. *)
Theorem readings_keep_first_occurrence_order readings_div reading_type :
  dict_keys (extract_reading_type readings_div reading_type)
  = first_occurrences (entry_readings readings_div reading_type).
Proof.
  rewrite extract_reading_type_fold, add_item_keys. simpl.
  unfold entry_readings. apply filter_all. intros k. apply not_elem_of_nil.
Qed.

Lemma drop_while_head {A} (p : A -> bool) (l : list A) x :
  head (drop_while p l) = Some x -> p x = false.
Proof.
  induction l as [|y l IH]; simpl; [done|].
  destruct (p y) eqn:Hy; [done|]. by intros [= <-].
Qed.

Lemma drop_while_suffix {A} (p : A -> bool) (l : list A) :
  exists pre, l = pre ++ drop_while p l.
Proof.
  induction l as [|y l [pre IH]]; simpl; [by exists []|].
  destruct (p y); [|by exists []].
  exists (y :: pre). simpl. by f_equal.
Qed.

Lemma strip_chars_ends (p : N -> bool) (s : pystr) c :
  head (strip_chars p s) = Some c \/ last (strip_chars p s) = Some c ->
  p c = false.
Proof.
  unfold strip_chars.
  set (t := drop_while p s). set (u := drop_while p (rev t)).
  destruct (drop_while_suffix p (rev t)) as [pre Hpre]. fold u in Hpre.
  assert (t = rev u ++ rev pre) as Ht.
  { by rewrite <- rev_app_distr, <- Hpre, rev_involutive. }
  intros [Hhead|Hlast].
  - apply (drop_while_head p s). fold t. rewrite Ht.
    destruct (rev u); [done|]. done.
  - apply (drop_while_head p (rev t)). fold u.
    rewrite rev_alt in Hlast. by rewrite <- (last_reverse u).
Qed.

Lemma entry_reading_ends item reading meaning c :
  entry_of_item item = Some (reading, meaning) ->
  head reading = Some c \/ last reading = Some c -> c <> 45.
Proof.
  unfold entry_of_item.
  destruct (find (tag_with "table" "lang" "ja") item); [|done].
  intros [= <- _] Hends%strip_chars_ends ->. done.
Qed.

(** X10.  No reading of the returned mapping begins or ends with a hyphen:
    the hyphens that stand for the stem or the ending in the page are
    stripped from both ends (one inside the reading stays). *)
Theorem readings_have_no_hyphen_at_the_ends readings_div reading_type reading :
  reading ∈ dict_keys (extract_reading_type readings_div reading_type) ->
  head reading <> Some 45 /\ last reading <> Some 45.
Proof.
  rewrite extract_reading_type_fold, add_item_keys. simpl.
  rewrite filter_all by (intros k; apply not_elem_of_nil).
  intros Hin. apply (proj1 (elem_of_first_occurrences _ _)) in Hin.
  apply list_elem_of_fmap in Hin as ([r m] & -> & Hin).
  apply list_elem_of_omap in Hin as (item & _ & Hentry). simpl.
  split; intros H; eapply (entry_reading_ends _ _ _ 45 Hentry); eauto.
Qed.

Lemma readings_have_no_hyphen_at_the_ends_witness :
  head [12354] <> Some 45 /\ last [12354] <> Some 45.
Proof.
  apply (readings_have_no_hyphen_at_the_ends Sample.readings_div (str "Kun'yomi")).
  vm_compute. apply list_elem_of_here.
Defined.

(** X11.  An [em] element directly inside a reading span adds nothing to
    the reading token, wherever it stands among the children. *)
Theorem em_children_add_nothing name attrs before em_attrs em_contents after :
  span_reading (Tag name attrs (before ++ Tag (str "em") em_attrs em_contents :: after))
  = span_reading (Tag name attrs (before ++ after)).
Proof.
  unfold span_reading. simpl. rewrite !omap_app. csimpl.
  destruct em_contents as [|c [|c' em_contents]]; [done| |done].
  destruct (string_of c) as [s|]; [|done]. by rewrite andb_false_r.
Qed.

(** ** The call to the flashcard application, once more *)

(** X12.  When the response is an object with exactly the fields [error]
    and [result] and [error] is not null, [invoke] raises an exception
    that carries the value of [error]; and when the exchange itself
    raises, [invoke] raises the same. *)
Theorem invoke_raises_the_error exchange action params :
  (forall fields error,
      exchange (request action params) = Returns (JObj fields) ->
      dom fields = {[ str "error"; str "result" ]} ->
      fields !! str "error" = Some error ->
      error <> JNull ->
      invoke exchange action params = Raises (ExceptionOf error)) /\
  (forall e,
      exchange (request action params) = Raises e ->
      invoke exchange action params = Raises e).
Proof.
  split.
  - intros fields error Hex Hdom Herr Hnull.
    apply two_fields_dom in Hdom as (Hsize & He & Hr).
    unfold invoke, mbind, outcome_bind. rewrite Hex. simpl.
    rewrite Hsize. simpl. rewrite !bool_decide_eq_true_2 by done. simpl.
    rewrite Herr. by destruct error.
  - intros e Hex. unfold invoke, mbind, outcome_bind. by rewrite Hex.
Qed.

Lemma invoke_raises_the_error_witness :
  invoke (fun _ => Returns (JObj (<[str "error" := JStr (str "deck was not found")]>
                                 (<[str "result" := JNull]> ∅))))
         (str "findNotes") ∅
    = Raises (ExceptionOf (JStr (str "deck was not found"))).
Proof.
  apply (proj1 (invoke_raises_the_error _ (str "findNotes") ∅)
           (<[str "error" := JStr (str "deck was not found")]>
              (<[str "result" := JNull]> ∅))).
  - reflexivity.
  - apply two_fields_dom. split_and!.
    + vm_compute. reflexivity.
    + eexists. vm_compute. reflexivity.
    + eexists. vm_compute. reflexivity.
  - vm_compute. reflexivity.
  - discriminate.
Defined.

(** ** The per-character pipeline, once more *)

Lemma usage_item_nonzero soup kanji_usage_data item :
  extract_kanji_usage_data soup = Returns kanji_usage_data ->
  item ∈ kanji_usage_data ->
  float_eq (Usage.percentage item) float_zero = false.
Proof.
  unfold extract_kanji_usage_data, mbind, outcome_bind.
  destruct (collect_rows (table_rows soup)) as [collected|] eqn:Hc; [|done].
  intros [= <-] Hin.
  rewrite (sorted_perm Usage.percentage true collected) in Hin.
  destruct (collect_rows_elem _ _ _ Hc Hin) as (row & records & _ & Hrow & Hitem).
  by eapply row_records_elem.
Qed.

Lemma ranked_entry_facts soup kanji_usage_data (d : dict pystr) reading details :
  extract_kanji_usage_data soup = Returns kanji_usage_data ->
  (reading, details)
    ∈ filter_and_sort_reading_type d (reading_percentages kanji_usage_data) ->
  float_eq (Details.percentage details) float_zero = false /\
  (exists item,
      item ∈ kanji_usage_data /\ Usage.reading item = reading /\
      Usage.percentage item = Details.percentage details) /\
  reading ∈ dict_keys d.
Proof.
  intros Hex Hin.
  assert (reading ∈ dict_keys d) as Hkey.
  { assert (reading ∈ dict_keys (filter_and_sort_reading_type d
                                   (reading_percentages kanji_usage_data))) as Hk.
    { apply list_elem_of_fmap. by exists (reading, details). }
    apply keep_item_keys in Hk as [Hk|Hk]; [by apply elem_of_nil in Hk|].
    unfold dict_keys. by rewrite sorted_perm in Hk. }
  apply keep_item_elem in Hin as [Hin|Hin]; [by apply elem_of_nil in Hin|].
  simpl in Hin.
  destruct (reading_percentages_cases kanji_usage_data reading)
    as [[Hnone _]|(item & Hitem & Hreading & Hsome)]; [congruence|].
  assert (Usage.percentage item = Details.percentage details) as Hp by congruence.
  split_and!; [|by exists item|done].
  rewrite <- Hp. by eapply usage_item_nonzero.
Qed.

(** X13.  A result of the pipeline is for the kanji asked for, and every
    reading in each of its three categories has a percentage other than
    zero, which is that of a usage record of the page with this reading,
    and is a reading of that category in the reading section. *)
Theorem pipeline_readings_have_usage target soup result :
  fetch_kanji_data target (Some soup) = Returns (Some result) ->
  kanji result = target /\
  exists readings_div kanji_usage_data,
    select_one readings_div_selector soup = Some readings_div /\
    extract_kanji_usage_data soup = Returns kanji_usage_data /\
    forall ranked reading_type,
      (ranked, reading_type)
        ∈ [ (kunyomi result, str "Kun'yomi"); (onyomi result, str "On'yomi");
            (nanori result, str "Nanori") ] ->
      forall reading details,
        (reading, details) ∈ ranked ->
        float_eq (Details.percentage details) float_zero = false /\
        (exists item,
            item ∈ kanji_usage_data /\ Usage.reading item = reading /\
            Usage.percentage item = Details.percentage details) /\
        reading ∈ dict_keys (extract_reading_type readings_div reading_type).
Proof.
  unfold fetch_kanji_data.
  destruct (select_one readings_div_selector soup) as [readings_div|]; [|done].
  simpl. unfold mbind, outcome_bind.
  destruct (extract_kanji_usage_data soup) as [data|] eqn:Hex; [|done].
  intros [= <-]. split; [done|]. exists readings_div, data.
  split_and!; [done|done|].
  intros ranked reading_type Hmem reading details Hin. simpl in Hmem.
  repeat (apply elem_of_cons in Hmem as [[= -> ->]|Hmem];
          [by eapply ranked_entry_facts|]).
  by apply elem_of_nil in Hmem.
Qed.

Lemma pipeline_readings_have_usage_witness :
  exists readings_div kanji_usage_data,
    select_one readings_div_selector Sample.good_page = Some readings_div /\
    extract_kanji_usage_data Sample.good_page = Returns kanji_usage_data /\
    forall ranked reading_type,
      (ranked, reading_type)
        ∈ [ ([([12354], Details.mk (str "to meet, to join") (float_of_Z 12))],
             str "Kun'yomi");
            ([], str "On'yomi"); ([], str "Nanori") ] ->
      forall reading details,
        (reading, details) ∈ ranked ->
        float_eq (Details.percentage details) float_zero = false /\
        (exists item,
            item ∈ kanji_usage_data /\ Usage.reading item = reading /\
            Usage.percentage item = Details.percentage details) /\
        reading ∈ dict_keys (extract_reading_type readings_div reading_type).
Proof.
  apply (pipeline_readings_have_usage [20250] Sample.good_page
           {| kanji := [20250];
              kunyomi := [([12354], Details.mk (str "to meet, to join")
                                               (float_of_Z 12))];
              onyomi := [];
              nanori := [] |}).
  vm_compute. reflexivity.
Defined.

(** ** The fields of the note *)

Lemma float_lt_of_ge a b c :
  float_ge a b = true -> float_lt a c = true -> float_lt b c = true.
Proof. float_order. Qed.

Lemma muted_lines (l : list (pystr * Details.t)) :
  Forall (fun x => is_muted x.2 = true) l ->
  reading_line <$> l = (fun x => gray_line x.1 (Details.meaning x.2)) <$> l.
Proof.
  induction 1 as [|[r d] l Hx _ IH]; csimpl; [done|].
  simpl in Hx. by rewrite Hx, IH.
Qed.

(** X14.  When the readings of a category are in non-increasing order of
    percentage, as the pipeline leaves them, the field shows the readings
    of at least 1% first, each as a plain line, and after them the
    readings below 1%, each as a gray line; the lines are joined by
    [<br>] in the order of the readings. *)
Theorem muted_lines_come_last (readings : dict Details.t) :
  StronglySorted (descending (fun x : pystr * Details.t => Details.percentage x.2))
    readings ->
  exists normal muted,
    readings = normal ++ muted /\
    Forall (fun x => is_muted x.2 = false) normal /\
    Forall (fun x => is_muted x.2 = true) muted /\
    reading_field readings
    = join (str "<br>")
        (((fun x => plain_line x.1 (Details.meaning x.2)) <$> normal)
         ++ ((fun x => gray_line x.1 (Details.meaning x.2)) <$> muted)).
Proof.
  intros Hsorted.
  enough (exists normal muted,
             readings = normal ++ muted /\
             Forall (fun x => is_muted x.2 = false) normal /\
             Forall (fun x => is_muted x.2 = true) muted /\
             reading_line <$> readings
             = ((fun x => plain_line x.1 (Details.meaning x.2)) <$> normal)
               ++ ((fun x => gray_line x.1 (Details.meaning x.2)) <$> muted))
    as (normal & muted & ? & ? & ? & Hlines).
  { exists normal, muted. unfold reading_field. by rewrite Hlines. }
  induction Hsorted as [|[r d] l Hl IH Hx]; [by exists [], []|].
  destruct (is_muted d) eqn:Hd.
  - exists [], ((r, d) :: l).
    assert (Forall (fun x => is_muted x.2 = true) ((r, d) :: l)) as Hall.
    { constructor; [done|]. eapply Forall_impl; [exact Hx|].
      intros [r' d'] Hge. unfold descending, is_muted in *. simpl in *.
      by eapply float_lt_of_ge. }
    split_and!; [done|constructor|done|]. by rewrite muted_lines.
  - destruct IH as (normal & muted & -> & Hnormal & Hmuted & Hlines).
    exists ((r, d) :: normal), muted.
    split_and!; [done|by constructor|done|].
    rewrite fmap_cons, Hlines. unfold reading_line at 1. by rewrite Hd.
Qed.

Lemma muted_lines_come_last_witness :
  exists normal muted,
    [([12354], Details.mk (str "to meet") (float_of_Z 12));
     ([12356], Details.mk (str "stomach") (float_of_decimal false 5 (-1)))]
      = normal ++ muted /\
    Forall (fun x => is_muted x.2 = false) normal /\
    Forall (fun x => is_muted x.2 = true) muted /\
    reading_field
      [([12354], Details.mk (str "to meet") (float_of_Z 12));
       ([12356], Details.mk (str "stomach") (float_of_decimal false 5 (-1)))]
    = join (str "<br>")
        (((fun x => plain_line x.1 (Details.meaning x.2)) <$> normal)
         ++ ((fun x => gray_line x.1 (Details.meaning x.2)) <$> muted)).
Proof.
  apply (muted_lines_come_last
           [([12354], Details.mk (str "to meet") (float_of_Z 12));
            ([12356], Details.mk (str "stomach") (float_of_decimal false 5 (-1)))]).
  repeat constructor.
Defined.

(** ** Loading the list and collecting the results *)

(** X15.  [load_kanji_list] returns null when the file is not found.  For
    a file that was read, it raises [IndexError] when some row is empty,
    as the row of a blank line is; otherwise it returns the first cell of
    every row, in the order of the rows. *)
Theorem load_kanji_list_outcomes rows :
  load_kanji_list None = Returns None /\
  ([] ∈ rows -> load_kanji_list (Some rows) = Raises (LibraryError "IndexError")) /\
  ([] ∉ rows ->
   exists kanjis,
     load_kanji_list (Some rows) = Returns (Some kanjis) /\
     Some <$> kanjis = head <$> rows).
Proof.
  split; [done|]. unfold load_kanji_list, mbind, outcome_bind.
  induction rows as [|row rows [IHraise IHret]]; simpl.
  { split; [by intros ?%elem_of_nil|]. intros _. by exists []. }
  unfold mbind, outcome_bind. destruct row as [|cell row]; simpl.
  { split; [done|]. intros []. by left. }
  split.
  - intros [?|Hin]%elem_of_cons; [done|].
    specialize (IHraise Hin). by destruct (collect first_column rows).
  - intros [_ Hnot]%not_elem_of_cons.
    destruct (IHret Hnot) as (kanjis & Hload & Hheads).
    destruct (collect first_column rows) as [cells|]; [|done].
    injection Hload as <-. exists (cell :: cells). split; [done|].
    csimpl. by rewrite Hheads.
Qed.

Lemma load_kanji_list_outcomes_witness :
  load_kanji_list (Some [[[26085]; str "day"]; []])
    = Raises (LibraryError "IndexError") /\
  exists kanjis,
    load_kanji_list (Some [[[26085]; str "day"]; [[26376]]]) = Returns (Some kanjis) /\
    Some <$> kanjis = head <$> [[[26085]; str "day"]; [[26376]]].
Proof.
  split.
  - apply (proj1 (proj2 (load_kanji_list_outcomes [[[26085]; str "day"]; []]))).
    apply list_elem_of_further, list_elem_of_here.
  - apply (proj2 (proj2 (load_kanji_list_outcomes [[[26085]; str "day"]; [[26376]]]))).
    intros Hin. by repeat (apply elem_of_cons in Hin as [?|Hin]; [done|]);
      apply elem_of_nil in Hin.
Defined.

Lemma fetch_kanji_data_raises target page e :
  fetch_kanji_data target page = Raises e -> e = ValueError.
Proof.
  unfold fetch_kanji_data. destruct page as [soup|]; [|done].
  destruct (select_one readings_div_selector soup); [|done].
  simpl. unfold mbind, outcome_bind.
  destruct (extract_kanji_usage_data soup) as [data|e'] eqn:Hex; [done|].
  intros [= <-]. by apply extract_kanji_usage_data_raises in Hex.
Qed.

Lemma fetch_kanji_data_returns target page data :
  fetch_kanji_data target page = Returns data ->
  match data with
  | Some result => kanji result = target /\ has_reading_section page = true
  | None => has_reading_section page = false
  end.
Proof.
  unfold fetch_kanji_data, has_reading_section.
  destruct page as [soup|]; [|by intros [= <-]].
  destruct (select_one readings_div_selector soup); [|by intros [= <-]].
  simpl. unfold mbind, outcome_bind.
  destruct (extract_kanji_usage_data soup); [|done]. by intros [= <-].
Qed.

(** X16.  One page whose reading section is found and whose usage
    extraction raises makes the collection of the whole list raise
    [ValueError]: no result is returned for any kanji of the list. *)
Theorem one_malformed_page_aborts_the_batch fetched target soup :
  (target, Some soup) ∈ fetched ->
  is_Some (select_one readings_div_selector soup) ->
  (exists e, extract_kanji_usage_data soup = Raises e) ->
  collect_kanji_data fetched = Raises ValueError.
Proof.
  intros Hin [readings_div Hdiv] [e He].
  assert (fetch_kanji_data target (Some soup) = Raises ValueError) as Hraise.
  { apply extract_kanji_usage_data_raises in He as Heq. subst e.
    unfold fetch_kanji_data. rewrite Hdiv. simpl.
    unfold mbind, outcome_bind. by rewrite He. }
  unfold collect_kanji_data.
  enough (collect (fun item : pystr * option node =>
                     fetch_kanji_data item.1 item.2) fetched
          = Raises ValueError) as -> by done.
  induction fetched as [|[k page] fetched IH]; [by apply elem_of_nil in Hin|].
  simpl. unfold mbind, outcome_bind.
  destruct (fetch_kanji_data k page) as [data|e'] eqn:Hk.
  - apply elem_of_cons in Hin as [Heq|Hin]; [|by rewrite IH].
    injection Heq as <- <-. congruence.
  - by apply fetch_kanji_data_raises in Hk as ->.
Qed.

Lemma one_malformed_page_aborts_the_batch_witness :
  collect_kanji_data [([20250], Some Sample.good_page); ([26085], Some Sample.bad_page)]
    = Raises ValueError.
Proof.
  apply (one_malformed_page_aborts_the_batch _ [26085] Sample.bad_page).
  - apply list_elem_of_further, list_elem_of_here.
  - eexists. vm_compute. reflexivity.
  - eexists. vm_compute. reflexivity.
Defined.

(** X17.  When the collection returns, its results are for the kanji of
    the list whose page was fetched and has the reading section, one
    result for each, in the order of the list; the other kanji are left
    out. *)
Theorem collected_kanji_keep_the_order fetched kanji_data :
  collect_kanji_data fetched = Returns kanji_data ->
  kanji <$> kanji_data
  = (List.filter (fun item => has_reading_section item.2) fetched).*1.
Proof.
  unfold collect_kanji_data, mbind, outcome_bind.
  destruct (collect _ fetched) as [results|] eqn:Hc; [|done].
  intros [= <-]. revert results Hc.
  induction fetched as [|[k page] fetched IH]; intros results; simpl.
  { by intros [= <-]. }
  unfold mbind, outcome_bind. simpl.
  destruct (fetch_kanji_data k page) as [data|] eqn:Hk; [|done].
  destruct (collect _ fetched) as [more|]; [|done].
  intros [= <-]. specialize (IH more eq_refl).
  apply fetch_kanji_data_returns in Hk. csimpl.
  destruct data as [result|]; simpl.
  - destruct Hk as [-> ->]. csimpl. by rewrite IH.
  - by rewrite Hk.
Qed.

Lemma collected_kanji_keep_the_order_witness :
  kanji <$> [ {| kanji := [20250];
                 kunyomi := [([12354], Details.mk (str "to meet, to join")
                                                  (float_of_Z 12))];
                 onyomi := [];
                 nanori := [] |} ]
  = (List.filter (fun item => has_reading_section item.2)
       [([26085], None); ([20250], Some Sample.good_page);
        ([26376], Some Sample.negative_page)]).*1.
Proof.
  apply (collected_kanji_keep_the_order
           [([26085], None); ([20250], Some Sample.good_page);
            ([26376], Some Sample.negative_page)]).
  vm_compute. reflexivity.
Defined.

(** ** The tree of a page *)

Lemma node_induction (P : node -> Prop) :
  (forall shown s, P (NavigableString shown s)) ->
  (forall name attrs contents, Forall P contents -> P (Tag name attrs contents)) ->
  forall n, P n.
Proof.
  intros Hstring Htag. fix IH 1. intros [shown s|name attrs contents].
  - apply Hstring.
  - apply Htag. induction contents as [|c contents IHc]; constructor.
    + apply IH.
    + apply IHc.
Qed.

Lemma descendants_tag name attrs contents :
  descendants (Tag name attrs contents)
  = flat_map (fun c => c :: descendants c) contents.
Proof.
  unfold descendants. simpl.
  induction contents as [|c contents IH]; [done|].
  csimpl. rewrite fmap_app. by rewrite IH.
Qed.

(** What is below a node that is below [n] is below [n], and stands in the
    document order of [n] right after that node. *)
Lemma descendants_split n : forall m,
  m ∈ descendants n ->
  exists before after, descendants n = before ++ m :: descendants m ++ after.
Proof.
  induction n as [shown s|name attrs contents IH] using node_induction.
  { by intros m ?%elem_of_nil. }
  intros m. rewrite descendants_tag. revert m.
  induction IH as [|c contents Hc _ IHcontents]; intros m; simpl.
  { by intros ?%elem_of_nil. }
  intros [->|[Hin|Hin]%elem_of_app]%elem_of_cons.
  - by exists [], (flat_map (fun c => c :: descendants c) contents).
  - destruct (Hc m Hin) as (before & after & ->).
    exists (c :: before), (after ++ flat_map (fun c => c :: descendants c) contents).
    simpl. by repeat (rewrite <- app_assoc; simpl).
  - destruct (IHcontents m Hin) as (before & after & ->).
    exists (c :: descendants c ++ before), after.
    simpl. by repeat (rewrite <- app_assoc; simpl).
Qed.

Lemma descendants_trans n m x :
  m ∈ descendants n -> x ∈ descendants m -> x ∈ descendants n.
Proof.
  intros (before & after & ->)%descendants_split Hx.
  apply elem_of_app. right. right. apply elem_of_app. by left.
Qed.

Lemma find_all_split p n m :
  m ∈ find_all p n ->
  exists before after, find_all p n = before ++ m :: find_all p m ++ after.
Proof.
  unfold find_all. intros [Hin Hp]%list_elem_of_In%filter_In.
  apply list_elem_of_In, descendants_split in Hin as (before & after & ->).
  exists (List.filter p before), (List.filter p after).
  rewrite List.filter_app. simpl. rewrite Hp. by rewrite List.filter_app.
Qed.

Lemma find_all_nested p q n m x :
  m ∈ find_all q n -> x ∈ find_all p m -> x ∈ find_all p n.
Proof.
  unfold find_all. rewrite !list_elem_of_In, !filter_In, <- !list_elem_of_In.
  intros [Hm _] [Hx Hp]. split; [|done]. by eapply descendants_trans.
Qed.

(** X18.  The rows are gone through table by table, and a table inside a
    table is a table of the page as well: a row of the inner table is gone
    through at least twice, once for each table around it, so what it
    yields is yielded again. *)
Theorem rows_of_nested_tables_are_read_again soup outer inner row :
  outer ∈ find_all (tag_is "table") soup ->
  inner ∈ find_all (tag_is "table") outer ->
  row ∈ find_all (tag_is "tr") inner ->
  exists rows1 rows2 rows3,
    table_rows soup = rows1 ++ row :: rows2 ++ row :: rows3.
Proof.
  intros (t1 & t3 & Hsoup)%find_all_split (t2 & t2' & Houter)%find_all_split Hrow.
  assert (row ∈ find_all (tag_is "tr") outer) as Hrow'.
  { apply (find_all_nested _ (tag_is "table") outer inner); [|done].
    rewrite Houter. apply elem_of_app. right. by left. }
  apply list_elem_of_split in Hrow as (a & b & Ha).
  apply list_elem_of_split in Hrow' as (a' & b' & Ha').
  unfold table_rows. rewrite Hsoup, Houter.
  rewrite !flat_map_app. simpl. rewrite !flat_map_app. simpl.
  rewrite Ha', Ha.
  exists (flat_map (find_all (tag_is "tr")) t1 ++ a'),
    (b' ++ flat_map (find_all (tag_is "tr")) t2 ++ a),
    (b ++ flat_map (find_all (tag_is "tr")) (find_all (tag_is "table") inner ++ t2')
       ++ flat_map (find_all (tag_is "tr")) t3).
  by repeat (rewrite <- app_assoc; simpl).
Qed.

Lemma rows_of_nested_tables_are_read_again_witness :
  exists rows1 rows2 rows3,
    table_rows nested_tables_page
    = rows1 ++ Sample.mixed_row :: rows2 ++ Sample.mixed_row :: rows3.
Proof.
  apply (rows_of_nested_tables_are_read_again nested_tables_page
           (Sample.element "table"
              [ Sample.element "tr"
                  [ Sample.element "td"
                      [ Sample.element "table" [Sample.mixed_row] ] ] ])
           (Sample.element "table" [Sample.mixed_row])
           Sample.mixed_row).
  - vm_compute. apply list_elem_of_here.
  - vm_compute. apply list_elem_of_here.
  - vm_compute. apply list_elem_of_here.
Defined.

Lemma select_in_elem n : forall chain path x,
  x ∈ select_in chain path n ->
  x ∈ descendants n /\
  exists first path', matches_chain chain ((x, first) :: path') = true.
Proof.
  induction n as [shown s|name attrs contents IH] using node_induction;
    intros chain path x.
  { by intros ?%elem_of_nil. }
  rewrite descendants_tag. simpl.
  generalize true at 1 as first.
  induction IH as [|c contents Hc _ IHcontents]; intros first; simpl.
  { by intros ?%elem_of_nil. }
  intros [Hhere|[Hbelow|Hrest]%elem_of_app]%elem_of_app.
  - destruct (matches_chain chain ((c, first) :: path)) eqn:Hm;
      [|by apply elem_of_nil in Hhere].
    apply list_elem_of_singleton in Hhere as ->.
    split; [by left|by eexists _, _].
  - destruct (Hc _ _ _ Hbelow) as [Hdesc Hmatch].
    split; [|done]. right. apply elem_of_app. by left.
  - destruct (IHcontents _ Hrest) as [Hdesc Hmatch].
    split; [|done]. right. apply elem_of_app. by right.
Qed.

(** X19.  What the selector finds is a [div] element below the root of the
    page; a page without such an element has no reading section. *)
Theorem reading_section_is_a_div_of_the_page soup readings_div :
  select_one readings_div_selector soup = Some readings_div ->
  readings_div ∈ descendants soup /\
  exists attrs contents, readings_div = Tag (str "div") attrs contents.
Proof.
  unfold select_one. intros Hhead.
  assert (readings_div ∈ select_in (rev readings_div_selector) [(soup, true)] soup)
    as Hin by (by apply head_Some_elem_of).
  apply select_in_elem in Hin as [Hdesc (first & path' & Hmatch)].
  split; [done|].
  simpl in Hmatch. apply andb_true_iff in Hmatch as [Hmatch _].
  destruct readings_div as [|name attrs contents]; [done|].
  simpl in Hmatch. rewrite !andb_true_r in Hmatch.
  apply bool_decide_eq_true in Hmatch as ->. by exists attrs, contents.
Qed.

Lemma reading_section_is_a_div_of_the_page_witness :
  Sample.readings_div ∈ descendants Sample.good_page /\
  exists attrs contents, Sample.readings_div = Tag (str "div") attrs contents.
Proof.
  apply (reading_section_is_a_div_of_the_page Sample.good_page Sample.readings_div).
  vm_compute. reflexivity.
Defined.

(** ** Missing parts of a page *)

(** X20.  When no [h5] element below the reading section has the name of
    the category as its string, the mapping of the category is empty: a
    missing category is no error. *)
Theorem missing_heading_gives_empty_mapping readings_div reading_type :
  (forall x, x ∈ descendants readings_div ->
             tag_with_string "h5" reading_type x = false) ->
  extract_reading_type readings_div reading_type = [].
Proof.
  intros Hnone. unfold extract_reading_type.
  assert (List.filter (fun p : node * list node =>
                         tag_with_string "h5" reading_type p.1)
            (positions readings_div) = []) as ->; [|done].
  unfold descendants in Hnone.
  induction (positions readings_div) as [|[x after] l IH]; [done|].
  simpl. rewrite (Hnone x) by (by left).
  apply IH. intros y Hy. apply Hnone. by right.
Qed.

Lemma missing_heading_gives_empty_mapping_witness :
  extract_reading_type Sample.readings_div (str "Nanori") = [].
Proof.
  apply (missing_heading_gives_empty_mapping Sample.readings_div (str "Nanori")).
  intros x Hx.
  destruct (tag_with_string "h5" (str "Nanori") x) eqn:Hh5; [|done].
  assert (x ∈ List.filter (tag_with_string "h5" (str "Nanori"))
                (descendants Sample.readings_div)) as Hin.
  { apply list_elem_of_In, filter_In. split; [by apply list_elem_of_In|done]. }
  vm_compute in Hin. by apply elem_of_nil in Hin.
Defined.

Lemma keep_item_empty_lookup (items : list (pystr * pystr)) :
  forall acc : dict Details.t, fold_left (keep_item ∅) items acc = acc.
Proof.
  induction items as [|[k m] items IH]; intros acc; simpl; [done|].
  by rewrite lookup_empty, IH.
Qed.

(** X21.  When the reading section is found and the usage extraction
    returns no record, the result of the pipeline has the three categories
    empty, whatever the reading section lists: without usage data every
    reading is dropped. *)
Theorem no_usage_no_readings target soup readings_div :
  select_one readings_div_selector soup = Some readings_div ->
  extract_kanji_usage_data soup = Returns [] ->
  fetch_kanji_data target (Some soup)
  = Returns (Some {| kanji := target; kunyomi := []; onyomi := []; nanori := [] |}).
Proof.
  intros Hdiv Hex. unfold fetch_kanji_data. rewrite Hdiv. simpl.
  unfold mbind, outcome_bind. rewrite Hex.
  unfold filter_and_sort_readings, filter_and_sort_reading_type, reading_percentages.
  simpl. by rewrite !keep_item_empty_lookup.
Qed.

Lemma no_usage_no_readings_witness :
  fetch_kanji_data [20250] (Some (Sample.kanji_page []))
  = Returns (Some {| kanji := [20250]; kunyomi := []; onyomi := []; nanori := [] |}).
Proof.
  apply (no_usage_no_readings [20250] (Sample.kanji_page []) Sample.readings_div).
  - vm_compute. reflexivity.
  - vm_compute. reflexivity.
Defined.
